(** * Crew orchestration core: a shallow embedding and its verified properties

    The development follows the TypeScript sources of the crew orchestrator:
    StructuredDecision.ts, ShortTermMemory.ts, ToolAllowlist.ts,
    CheckpointTagging.ts, ParallelExecutor.ts, PlanTypes.ts, Planner.ts,
    ToolInvocation.ts, PlanDAGExecutor.ts and CrewOrchestrator.ts.  One module
    per source file;
    each module first embeds the code and then states what is proved of it.

    Conventions of the embedding.
    - A JavaScript [Map<string, V>] or record used as a dictionary is a
      [gmap string V]; arrays are lists; an optional field is an [option].
    - An awaited call either fulfils with a value or rejects with the message
      of the thrown error ([Settled]).  Code that threads state and may throw
      lives in the monad [M]: a state transformer over the mutable world of
      the caller whose result is a [Settled] value; [None] is only produced by
      a loop that has used up its unrolling budget.
    - Wall-clock readings ([Date.now()]: startedAt, finishedAt, durationMs,
      ts, createdTs) and the identifiers generated from them or from
      [Math.random] are inputs of the environment that no property below
      refers to; the records leave those fields out.
    - Numbers that the code only counts with are [nat]; configured numeric
      ceilings, which may be zero or negative, are [Z]. *)

From Stdlib Require Import Ascii.
From stdpp Require Import gmap strings list fin_maps pretty.

Local Open Scope string_scope.
Local Open Scope list_scope.
Set Warnings "-register-all".

(* ===================================================================== *)
(** * Effects: settled promises and the state-and-exception monad        *)
(* ===================================================================== *)

Module Effects.

(** The two ways an awaited promise settles. *)
Inductive Settled (A : Type) : Type :=
| Fulfilled (a : A)
| Rejected (msg : string).
Arguments Fulfilled {A} a.
Arguments Rejected {A} msg.

Definition is_fulfilled {A} (s : Settled A) : bool :=
  match s with Fulfilled _ => true | Rejected _ => false end.

(** Computations over a mutable world [W]. *)
Definition M (W A : Type) : Type := W -> option (Settled A * W).

Definition ret {W A} (a : A) : M W A := fun w => Some (Fulfilled a, w).

Definition throw {W A} (msg : string) : M W A := fun w => Some (Rejected msg, w).

Definition bind {W A B} (m : M W A) (k : A -> M W B) : M W B :=
  fun w =>
    match m w with
    | None => None
    | Some (Fulfilled a, w') => k a w'
    | Some (Rejected e, w') => Some (Rejected e, w')
    end.

(** [try { m } catch (err) { h err.message }]: the world keeps the writes made
    before the throw. *)
Definition tryCatch {W A} (m : M W A) (h : string -> M W A) : M W A :=
  fun w =>
    match m w with
    | None => None
    | Some (Fulfilled a, w') => Some (Fulfilled a, w')
    | Some (Rejected e, w') => h e w'
    end.

Definition get {W} : M W W := fun w => Some (Fulfilled w, w).

Definition modify {W} (f : W -> W) : M W unit := fun w => Some (Fulfilled tt, f w).

(** Awaiting an already settled promise. *)
Definition await {W A} (s : Settled A) : M W A := fun w => Some (s, w).

(** [await hook?.(args)]: an absent hook is skipped. *)
Definition callHook {W} (h : option (Settled unit)) : M W unit :=
  match h with
  | None => ret tt
  | Some s => await s
  end.

(** A sequential [for ... of] loop whose body updates the loop state [S]. *)
Fixpoint foldM {W A S} (f : S -> A -> M W S) (l : list A) (s : S) : M W S :=
  match l with
  | [] => ret s
  | x :: l' => bind (f s x) (foldM f l')
  end.

(** A loop that is still running when its unrolling budget is used up. *)
Definition outOfFuel {W A} : M W A := fun _ => None.

(** *** A program logic for [M]

    [spec strict pre m post]: started in a world that satisfies [pre], the
    computation [m] does not exhaust a loop budget; when it fulfils, the value
    and the world it leaves satisfy [post]; it may reject only when [strict]
    is [false]. *)
Definition spec {W A} (strict : bool) (pre : W -> Prop) (m : M W A)
  (post : A -> W -> Prop) : Prop :=
  forall w, pre w ->
    match m w with
    | None => False
    | Some (Fulfilled a, w') => post a w'
    | Some (Rejected _, _) => strict = false
    end.

Lemma spec_ret {W A} (strict : bool) (pre : W -> Prop) (a : A) (post : A -> W -> Prop) :
  (forall w, pre w -> post a w) -> spec strict pre (ret a) post.
Proof. intros H w Hw. simpl. now apply H. Qed.

Lemma spec_bind {W A B} (strict : bool) (pre : W -> Prop) (m : M W A)
  (mid : A -> W -> Prop) (k : A -> M W B) (post : B -> W -> Prop) :
  spec strict pre m mid ->
  (forall a, spec strict (mid a) (k a) post) ->
  spec strict pre (bind m k) post.
Proof.
  intros Hm Hk w Hw. unfold bind. specialize (Hm w Hw).
  destruct (m w) as [[[a|e] w']|]; [|exact Hm|exact Hm].
  apply (Hk a w' Hm).
Qed.

Lemma spec_conseq {W A} (strict : bool) (pre pre' : W -> Prop) (m : M W A)
  (post post' : A -> W -> Prop) :
  spec strict pre m post ->
  (forall w, pre' w -> pre w) ->
  (forall a w, post a w -> post' a w) ->
  spec strict pre' m post'.
Proof.
  intros Hm Hpre Hpost w Hw. specialize (Hm w (Hpre w Hw)).
  destruct (m w) as [[[a|e] w']|]; [|exact Hm|exact Hm].
  now apply Hpost.
Qed.

Lemma spec_throw {W A} (pre : W -> Prop) (msg : string) (post : A -> W -> Prop) :
  spec false pre (@throw W A msg) post.
Proof. intros w _. reflexivity. Qed.

Lemma spec_await {W A} (strict : bool) (pre : W -> Prop) (s : Settled A)
  (post : A -> W -> Prop) :
  (forall a, s = Fulfilled a -> forall w, pre w -> post a w) ->
  (forall e, s = Rejected e -> strict = false) ->
  spec strict pre (await s) post.
Proof.
  intros Hok Herr w Hw. unfold await. destruct s as [a|e].
  - now apply Hok.
  - now apply (Herr e).
Qed.

(** A [try] block may reject whatever [strict] is; the handler starts from
    the world the block leaves and must work from any world. *)
Lemma spec_tryCatch {W A} (strict : bool) (pre : W -> Prop) (m : M W A)
  (h : string -> M W A) (post : A -> W -> Prop) :
  spec false pre m post ->
  (forall e, spec strict (fun _ => True) (h e) post) ->
  spec strict pre (tryCatch m h) post.
Proof.
  intros Hm Hh w Hw. unfold tryCatch. specialize (Hm w Hw).
  destruct (m w) as [[[a|e] w']|]; [exact Hm| |exact Hm].
  apply (Hh e w' I).
Qed.

(** A fact that the precondition carries may be assumed. *)
Lemma spec_assume {W A} (strict : bool) (P : Prop) (pre : W -> Prop) (m : M W A)
  (post : A -> W -> Prop) :
  (P -> spec strict pre m post) -> spec strict (fun w => P /\ pre w) m post.
Proof. intros H w [HP Hw]. now apply H. Qed.

Lemma spec_weaken_strict {W A} (pre : W -> Prop) (m : M W A) (post : A -> W -> Prop) :
  spec true pre m post -> spec false pre m post.
Proof.
  intros Hm w Hw. specialize (Hm w Hw).
  destruct (m w) as [[[a|e] w']|]; [exact Hm | reflexivity | exact Hm].
Qed.

Lemma spec_modify {W} (strict : bool) (pre : W -> Prop) (f : W -> W)
  (post : unit -> W -> Prop) :
  (forall w, pre w -> post tt (f w)) -> spec strict pre (modify f) post.
Proof. intros H w Hw. simpl. now apply H. Qed.

Lemma spec_get {W} (strict : bool) (pre : W -> Prop) (post : W -> W -> Prop) :
  (forall w, pre w -> post w w) -> spec strict pre get post.
Proof. intros H w Hw. simpl. now apply H. Qed.

(** A hook that is absent or fulfils leaves the world as it is. *)
Lemma spec_callHook {W} (strict : bool) (pre : W -> Prop) (h : option (Settled unit)) :
  (forall e, h = Some (Rejected e) -> strict = false) ->
  spec strict pre (callHook h) (fun _ => pre).
Proof.
  intros Herr w Hw. destruct h as [[[]|e]|]; simpl; try exact Hw.
  now apply (Herr e).
Qed.

(** What a strict specification gives for one run. *)
Lemma spec_run {W A} (pre : W -> Prop) (m : M W A) (post : A -> W -> Prop) (w : W) :
  spec true pre m post -> pre w ->
  exists a w', m w = Some (Fulfilled a, w') /\ post a w'.
Proof.
  intros H Hw. specialize (H w Hw).
  destruct (m w) as [[[a|e] w']|]; [|discriminate|contradiction].
  now exists a, w'.
Qed.

(** [preserves I m]: however [m] ends, fulfilled or rejected, it leaves a
    world that satisfies [I] when it started in one. *)
Definition preserves {W A} (I : W -> Prop) (m : M W A) : Prop :=
  forall w r w', I w -> m w = Some (r, w') -> I w'.

Lemma preserves_ret {W A} (I : W -> Prop) (a : A) : preserves I (@ret W A a).
Proof. intros w r w' Hw H. inversion H; subst. exact Hw. Qed.

Lemma preserves_throw {W A} (I : W -> Prop) (msg : string) : preserves I (@throw W A msg).
Proof. intros w r w' Hw H. inversion H; subst. exact Hw. Qed.

Lemma preserves_await {W A} (I : W -> Prop) (s : Settled A) : preserves I (@await W A s).
Proof. intros w r w' Hw H. inversion H; subst. exact Hw. Qed.

Lemma preserves_callHook {W} (I : W -> Prop) (h : option (Settled unit)) :
  preserves I (@callHook W h).
Proof. destruct h; [apply preserves_await | apply preserves_ret]. Qed.

Lemma preserves_bind {W A B} (I : W -> Prop) (m : M W A) (k : A -> M W B) :
  preserves I m -> (forall a, preserves I (k a)) -> preserves I (bind m k).
Proof.
  intros Hm Hk w r w' Hw H. unfold bind in H.
  destruct (m w) as [[[a|e] w1]|] eqn:E; [| |discriminate].
  - exact (Hk a w1 r w' (Hm w _ w1 Hw E) H).
  - inversion H; subst. exact (Hm w _ w' Hw E).
Qed.

Lemma preserves_tryCatch {W A} (I : W -> Prop) (m : M W A) (h : string -> M W A) :
  preserves I m -> (forall e, preserves I (h e)) -> preserves I (tryCatch m h).
Proof.
  intros Hm Hh w r w' Hw H. unfold tryCatch in H.
  destruct (m w) as [[[a|e] w1]|] eqn:E; [| |discriminate].
  - inversion H; subst. exact (Hm w _ w' Hw E).
  - exact (Hh e w1 r w' (Hm w _ w1 Hw E) H).
Qed.

(** A computation that settles from every world. *)
Definition settles {W A} (m : M W A) : Prop := forall w, m w <> None.

Lemma settles_spec {W A} (m : M W A) :
  settles m -> spec false (fun _ => True) m (fun _ _ => True).
Proof.
  intros H w _. specialize (H w).
  destruct (m w) as [[[a|e] w']|]; [exact I | reflexivity | congruence].
Qed.

Lemma spec_settles {W A} (strict : bool) (m : M W A) (post : A -> W -> Prop) :
  spec strict (fun _ => True) m post -> settles m.
Proof.
  intros H w Hnone. specialize (H w I). now rewrite Hnone in H.
Qed.

End Effects.

Import Effects.

Declare Scope monad_scope.
Delimit Scope monad_scope with monad.
Notation "'let*' x ':=' m 'in' k" := (bind m (fun x => k))
  (at level 10, x name, m at level 100, k at level 200, only parsing) : monad_scope.

(* ===================================================================== *)
(** * JavaScript string helpers                                          *)
(* ===================================================================== *)

Module Js.

(** Truthiness of a string: only the empty string is falsy. *)
Definition truthy (s : string) : bool :=
  match s with EmptyString => false | String _ _ => true end.

(** [a || b] on strings. *)
Definition orElse (a b : string) : string := if truthy a then a else b.

(** [a || b] where [a] may be undefined. *)
Definition optOrElse (a : option string) (b : string) : string :=
  match a with
  | Some s => orElse s b
  | None => b
  end.

Definition newline : string := String (Ascii.ascii_of_nat 10) EmptyString.

(** [parts.join(sep)]. *)
Fixpoint join (sep : string) (parts : list string) : string :=
  match parts with
  | [] => ""
  | [p] => p
  | p :: rest => p +:+ sep +:+ join sep rest
  end.

(** White space removed by [String.prototype.trim] (the ASCII part of it:
    tab, line feed, vertical tab, form feed, carriage return, space). *)
Definition isSpace (c : ascii) : bool :=
  let n := Ascii.nat_of_ascii c in
  (Nat.leb 9 n && Nat.leb n 13) || Nat.eqb n 32.

Fixpoint trimStart (s : string) : string :=
  match s with
  | EmptyString => EmptyString
  | String c s' => if isSpace c then trimStart s' else s
  end.

Fixpoint trimEnd (s : string) : string :=
  match s with
  | EmptyString => EmptyString
  | String c s' =>
      match trimEnd s' with
      | EmptyString => if isSpace c then EmptyString else String c EmptyString
      | t => String c t
      end
  end.

Definition trim (s : string) : string := trimEnd (trimStart s).

(** [s.substring(0, n)] for [n >= 0]. *)
Definition substring0 (n : nat) (s : string) : string := String.substring 0 n s.

(** [l.includes(x)] on an array of strings. *)
Definition includes (l : list string) (x : string) : bool := bool_decide (x ∈ l).

(** [l.find(p)]. *)
Definition find {A} (p : A -> bool) (l : list A) : option A := List.find p l.

(** [s.includes(t)]: [t] occurs in [s]. *)
Definition occursIn (t s : string) : Prop :=
  exists pre post, s = pre +:+ t +:+ post.

(** The union type ["planning" | "execution" | "reflection"] that
    ParallelExecutor.ts, ToolAllowlist.ts and CheckpointTagging.ts declare. *)
Inductive Phase : Type := planning | execution | reflection.

Definition phaseName (p : Phase) : string :=
  match p with
  | planning => "planning"
  | execution => "execution"
  | reflection => "reflection"
  end.

Lemma append_assoc (a b c : string) : (a +:+ b) +:+ c = a +:+ (b +:+ c).
Proof.
  induction a as [|x a IH]; [reflexivity|].
  change (String x ((a +:+ b) +:+ c) = String x (a +:+ (b +:+ c))).
  now rewrite IH.
Qed.

Lemma append_nil_r (s : string) : s +:+ "" = s.
Proof.
  induction s as [|x s IH]; [reflexivity|].
  change (String x (s +:+ "") = String x s). now rewrite IH.
Qed.

Lemma occursIn_refl (s : string) : occursIn s s.
Proof. exists "", "". now rewrite append_nil_r. Qed.

Lemma occursIn_suffix (pre s : string) : occursIn s (pre +:+ s).
Proof. exists pre, "". now rewrite append_nil_r. Qed.

(** Lengths, counted in characters as [s.length] counts them. *)
Lemma length_append (a b : string) :
  String.length (a +:+ b) = String.length a + String.length b.
Proof.
  induction a as [|x a IH]; [reflexivity|].
  change (S (String.length (a +:+ b)) = S (String.length a + String.length b)).
  now rewrite IH.
Qed.

Lemma length_substring0 (n : nat) (s : string) :
  String.length (substring0 n s) = Nat.min n (String.length s).
Proof.
  unfold substring0. revert n. induction s as [|x s IH]; intros [|n]; try reflexivity.
  simpl. now rewrite IH.
Qed.

Lemma substring0_append (a b : string) :
  substring0 (String.length a) (a +:+ b) = a.
Proof.
  unfold substring0. induction a as [|x a IH]; [now destruct b|].
  change (String x (String.substring 0 (String.length a) (a +:+ b)) = String x a).
  now rewrite IH.
Qed.

Lemma substring0_all (n : nat) (s : string) :
  String.length s <= n -> substring0 n s = s.
Proof.
  unfold substring0. revert n. induction s as [|x s IH]; intros [|n] Hn;
    simpl in *; try reflexivity; try lia.
  f_equal. apply IH. lia.
Qed.


(** [trim] gives a text that [trim] leaves alone. *)
Lemma trimEnd_idempotent (s : string) : trimEnd (trimEnd s) = trimEnd s.
Proof.
  induction s as [|c s IH]; [reflexivity|].
  simpl. destruct (trimEnd s) as [|x t] eqn:E.
  - destruct (isSpace c) eqn:Ec; [reflexivity|]. simpl. now rewrite Ec.
  - simpl. simpl in IH. rewrite IH. reflexivity.
Qed.

Lemma trimStart_head (s : string) :
  trimStart s = EmptyString \/
  exists c rest, trimStart s = String c rest /\ isSpace c = false.
Proof.
  induction s as [|c s IH]; [now left|].
  simpl. destruct (isSpace c) eqn:Ec; [exact IH|].
  right. now exists c, s.
Qed.

Lemma trimEnd_head (c : ascii) (rest : string) :
  isSpace c = false -> exists rest', trimEnd (String c rest) = String c rest'.
Proof.
  intros Hc. simpl. destruct (trimEnd rest) as [|x t].
  - rewrite Hc. now exists EmptyString.
  - now eexists.
Qed.

Lemma trim_idempotent (s : string) : trim (trim s) = trim s.
Proof.
  unfold trim. destruct (trimStart_head s) as [->|(c & rest & -> & Hc)]; [reflexivity|].
  destruct (trimEnd_head c rest Hc) as [rest' Hr].
  assert (Hs : trimStart (trimEnd (String c rest)) = trimEnd (String c rest)).
  { rewrite Hr. simpl. now rewrite Hc. }
  rewrite Hs. apply trimEnd_idempotent.
Qed.


End Js.

(* ===================================================================== *)
(** * ToolAllowlist.ts                                                    *)
(* ===================================================================== *)

Module ToolAllowlist.

Import Js.

Record ToolInvocationContext : Type := {
  ctx_agentId : string;
  ctx_phase : Phase;
  ctx_toolName : string
}.

Record AgentToolPolicy : Type := {
  pol_agentId : string;
  pol_allowedToolIds : option (list string)
}.

Record AllowlistDecision : Type := {
  allowed : bool;
  reason : option string
}.

(** The enforcer object: its only field is [policyMap]. *)
Record ToolAllowlistEnforcer : Type := {
  policyMap : gmap string AgentToolPolicy
}.

(** [new Map(policies.map((p) => [p.agentId, p]))]: a later entry replaces an
    earlier one with the same key. *)
Definition new_ToolAllowlistEnforcer (policies : list AgentToolPolicy)
  : ToolAllowlistEnforcer :=
  {| policyMap := foldl (fun m p => <[pol_agentId p := p]> m) ∅ policies |}.

Definition denialReason (toolName agentId : string) : string :=
  "Tool '" +:+ toolName +:+ "' not in allowlist for agent '" +:+ agentId +:+ "'.".

Definition check (e : ToolAllowlistEnforcer) (ctx : ToolInvocationContext)
  : AllowlistDecision :=
  match policyMap e !! ctx_agentId ctx with
  | None => {| allowed := true; reason := None |}
  | Some policy =>
      let list := default [] (pol_allowedToolIds policy) in
      if Nat.eqb (length list) 0 then {| allowed := true; reason := None |}
      else if Js.includes list (ctx_toolName ctx)
           then {| allowed := true; reason := None |}
           else {| allowed := false;
                   reason := Some (denialReason (ctx_toolName ctx) (ctx_agentId ctx)) |}
  end.

(** [enforce]: the throwing variant. *)
Definition enforce (e : ToolAllowlistEnforcer) (ctx : ToolInvocationContext)
  : Settled unit :=
  let decision := check e ctx in
  if allowed decision then Fulfilled tt
  else Rejected (Js.optOrElse (reason decision) "Tool invocation blocked by allowlist.").

Definition upsertPolicy (policy : AgentToolPolicy) (e : ToolAllowlistEnforcer)
  : ToolAllowlistEnforcer :=
  {| policyMap := <[pol_agentId policy := policy]> (policyMap e) |}.

Definition removePolicy (agentId : string) (e : ToolAllowlistEnforcer)
  : ToolAllowlistEnforcer :=
  {| policyMap := delete agentId (policyMap e) |}.

(** [buildPoliciesFromAgents], on the two fields of an agent it reads. *)
Definition buildPoliciesFromAgents (agents : list (string * option (list string)))
  : list AgentToolPolicy :=
  map (fun a =>
         {| pol_agentId := a.1;
            pol_allowedToolIds :=
              match a.2 with
              | Some (t :: ts) => Some (t :: ts)
              | _ => None
              end |}) agents.

(** ** Properties of [check] *)

Lemma denialReason_names_tool (toolName agentId : string) :
  Js.occursIn toolName (denialReason toolName agentId).
Proof.
  exists "Tool '", ("' not in allowlist for agent '" +:+ agentId +:+ "'.").
  reflexivity.
Qed.

Lemma denialReason_names_agent (toolName agentId : string) :
  Js.occursIn agentId (denialReason toolName agentId).
Proof.
  exists ("Tool '" +:+ toolName +:+ "' not in allowlist for agent '"), "'.".
  unfold denialReason. rewrite (append_assoc "Tool '"), (append_assoc toolName).
  reflexivity.
Qed.

(** C7.  [check] lets every tool through when the agent has no policy record
    or its [allowedToolIds] is absent or empty; with a non-empty list it
    allows exactly the tools named in the list, and a denial carries a reason
    that names both the tool and the agent. *)
Theorem check_allowlist_rule (e : ToolAllowlistEnforcer) (ctx : ToolInvocationContext) :
  (policyMap e !! ctx_agentId ctx = None -> allowed (check e ctx) = true) /\
  (forall p, policyMap e !! ctx_agentId ctx = Some p ->
     pol_allowedToolIds p = None \/ pol_allowedToolIds p = Some [] ->
     allowed (check e ctx) = true) /\
  (forall p l, policyMap e !! ctx_agentId ctx = Some p ->
     pol_allowedToolIds p = Some l -> l <> [] ->
     (allowed (check e ctx) = true <-> ctx_toolName ctx ∈ l) /\
     (allowed (check e ctx) = false ->
      exists r, reason (check e ctx) = Some r /\
                Js.occursIn (ctx_toolName ctx) r /\
                Js.occursIn (ctx_agentId ctx) r)).
Proof.
  unfold check. split; [|split].
  - intros ->. reflexivity.
  - intros p -> [-> | ->]; reflexivity.
  - intros p l -> -> Hl. simpl.
    destruct l as [|t l]; [congruence|]. simpl.
    unfold Js.includes. case_bool_decide as Hin; simpl.
    + split; [tauto | discriminate].
    + split; [split; [discriminate | tauto]|].
      intros _. eexists. split; [reflexivity|].
      split; [apply denialReason_names_tool | apply denialReason_names_agent].
Qed.

Definition sampleEnforcer : ToolAllowlistEnforcer :=
  new_ToolAllowlistEnforcer
    [ {| pol_agentId := "a"; pol_allowedToolIds := Some ["x"] |};
      {| pol_agentId := "b"; pol_allowedToolIds := Some [] |} ].

Definition sampleCall (agent tool : string) : ToolInvocationContext :=
  {| ctx_agentId := agent; ctx_phase := execution; ctx_toolName := tool |}.

(** The rule at work on the enforcer of the specification's example:
    agent ["a"] may use ["x"] only, ["b"] has an empty list and ["c"] no
    record. *)
Lemma check_allowlist_rule_witness :
  allowed (check sampleEnforcer (sampleCall "c" "y")) = true /\
  allowed (check sampleEnforcer (sampleCall "b" "y")) = true /\
  (allowed (check sampleEnforcer (sampleCall "a" "x")) = true <-> "x" ∈ ["x"]) /\
  (exists r, reason (check sampleEnforcer (sampleCall "a" "y")) = Some r /\
             Js.occursIn "y" r /\ Js.occursIn "a" r).
Proof.
  split; [|split; [|split]].
  - apply (proj1 (check_allowlist_rule sampleEnforcer (sampleCall "c" "y"))).
    vm_compute. reflexivity.
  - apply (proj1 (proj2 (check_allowlist_rule sampleEnforcer (sampleCall "b" "y")))
             {| pol_agentId := "b"; pol_allowedToolIds := Some [] |}).
    + vm_compute. reflexivity.
    + right. reflexivity.
  - apply (proj2 (proj2 (check_allowlist_rule sampleEnforcer (sampleCall "a" "x")))
             {| pol_agentId := "a"; pol_allowedToolIds := Some ["x"] |} ["x"]).
    + vm_compute. reflexivity.
    + reflexivity.
    + discriminate.
  - apply (proj2 (proj2 (check_allowlist_rule sampleEnforcer (sampleCall "a" "y")))
             {| pol_agentId := "a"; pol_allowedToolIds := Some ["x"] |} ["x"]).
    + vm_compute. reflexivity.
    + reflexivity.
    + discriminate.
    + vm_compute. reflexivity.
Defined.

(** ** The policy map: construction, updates and the throwing variants *)

(** [withToolAllowlist]: enforce, then run the tool.  The tool call is a
    computation over the caller's world. *)
Definition withToolAllowlist {W T} (enforcer : ToolAllowlistEnforcer)
  (ctx : ToolInvocationContext) (fn : M W T) : M W T :=
  match enforce enforcer ctx with
  | Rejected e => throw e
  | Fulfilled _ => fn
  end.

Lemma policies_lookup (policies : list AgentToolPolicy) (m : gmap string AgentToolPolicy)
  (agentId : string) :
  foldl (fun m p => <[pol_agentId p := p]> m) m policies !! agentId
  = match last (List.filter (fun p => String.eqb (pol_agentId p) agentId) policies) with
    | Some p => Some p
    | None => m !! agentId
    end.
Proof.
  revert m. induction policies as [|p policies IH]; intros m; [reflexivity|].
  simpl. rewrite IH.
  destruct (String.eqb_spec (pol_agentId p) agentId) as [Heq|Hne].
  - destruct (List.filter _ policies) as [|q qs] eqn:E.
    + simpl. rewrite Heq. apply lookup_insert_eq.
    + change (last (p :: q :: qs)) with (last (q :: qs)).
      destruct (last (q :: qs)) as [r|] eqn:El; [reflexivity|].
      apply last_None in El. discriminate.
  - destruct (last _) as [r|]; [reflexivity|].
    rewrite lookup_insert_ne by exact Hne. reflexivity.
Qed.

Lemma constructor_lookup (policies : list AgentToolPolicy) (agentId : string) :
  policyMap (new_ToolAllowlistEnforcer policies) !! agentId
  = last (List.filter (fun p => String.eqb (pol_agentId p) agentId) policies).
Proof.
  unfold new_ToolAllowlistEnforcer. simpl. rewrite policies_lookup.
  destruct (last _); [reflexivity | apply lookup_empty].
Qed.

(** X1.  The constructor keys the policies by agent id as a [Map]
    does: the policy in force for an agent is the last one in the list that
    names it, and an agent that no policy names has none (and so may use
    every tool). *)
Theorem constructor_keeps_the_last_policy (policies : list AgentToolPolicy)
  (agentId : string) :
  policyMap (new_ToolAllowlistEnforcer policies) !! agentId
  = last (List.filter (fun p => String.eqb (pol_agentId p) agentId) policies) /\
  (agentId ∉ map pol_agentId policies ->
   forall phase tool,
     check (new_ToolAllowlistEnforcer policies)
       {| ctx_agentId := agentId; ctx_phase := phase; ctx_toolName := tool |}
     = {| allowed := true; reason := None |}).
Proof.
  pose proof (constructor_lookup policies agentId) as Hlook.
  split; [exact Hlook|].
  intros Hnot phase tool. unfold check. cbn [ctx_agentId ctx_toolName]. rewrite Hlook.
  replace (List.filter (fun p => String.eqb (pol_agentId p) agentId) policies) with
    (@nil AgentToolPolicy); [reflexivity|].
  symmetry. clear Hlook. induction policies as [|p policies IH]; [reflexivity|].
  simpl in *. rewrite not_elem_of_cons in Hnot. destruct Hnot as [Hne Hnot].
  destruct (String.eqb_spec (pol_agentId p) agentId) as [Heq|_]; [congruence|].
  now apply IH.
Qed.

Lemma constructor_keeps_the_last_policy_witness :
  check (new_ToolAllowlistEnforcer
           [ {| pol_agentId := "a"; pol_allowedToolIds := Some ["x"] |} ])
    {| ctx_agentId := "b"; ctx_phase := planning; ctx_toolName := "y" |}
  = {| allowed := true; reason := None |}.
Proof.
  apply (proj2 (constructor_keeps_the_last_policy
                  [ {| pol_agentId := "a"; pol_allowedToolIds := Some ["x"] |} ] "b")).
  vm_compute. intros H. inversion H as [|? ? ? H1]; subst. inversion H1.
Defined.

Lemma check_reads_one_policy (e e' : ToolAllowlistEnforcer) (ctx : ToolInvocationContext) :
  policyMap e !! ctx_agentId ctx = policyMap e' !! ctx_agentId ctx ->
  check e ctx = check e' ctx.
Proof. unfold check. now intros ->. Qed.

(** X2.  Runtime updates are local to one agent.  After
    [upsertPolicy(p)] the agent of [p] is judged by [p] alone; after
    [removePolicy(a)] agent [a] has no policy any more and is allowed every
    tool; in both cases the decisions for every other agent are what they
    were; and removing what was just upserted gives the enforcer that
    removing alone gives. *)
Theorem policy_updates_are_local (e : ToolAllowlistEnforcer) (p : AgentToolPolicy)
  (a : string) (ctx : ToolInvocationContext) :
  (ctx_agentId ctx = pol_agentId p ->
   check (upsertPolicy p e) ctx = check (new_ToolAllowlistEnforcer [p]) ctx) /\
  (ctx_agentId ctx <> pol_agentId p -> check (upsertPolicy p e) ctx = check e ctx) /\
  (ctx_agentId ctx = a ->
   check (removePolicy a e) ctx = {| allowed := true; reason := None |}) /\
  (ctx_agentId ctx <> a -> check (removePolicy a e) ctx = check e ctx) /\
  removePolicy (pol_agentId p) (upsertPolicy p e) = removePolicy (pol_agentId p) e.
Proof.
  split; [|split; [|split; [|split]]].
  - intros Hctx. apply check_reads_one_policy. simpl. rewrite Hctx.
    now rewrite !lookup_insert_eq.
  - intros Hctx. apply check_reads_one_policy. simpl.
    now rewrite lookup_insert_ne by congruence.
  - intros Hctx. unfold check. simpl. rewrite Hctx.
    now rewrite lookup_delete_eq.
  - intros Hctx. apply check_reads_one_policy. simpl.
    now rewrite lookup_delete_ne by congruence.
  - unfold removePolicy, upsertPolicy. simpl. f_equal. apply delete_insert_eq.
Qed.

Lemma policy_updates_are_local_witness :
  check (removePolicy "a" sampleEnforcer) (sampleCall "a" "y")
  = {| allowed := true; reason := None |} /\
  check (upsertPolicy {| pol_agentId := "c"; pol_allowedToolIds := Some ["z"] |}
           sampleEnforcer) (sampleCall "a" "y")
  = check sampleEnforcer (sampleCall "a" "y").
Proof.
  split.
  - apply (proj1 (proj2 (proj2 (policy_updates_are_local sampleEnforcer
                                  {| pol_agentId := "c"; pol_allowedToolIds := None |}
                                  "a" (sampleCall "a" "y"))))).
    reflexivity.
  - apply (proj1 (proj2 (policy_updates_are_local sampleEnforcer
                           {| pol_agentId := "c"; pol_allowedToolIds := Some ["z"] |}
                           "a" (sampleCall "a" "y")))).
    discriminate.
Defined.

Lemma check_denial (e : ToolAllowlistEnforcer) (ctx : ToolInvocationContext) :
  allowed (check e ctx) = false ->
  reason (check e ctx) = Some (denialReason (ctx_toolName ctx) (ctx_agentId ctx)).
Proof.
  unfold check. destruct (policyMap e !! ctx_agentId ctx) as [policy|]; [|discriminate].
  destruct (Nat.eqb _ 0); [discriminate|].
  destruct (Js.includes _ _); [discriminate | reflexivity].
Qed.

(** X3.  [enforce] throws exactly when [check] denies, and what it
    throws is the reason of the denial, which names the tool and the agent;
    the generic message kept as a fallback is never the one thrown.
    [withToolAllowlist] therefore runs the tool exactly when [check] allows
    it: on a denial the tool is not started and the world is left as it
    was. *)
Theorem enforce_throws_the_denial {W T} (e : ToolAllowlistEnforcer)
  (ctx : ToolInvocationContext) (fn : M W T) (w : W) :
  (allowed (check e ctx) = true ->
   enforce e ctx = Fulfilled tt /\ withToolAllowlist e ctx fn w = fn w) /\
  (allowed (check e ctx) = false ->
   enforce e ctx = Rejected (denialReason (ctx_toolName ctx) (ctx_agentId ctx)) /\
   withToolAllowlist e ctx fn w
   = Some (Rejected (denialReason (ctx_toolName ctx) (ctx_agentId ctx)), w)).
Proof.
  split; intros Hc.
  - assert (He : enforce e ctx = Fulfilled tt) by (unfold enforce; now rewrite Hc).
    split; [exact He|]. unfold withToolAllowlist. now rewrite He.
  - assert (He : enforce e ctx
                 = Rejected (denialReason (ctx_toolName ctx) (ctx_agentId ctx))).
    { unfold enforce. rewrite Hc, (check_denial e ctx Hc). reflexivity. }
    split; [exact He|]. unfold withToolAllowlist. now rewrite He.
Qed.

Lemma enforce_throws_the_denial_witness :
  withToolAllowlist sampleEnforcer (sampleCall "a" "y")
    (fun log : list string => Some (Fulfilled tt, log ++ ["ran y"])) []
  = Some (Rejected "Tool 'y' not in allowlist for agent 'a'.", []).
Proof.
  apply (proj2 (proj2 (enforce_throws_the_denial sampleEnforcer (sampleCall "a" "y")
                         (fun log : list string => Some (Fulfilled tt, log ++ ["ran y"]))
                         []) ltac:(vm_compute; reflexivity))).
Defined.

Lemma buildPolicies_filter (agents : list (string * option (list string))) (id : string) :
  List.filter (fun p => String.eqb (pol_agentId p) id) (buildPoliciesFromAgents agents)
  = buildPoliciesFromAgents (List.filter (fun a => String.eqb a.1 id) agents).
Proof.
  induction agents as [|a agents IH]; [reflexivity|].
  simpl. destruct (String.eqb a.1 id); simpl; now rewrite IH.
Qed.

Lemma filter_unique {A} (f : A -> string) (l : list A) (x : A) :
  NoDup (map f l) -> x ∈ l ->
  List.filter (fun a => String.eqb (f a) (f x)) l = [x].
Proof.
  induction l as [|a l IH]; intros Hnd Hx; [inversion Hx|].
  simpl in Hnd. apply NoDup_cons in Hnd as [Ha Hnd].
  apply elem_of_cons in Hx as [->|Hx].
  - simpl. rewrite String.eqb_refl. f_equal.
    clear IH Hnd. induction l as [|b l IH]; [reflexivity|].
    simpl in *. rewrite not_elem_of_cons in Ha. destruct Ha as [Hne Ha].
    destruct (String.eqb_spec (f b) (f a)) as [Heq|_]; [congruence | now apply IH].
  - simpl. destruct (String.eqb_spec (f a) (f x)) as [Heq|_]; [|now apply IH].
    exfalso. apply Ha. rewrite Heq. apply list_elem_of_fmap. now exists x.
Qed.

(** X4.  The enforcer that the orchestrator builds from a roster with
    distinct agent ids allows an agent of the roster every tool when its
    [allowedToolIds] is absent or empty, and otherwise exactly the tools its
    list names. *)
Theorem roster_policies_decide (agents : list (string * option (list string)))
  (id : string) (tools : option (list string)) (phase : Phase) (tool : string) :
  NoDup (map fst agents) ->
  (id, tools) ∈ agents ->
  allowed (check (new_ToolAllowlistEnforcer (buildPoliciesFromAgents agents))
             {| ctx_agentId := id; ctx_phase := phase; ctx_toolName := tool |}) = true
  <-> default [] tools = [] \/ tool ∈ default [] tools.
Proof.
  intros Hnd Hin. unfold check. cbn [ctx_agentId ctx_toolName].
  rewrite (constructor_lookup (buildPoliciesFromAgents agents) id).
  rewrite buildPolicies_filter.
  pose proof (filter_unique fst agents (id, tools) Hnd Hin) as Hf. simpl in Hf.
  rewrite Hf. simpl.
  destruct tools as [[|t ts]|]; simpl.
  - split; [now left | reflexivity].
  - unfold Js.includes. case_bool_decide as Ht; simpl.
    + split; [now right | reflexivity].
    + split; [discriminate|]. intros [H|H]; [discriminate | contradiction].
  - split; [now left | reflexivity].
Qed.

Lemma roster_policies_decide_witness :
  allowed (check (new_ToolAllowlistEnforcer
                    (buildPoliciesFromAgents [("a", Some ["x"]); ("b", None)]))
             {| ctx_agentId := "b"; ctx_phase := execution; ctx_toolName := "y" |}) = true.
Proof.
  apply (roster_policies_decide [("a", Some ["x"]); ("b", None)] "b" None execution "y").
  - apply NoDup_ListNoDup. simpl. repeat constructor; simpl; intuition discriminate.
  - apply elem_of_cons. right. apply elem_of_cons. now left.
  - now left.
Defined.

End ToolAllowlist.

(* ===================================================================== *)
(** * ShortTermMemory.ts                                                 *)
(* ===================================================================== *)

Module ShortTermMemory.

Inductive MemoryEntryType : Type := thought | observation.

Global Instance MemoryEntryType_eq_dec : EqDecision MemoryEntryType.
Proof. solve_decision. Defined.

(** A ledger entry; the generated [id] and the [ts] reading are left out. *)
Inductive MemoryEntry : Type :=
| ThoughtEntry (content : string) (agentId phase : option string)
| ObservationEntry (content : string) (agentId toolId : option string)
    (success : option bool) (dataSnippet errorType : option string).

Global Instance MemoryEntry_eq_dec : EqDecision MemoryEntry.
Proof. solve_decision. Defined.

Definition entryType (e : MemoryEntry) : MemoryEntryType :=
  match e with
  | ThoughtEntry _ _ _ => thought
  | ObservationEntry _ _ _ _ _ _ => observation
  end.

Definition entryContent (e : MemoryEntry) : string :=
  match e with
  | ThoughtEntry c _ _ => c
  | ObservationEntry c _ _ _ _ _ => c
  end.

Record ShortTermMemory : Type := {
  entries : list MemoryEntry;
  maxEntries : nat
}.

(** [new ShortTermMemory()]: the capacity defaults to 200. *)
Definition new_ShortTermMemory : ShortTermMemory :=
  {| entries := []; maxEntries := 200 |}.

(** [pushEntry]: append, then drop the oldest entries beyond the capacity
    ([splice(0, length - maxEntries)]). *)
Definition pushEntry (entry : MemoryEntry) (m : ShortTermMemory) : ShortTermMemory :=
  let es := entries m ++ [entry] in
  {| entries := if Nat.ltb (maxEntries m) (length es)
                then drop (length es - maxEntries m) es
                else es;
     maxEntries := maxEntries m |}.

Definition appendThought (content : string) (m : ShortTermMemory) : ShortTermMemory :=
  pushEntry (ThoughtEntry content None None) m.

(** [appendObservation({ content, success })], the only shape the orchestrator
    uses. *)
Definition appendObservation (content : string) (success : option bool)
  (m : ShortTermMemory) : ShortTermMemory :=
  pushEntry (ObservationEntry content None None success None None) m.

(** [snapshot()] without options: a copy of all entries. *)
Definition snapshot (m : ShortTermMemory) : list MemoryEntry := entries m.

Definition size (m : ShortTermMemory) : nat := length (entries m).

Definition clear (m : ShortTermMemory) : ShortTermMemory :=
  {| entries := []; maxEntries := maxEntries m |}.

(** ** The ledger keeps its most recent entries *)

Definition pushAll (es : list MemoryEntry) (m : ShortTermMemory) : ShortTermMemory :=
  foldl (fun m e => pushEntry e m) m es.

(** [e] is in the ledger with fewer than [q] entries after it. *)
Definition recent (q : nat) (e : MemoryEntry) (m : ShortTermMemory) : Prop :=
  exists pre post, entries m = pre ++ e :: post /\ length post < q.

Lemma pushEntry_maxEntries (e : MemoryEntry) (m : ShortTermMemory) :
  maxEntries (pushEntry e m) = maxEntries m.
Proof. reflexivity. Qed.

Lemma pushAll_maxEntries (es : list MemoryEntry) (m : ShortTermMemory) :
  maxEntries (pushAll es m) = maxEntries m.
Proof.
  revert m. induction es as [|e es IH]; intros m; [reflexivity|].
  unfold pushAll in *. simpl. now rewrite IH.
Qed.

Lemma pushAll_app (es es' : list MemoryEntry) (m : ShortTermMemory) :
  pushAll (es ++ es') m = pushAll es' (pushAll es m).
Proof. unfold pushAll. apply foldl_app. Qed.

Lemma recent_elem (q : nat) (e : MemoryEntry) (m : ShortTermMemory) :
  recent q e m -> e ∈ entries m.
Proof.
  intros (pre & post & -> & _). apply elem_of_app. right. left.
Qed.

Lemma pushEntry_recent_new (e : MemoryEntry) (m : ShortTermMemory) :
  1 <= maxEntries m -> recent 1 e (pushEntry e m).
Proof.
  intros Hmax. unfold recent, pushEntry. simpl.
  destruct (Nat.ltb_spec (maxEntries m) (length (entries m ++ [e]))) as [Hlt|Hge].
  - exists (drop (length (entries m ++ [e]) - maxEntries m) (entries m)), [].
    split; [|simpl; lia].
    rewrite length_app in *. simpl in *.
    apply drop_app_le. lia.
  - exists (entries m), []. split; [reflexivity | simpl; lia].
Qed.

Lemma pushEntry_recent_old (q : nat) (e x : MemoryEntry) (m : ShortTermMemory) :
  recent q e m -> q + 1 <= maxEntries m -> recent (q + 1) e (pushEntry x m).
Proof.
  intros (pre & post & Hm & Hq) Hmax. unfold recent, pushEntry. simpl.
  rewrite Hm.
  replace ((pre ++ e :: post) ++ [x]) with (pre ++ e :: (post ++ [x]))
    by now rewrite <- app_assoc.
  destruct (Nat.ltb_spec (maxEntries m) (length (pre ++ e :: (post ++ [x])))) as [Hlt|Hge].
  - exists (drop (length (pre ++ e :: (post ++ [x])) - maxEntries m) pre), (post ++ [x]).
    split.
    + apply drop_app_le. rewrite !length_app in *. simpl in *. rewrite length_app. simpl. lia.
    + rewrite length_app. simpl. lia.
  - exists pre, (post ++ [x]). split; [reflexivity|]. rewrite length_app. simpl. lia.
Qed.

Lemma pushAll_recent (es : list MemoryEntry) :
  forall (q : nat) (e : MemoryEntry) (m : ShortTermMemory),
    recent q e m -> q + length es <= maxEntries m ->
    recent (q + length es) e (pushAll es m).
Proof.
  induction es as [|x es IH]; intros q e m Hr Hmax.
  - simpl. now rewrite Nat.add_0_r.
  - simpl in *. unfold pushAll. simpl.
    replace (q + S (length es)) with ((q + 1) + length es) by lia.
    apply IH.
    + apply pushEntry_recent_old; [exact Hr | lia].
    + rewrite pushEntry_maxEntries. lia.
Qed.

Lemma recent_le (q q' : nat) (e : MemoryEntry) (m : ShortTermMemory) :
  q <= q' -> recent q e m -> recent q' e m.
Proof. intros Hle (pre & post & Hm & Hq). exists pre, post. split; [exact Hm | lia]. Qed.

(** The capacity of 200 at work: after 199 further entries the first one is
    still there, after 200 it is gone. *)
Example ledger_drops_the_oldest :
  let first := ThoughtEntry "first" None None in
  let filler := replicate 199 (ThoughtEntry "later" None None) in
  bool_decide (first ∈ entries (pushAll filler (pushEntry first new_ShortTermMemory))) = true /\
  bool_decide (first ∈ entries (pushAll (filler ++ [ThoughtEntry "last" None None])
                                 (pushEntry first new_ShortTermMemory))) = false.
Proof. vm_compute. split; reflexivity. Qed.

(** ** The ledger as a ring, and snapshots with options *)

(** [MemorySnapshotOptions]; [lastN] is an integer. *)
Record MemorySnapshotOptions : Type := {
  lastN : option Z;
  types : option (list MemoryEntryType)
}.

(** [snapshot(opts)]: the entries of the listed types when the list is
    present and not empty, and of these the last [lastN] when [lastN] is
    present, positive and smaller than their number. *)
Definition snapshotWith (opts : MemorySnapshotOptions) (m : ShortTermMemory)
  : list MemoryEntry :=
  let filtered :=
    match types opts with
    | Some (t :: ts) =>
        List.filter (fun e => bool_decide (entryType e ∈ t :: ts)) (entries m)
    | _ => entries m
    end in
  match lastN opts with
  | Some n =>
      if Z.ltb 0 n && Z.ltb n (Z.of_nat (length filtered))
      then drop (length filtered - Z.to_nat n) filtered
      else filtered
  | None => filtered
  end.

Lemma pushEntry_entries (e : MemoryEntry) (m : ShortTermMemory) :
  entries (pushEntry e m)
  = drop (length (entries m ++ [e]) - maxEntries m) (entries m ++ [e]).
Proof.
  unfold pushEntry. simpl.
  destruct (Nat.ltb_spec (maxEntries m) (length (entries m ++ [e]))) as [Hlt|Hge];
    [reflexivity|].
  replace (length (entries m ++ [e]) - maxEntries m) with 0 by lia. reflexivity.
Qed.

Lemma pushEntry_size (e : MemoryEntry) (m : ShortTermMemory) :
  size (pushEntry e m) <= maxEntries m.
Proof.
  unfold size. rewrite pushEntry_entries, length_drop. lia.
Qed.

Lemma pushAll_ring (es : list MemoryEntry) :
  forall m : ShortTermMemory,
    size m <= maxEntries m ->
    entries (pushAll es m)
    = drop (length (entries m ++ es) - maxEntries m) (entries m ++ es) /\
    size (pushAll es m) <= maxEntries m.
Proof.
  induction es as [|e es IH]; intros m Hm.
  - unfold size in *. simpl. rewrite app_nil_r.
    replace (length (entries m) - maxEntries m) with 0 by lia. split; [reflexivity | exact Hm].
  - change (pushAll (e :: es) m) with (pushAll es (pushEntry e m)).
    destruct (IH (pushEntry e m) (pushEntry_size e m)) as [Hent Hsize].
    rewrite pushEntry_maxEntries in Hent, Hsize. split; [|exact Hsize].
    rewrite Hent, pushEntry_entries.
    set (l := entries m ++ [e]).
    set (b := length l - maxEntries m).
    assert (Hb : b <= length l) by (unfold b; lia).
    rewrite <- (drop_app_le l es b Hb), drop_drop.
    replace (entries m ++ e :: es) with (l ++ es)
      by (unfold l; now rewrite <- app_assoc).
    f_equal. rewrite !length_app, length_drop.
    unfold size in Hm. unfold b. unfold l. rewrite !length_app. simpl. lia.
Qed.

(** X5.  The ledger is a ring of [maxEntries] entries: after any
    sequence of appends to a ledger within its capacity, it holds exactly the
    last [maxEntries] of everything appended so far, oldest first, and its
    size never exceeds the capacity. *)
Theorem ledger_holds_the_latest (es : list MemoryEntry) (m : ShortTermMemory) :
  size m <= maxEntries m ->
  snapshot (pushAll es m)
  = drop (length (entries m ++ es) - maxEntries m) (entries m ++ es) /\
  size (pushAll es m) = Nat.min (maxEntries m) (size m + length es).
Proof.
  intros Hm. destruct (pushAll_ring es m Hm) as [Hent Hsize].
  split; [exact Hent|].
  unfold size in *. rewrite Hent, length_drop, length_app. lia.
Qed.

Lemma ledger_holds_the_latest_witness :
  snapshot (pushAll [ThoughtEntry "b" None None; ThoughtEntry "c" None None]
              {| entries := [ThoughtEntry "a" None None]; maxEntries := 2 |})
  = [ThoughtEntry "b" None None; ThoughtEntry "c" None None].
Proof.
  apply (proj1 (ledger_holds_the_latest
                  [ThoughtEntry "b" None None; ThoughtEntry "c" None None]
                  {| entries := [ThoughtEntry "a" None None]; maxEntries := 2 |}
                  ltac:(vm_compute; lia))).
Defined.

Definition typeFilter (ts : list MemoryEntryType) (l : list MemoryEntry) : list MemoryEntry :=
  List.filter (fun e => bool_decide (entryType e ∈ ts)) l.

(** X6.  [snapshot(opts)] never invents or reorders entries: it
    returns a suffix of the ledger filtered by type.  An absent or empty
    [types] list filters nothing, and an absent, zero or negative [lastN]
    limits nothing; with [lastN = n > 0] the result has [min n k] entries,
    [k] being the number of entries of the requested types. *)
Theorem snapshotWith_is_a_filtered_suffix (opts : MemorySnapshotOptions)
  (m : ShortTermMemory) :
  let filtered :=
    match types opts with
    | Some ts => if bool_decide (ts = []) then entries m else typeFilter ts (entries m)
    | None => entries m
    end in
  snapshotWith opts m `suffix_of` filtered /\
  snapshotWith opts m `sublist_of` entries m /\
  length (snapshotWith opts m)
  = match lastN opts with
    | Some n => if Z.ltb 0 n then Nat.min (Z.to_nat n) (length filtered) else length filtered
    | None => length filtered
    end.
Proof.
  intros filtered.
  assert (Hrun : snapshotWith opts m =
                 match lastN opts with
                 | Some n =>
                     if Z.ltb 0 n && Z.ltb n (Z.of_nat (length filtered))
                     then drop (length filtered - Z.to_nat n) filtered
                     else filtered
                 | None => filtered
                 end).
  { unfold snapshotWith, filtered. destruct (types opts) as [[|t ts]|]; reflexivity. }
  assert (Hsub : filtered `sublist_of` entries m).
  { unfold filtered. destruct (types opts) as [ts|]; [|reflexivity].
    case_bool_decide; [reflexivity|].
    unfold typeFilter. clear. induction (entries m) as [|e l IH]; [constructor|].
    simpl. destruct (bool_decide _); [now constructor | now apply sublist_cons]. }
  rewrite Hrun. clear Hrun.
  destruct (lastN opts) as [n|].
  - destruct (Z.ltb_spec 0 n) as [Hpos|Hneg]; simpl.
    + destruct (Z.ltb_spec n (Z.of_nat (length filtered))) as [Hlt|Hge].
      * split; [apply suffix_drop|]. split.
        -- etransitivity; [apply sublist_drop | exact Hsub].
        -- rewrite length_drop. lia.
      * split; [reflexivity|]. split; [exact Hsub | lia].
    + split; [reflexivity|]. split; [exact Hsub | reflexivity].
  - split; [reflexivity|]. split; [exact Hsub | reflexivity].
Qed.

End ShortTermMemory.

(* ===================================================================== *)
(** * StructuredDecision.ts                                              *)
(* ===================================================================== *)

Module StructuredDecision.

Import Js.

(** What [JSON.parse] returns.  Numbers are the integers; an object lists its
    members with distinct keys. *)
Inductive JsonValue : Type :=
| JNull
| JBool (b : bool)
| JNum (z : Z)
| JStr (s : string)
| JArr (items : list JsonValue)
| JObj (members : list (string * JsonValue)).

Fixpoint lookupMember (key : string) (members : list (string * JsonValue))
  : option JsonValue :=
  match members with
  | [] => None
  | (k, v) :: rest => if String.eqb k key then Some v else lookupMember key rest
  end.

(** [parsed[key]] for the keys the validators read: reading a member of
    [null] throws a TypeError, a value that is not an object has none of
    these members. *)
Definition getMember (parsed : JsonValue) (key : string) : Settled (option JsonValue) :=
  match parsed with
  | JNull => Rejected ("Cannot read properties of null (reading '" +:+ key +:+ "')")
  | JObj members => Fulfilled (lookupMember key members)
  | _ => Fulfilled None
  end.

(** [v === undefined || v === null]. *)
Definition isNullish (v : option JsonValue) : bool :=
  match v with
  | None | Some JNull => true
  | _ => false
  end.

Inductive RouteStrategy : Type := plan_then_parallel | direct_execution.

Definition strategyName (s : RouteStrategy) : string :=
  match s with
  | plan_then_parallel => "plan_then_parallel"
  | direct_execution => "direct_execution"
  end.

Record RouteDecision : Type := {
  strategy : RouteStrategy;
  rationale : string
}.

Definition ROUTE_REQUIRED_KEYS : list string := ["strategy"; "rationale"].
Definition ROUTE_ALLOWED_STRATEGIES : list RouteStrategy :=
  [plan_then_parallel; direct_execution].

(** [ROUTE_ALLOWED_STRATEGIES.includes(strat)], returning the strategy. *)
Definition allowedStrategy (strat : string) : option RouteStrategy :=
  List.find (fun s => String.eqb (strategyName s) strat) ROUTE_ALLOWED_STRATEGIES.

(** The balance scan of [extractFirstJsonObject], from a position at or after
    the first opening brace: the text up to the brace that brings [depth]
    back to zero. *)
Fixpoint scanBalanced (depth : Z) (s : string) : option string :=
  match s with
  | EmptyString => None
  | String ch rest =>
      if Ascii.eqb ch "{"%char then
        option_map (String ch) (scanBalanced (depth + 1) rest)
      else if Ascii.eqb ch "}"%char then
        if Z.eqb (depth - 1) 0 then Some (String ch EmptyString)
        else option_map (String ch) (scanBalanced (depth - 1) rest)
      else option_map (String ch) (scanBalanced depth rest)
  end.

(** [raw.indexOf("{")], as the suffix that starts there. *)
Fixpoint fromFirstBrace (raw : string) : option string :=
  match raw with
  | EmptyString => None
  | String ch rest =>
      if Ascii.eqb ch "{"%char then Some raw else fromFirstBrace rest
  end.

Definition extractFirstJsonObject (raw : string) : option string :=
  match fromFirstBrace raw with
  | None => None
  | Some s => scanBalanced 0 s
  end.

Definition buildRepairInstruction (errorMessage : string) : string :=
  join newline
    [ "Your previous response could not be parsed as valid JSON for the required decision schema.";
      "Error: " +:+ errorMessage;
      "Return ONLY a JSON object matching the required keys. No commentary. No markdown fencing." ].

Record RouteDecisionContext : Type := {
  rdc_goal : string;
  rdc_crewName : option string;
  rdc_agentSummaries : option (list (string * string));
  rdc_recentNotes : option string
}.

Definition dq : string := String (Ascii.ascii_of_nat 34) EmptyString.

(** [lines.filter(Boolean)]: empty lines are dropped. *)
Definition filterBoolean (lines : list string) : list string :=
  List.filter truthy lines.

Definition buildRouteDecisionPrompt (ctx : RouteDecisionContext) : string :=
  let agentLines :=
    orElse
      (match rdc_agentSummaries ctx with
       | Some l => join newline (map (fun a => "- " +:+ a.1 +:+ ": " +:+ a.2) l)
       | None => ""
       end)
      "(no agent summaries)" in
  join newline (filterBoolean
    [ "You must decide the initial execution strategy for the crew.";
      "";
      "Return ONLY valid JSON with keys: strategy, rationale.";
      "Valid strategies:";
      "  - " +:+ dq +:+ "plan_then_parallel" +:+ dq +:+
        ": produce a multi-step plan first, then execute worker agents (possibly in parallel).";
      "  - " +:+ dq +:+ "direct_execution" +:+ dq +:+
        ": skip explicit multi-step plan; let agents act sequentially / opportunistically.";
      "";
      "Context:";
      "Goal: " +:+ rdc_goal ctx;
      "Crew: " +:+ optOrElse (rdc_crewName ctx) "unknown";
      "Agents:";
      agentLines;
      match rdc_recentNotes ctx with
      | Some n => if truthy n then "Recent Notes: " +:+ n else ""
      | None => ""
      end;
      "";
      "Example JSON (do not include comments): {" +:+ dq +:+ "strategy" +:+ dq +:+ ":"
        +:+ dq +:+ "plan_then_parallel" +:+ dq +:+ "," +:+ dq +:+ "rationale" +:+ dq +:+ ":"
        +:+ dq +:+ "Need decomposition across backend/frontend/db." +:+ dq +:+ "}" ]).

Section Parsing.

(** [JSON.parse] belongs to the runtime: it fulfils with the parsed value or
    throws a SyntaxError with the engine's message. *)
Variable JSON_parse : string -> Settled JsonValue.

(** The first half of [parseRouteDecision]: direct parse, then the extracted
    object. *)
Definition parseCandidate (candidate : string) : Settled JsonValue :=
  match JSON_parse candidate with
  | Fulfilled parsed => Fulfilled parsed
  | Rejected _ =>
      match extractFirstJsonObject candidate with
      | None => Rejected "RouteDecision parse error: no JSON object found."
      | Some extracted =>
          match JSON_parse extracted with
          | Fulfilled parsed => Fulfilled parsed
          | Rejected _ => Rejected "RouteDecision parse error: invalid JSON structure."
          end
      end
  end.

(** The loop over [ROUTE_REQUIRED_KEYS]. *)
Fixpoint requireKeys (what : string) (parsed : JsonValue) (keys : list string)
  : Settled unit :=
  match keys with
  | [] => Fulfilled tt
  | key :: rest =>
      match getMember parsed key with
      | Rejected e => Rejected e
      | Fulfilled v =>
          if isNullish v
          then Rejected (what +:+ " validation error: missing key '" +:+ key +:+ "'.")
          else requireKeys what parsed rest
      end
  end.

Definition parseRouteDecision (raw : string) : Settled RouteDecision :=
  let candidate := trim raw in
  match parseCandidate candidate with
  | Rejected e => Rejected e
  | Fulfilled parsed =>
      match requireKeys "RouteDecision" parsed ROUTE_REQUIRED_KEYS with
      | Rejected e => Rejected e
      | Fulfilled _ =>
          match getMember parsed "strategy" with
          | Fulfilled (Some (JStr strategyText)) =>
              match allowedStrategy (trim strategyText) with
              | None =>
                  Rejected ("RouteDecision validation error: 'strategy' must be one of "
                            +:+ join ", " (map strategyName ROUTE_ALLOWED_STRATEGIES) +:+ ".")
              | Some strat =>
                  match getMember parsed "rationale" with
                  | Fulfilled (Some (JStr rationaleText)) =>
                      if truthy (trim rationaleText)
                      then Fulfilled {| strategy := strat; rationale := trim rationaleText |}
                      else Rejected "RouteDecision validation error: 'rationale' must be a non-empty string."
                  | Fulfilled _ =>
                      Rejected "RouteDecision validation error: 'rationale' must be a non-empty string."
                  | Rejected e => Rejected e
                  end
              end
          | Fulfilled _ => Rejected "RouteDecision validation error: 'strategy' must be a string."
          | Rejected e => Rejected e
          end
      end
  end.

End Parsing.

(** ** Properties of the extraction and of [parseRouteDecision] *)

(** Opening minus closing braces. *)
Fixpoint braceDepth (s : string) : Z :=
  match s with
  | EmptyString => 0
  | String ch rest =>
      ((if Ascii.eqb ch "{"%char then 1
        else if Ascii.eqb ch "}"%char then -1 else 0) + braceDepth rest)%Z
  end.

Fixpoint hasOpeningBrace (s : string) : bool :=
  match s with
  | EmptyString => false
  | String ch rest => Ascii.eqb ch "{"%char || hasOpeningBrace rest
  end.

Lemma append_cons_split (p q : string) (c : ascii) (r : string) :
  p +:+ q = String c r ->
  (p = EmptyString /\ q = String c r) \/ exists p', p = String c p' /\ p' +:+ q = r.
Proof.
  destruct p as [|x p]; intros H; [now left|].
  right. change (String x (p +:+ q) = String c r) in H. inversion H; subst.
  now exists p.
Qed.

Lemma scanBalanced_sound (s : string) :
  forall (depth : Z) (r : string),
    (1 <= depth)%Z ->
    scanBalanced depth s = Some r ->
    (exists post, s = r +:+ post) /\
    (exists r0, r = r0 +:+ "}") /\
    (depth + braceDepth r = 0)%Z /\
    (forall p q, r = p +:+ q -> q <> EmptyString -> (1 <= depth + braceDepth p)%Z).
Proof.
  induction s as [|ch s IH]; intros depth r Hd Hr; [discriminate|].
  simpl in Hr.
  assert (Hstep : forall d' : Z,
             (1 <= d')%Z ->
             (d' = depth + (if Ascii.eqb ch "{"%char then 1
                            else if Ascii.eqb ch "}"%char then -1 else 0))%Z ->
             option_map (String ch) (scanBalanced d' s) = Some r ->
             (exists post, String ch s = r +:+ post) /\
             (exists r0, r = r0 +:+ "}") /\
             (depth + braceDepth r = 0)%Z /\
             (forall p q, r = p +:+ q -> q <> EmptyString -> (1 <= depth + braceDepth p)%Z)).
  { intros d' Hd' Hdelta Hopt.
    destruct (scanBalanced d' s) as [r'|] eqn:Er; [|discriminate].
    simpl in Hopt. inversion Hopt; subst r. clear Hopt.
    destruct (IH d' r' Hd' Er) as ((post & Hpost) & (r0 & Hr0) & Hdepth & Hpre).
    split; [exists post; now rewrite Hpost|].
    split; [exists (String ch r0); now rewrite Hr0|].
    split; [simpl; lia|].
    intros p q Hpq Hq. symmetry in Hpq.
    destruct (append_cons_split p q ch r' Hpq) as [[-> _]|(p' & -> & Hp')].
    - simpl. lia.
    - simpl. specialize (Hpre p' q (eq_sym Hp') Hq). lia. }
  destruct (Ascii.eqb ch "{"%char) eqn:Eopen.
  - apply (Hstep (depth + 1)%Z); [lia | lia | exact Hr].
  - destruct (Ascii.eqb ch "}"%char) eqn:Eclose.
    + destruct (Z.eqb_spec (depth - 1) 0) as [Hz|Hnz].
      * inversion Hr; subst r. clear Hr.
        apply Ascii.eqb_eq in Eclose. subst ch.
        split; [now exists s|]. split; [now exists EmptyString|].
        split; [simpl; lia|].
        intros p q Hpq Hq. symmetry in Hpq.
        destruct (append_cons_split p q _ _ Hpq) as [[-> _]|(p' & -> & Hp')].
        -- simpl. lia.
        -- destruct p' as [|x p'].
           ++ change (q = EmptyString) in Hp'. congruence.
           ++ change (String x (p' +:+ q) = EmptyString) in Hp'. discriminate.
      * apply (Hstep (depth - 1)%Z); [lia | lia | exact Hr].
    + apply (Hstep depth); [lia | lia | exact Hr].
Qed.

Lemma fromFirstBrace_sound (raw s : string) :
  fromFirstBrace raw = Some s ->
  exists pre rest, raw = pre +:+ s /\ hasOpeningBrace pre = false /\ s = String "{"%char rest.
Proof.
  revert s. induction raw as [|ch raw IH]; intros s H; [discriminate|].
  simpl in H. destruct (Ascii.eqb ch "{"%char) eqn:E.
  - inversion H; subst s. apply Ascii.eqb_eq in E. subst ch.
    now exists EmptyString, raw.
  - destruct (IH s H) as (pre & rest & -> & Hpre & ->).
    exists (String ch pre), rest. split; [reflexivity|]. split; [|reflexivity].
    simpl. now rewrite E.
Qed.

Lemma fromFirstBrace_None (raw : string) :
  fromFirstBrace raw = None <-> hasOpeningBrace raw = false.
Proof.
  induction raw as [|ch raw IH]; [easy|].
  simpl. destruct (Ascii.eqb ch "{"%char); simpl; [easy | exact IH].
Qed.

(** X7.  What [extractFirstJsonObject] returns is a piece of the raw
    text: it starts at the first opening brace of the text, ends with a
    closing brace, has as many closing as opening braces, and is the shortest
    such piece (every proper prefix of it has more opening than closing
    braces).  A text without an opening brace gives nothing. *)
Theorem extractFirstJsonObject_is_balanced (raw : string) :
  (forall extracted,
     extractFirstJsonObject raw = Some extracted ->
     exists pre post inner,
       raw = pre +:+ extracted +:+ post /\
       hasOpeningBrace pre = false /\
       extracted = "{" +:+ inner +:+ "}" /\
       braceDepth extracted = 0%Z /\
       (forall p q, extracted = p +:+ q -> p <> EmptyString -> q <> EmptyString ->
                    (1 <= braceDepth p)%Z)) /\
  (hasOpeningBrace raw = false -> extractFirstJsonObject raw = None).
Proof.
  split.
  - intros extracted H. unfold extractFirstJsonObject in H.
    destruct (fromFirstBrace raw) as [s|] eqn:Es; [|discriminate].
    destruct (fromFirstBrace_sound raw s Es) as (pre & rest & Hraw & Hpre & Hs).
    subst s. simpl in H.
    destruct (scanBalanced (0 + 1) rest) as [r'|] eqn:Er; [|discriminate].
    simpl in H. inversion H; subst extracted. clear H.
    destruct (scanBalanced_sound rest 1 r' ltac:(lia) Er)
      as ((post & Hpost) & (r0 & Hr0) & Hdepth & Hprefix).
    exists pre, post, r0. split; [|split; [exact Hpre|split; [|split]]].
    + rewrite Hraw, Hpost. reflexivity.
    + now rewrite Hr0.
    + simpl. lia.
    + intros p q Hpq Hp Hq. symmetry in Hpq.
      destruct (append_cons_split p q _ _ Hpq) as [[-> _]|(p' & -> & Hp')]; [congruence|].
      simpl. specialize (Hprefix p' q (eq_sym Hp') Hq). lia.
  - intros H. unfold extractFirstJsonObject.
    now rewrite (proj2 (fromFirstBrace_None raw) H).
Qed.

Lemma extractFirstJsonObject_is_balanced_witness :
  extractFirstJsonObject "no json here" = None.
Proof.
  apply (proj2 (extractFirstJsonObject_is_balanced "no json here")). reflexivity.
Defined.

(** The scan counts braces only: a closing brace inside a JSON string ends
    the piece early. *)
Example extraction_ignores_quotes :
  extractFirstJsonObject ("see {" +:+ dq +:+ "a" +:+ dq +:+ ":" +:+ dq +:+ "}" +:+ dq +:+ "} ok")
  = Some ("{" +:+ dq +:+ "a" +:+ dq +:+ ":" +:+ dq +:+ "}").
Proof. reflexivity. Qed.

Lemma allowedStrategy_iff (text : string) (strat : RouteStrategy) :
  allowedStrategy text = Some strat <-> text = strategyName strat.
Proof.
  unfold allowedStrategy, ROUTE_ALLOWED_STRATEGIES.
  change (List.find (fun s => String.eqb (strategyName s) text)
            [plan_then_parallel; direct_execution])
    with (if String.eqb "plan_then_parallel" text then Some plan_then_parallel
          else if String.eqb "direct_execution" text then Some direct_execution
               else None).
  destruct (String.eqb_spec "plan_then_parallel" text) as [<-|H1].
  - split; [intros H; inversion H; reflexivity|].
    destruct strat; [reflexivity | discriminate].
  - destruct (String.eqb_spec "direct_execution" text) as [<-|H2].
    + split; [intros H; inversion H; reflexivity|].
      destruct strat; [discriminate | reflexivity].
    + split; [discriminate|]. intros ->. destruct strat; simpl in *; congruence.
Qed.

(** The messages [parseRouteDecision] throws. *)
Definition routeDecisionErrors : list string :=
  [ "RouteDecision parse error: no JSON object found.";
    "RouteDecision parse error: invalid JSON structure.";
    "RouteDecision validation error: missing key 'strategy'.";
    "RouteDecision validation error: missing key 'rationale'.";
    "RouteDecision validation error: 'strategy' must be a string.";
    "RouteDecision validation error: 'strategy' must be one of plan_then_parallel, direct_execution.";
    "RouteDecision validation error: 'rationale' must be a non-empty string.";
    "Cannot read properties of null (reading 'strategy')" ].

Section RouteDecisionProperties.

Variable JSON_parse : string -> Settled JsonValue.

Lemma parseCandidate_errors (candidate e : string) :
  parseCandidate JSON_parse candidate = Rejected e ->
  e = "RouteDecision parse error: no JSON object found." \/
  e = "RouteDecision parse error: invalid JSON structure.".
Proof.
  unfold parseCandidate. destruct (JSON_parse candidate); [discriminate|].
  destruct (extractFirstJsonObject candidate) as [x|].
  - destruct (JSON_parse x); [discriminate|]. intros H. inversion H. now right.
  - intros H. inversion H. now left.
Qed.

(** What [parseRouteDecision] does once the text has been parsed. *)
Definition validated (parsed : JsonValue) : Settled RouteDecision :=
  match requireKeys "RouteDecision" parsed ROUTE_REQUIRED_KEYS with
  | Rejected e => Rejected e
  | Fulfilled _ =>
      match getMember parsed "strategy" with
      | Fulfilled (Some (JStr strategyText)) =>
          match allowedStrategy (trim strategyText) with
          | None =>
              Rejected ("RouteDecision validation error: 'strategy' must be one of "
                        +:+ join ", " (map strategyName ROUTE_ALLOWED_STRATEGIES) +:+ ".")
          | Some strat =>
              match getMember parsed "rationale" with
              | Fulfilled (Some (JStr rationaleText)) =>
                  if truthy (trim rationaleText)
                  then Fulfilled {| strategy := strat; rationale := trim rationaleText |}
                  else Rejected "RouteDecision validation error: 'rationale' must be a non-empty string."
              | Fulfilled _ =>
                  Rejected "RouteDecision validation error: 'rationale' must be a non-empty string."
              | Rejected e => Rejected e
              end
          end
      | Fulfilled _ => Rejected "RouteDecision validation error: 'strategy' must be a string."
      | Rejected e => Rejected e
      end
  end.

Lemma parseRouteDecision_validated (raw : string) :
  parseRouteDecision JSON_parse raw =
  match parseCandidate JSON_parse (trim raw) with
  | Rejected e => Rejected e
  | Fulfilled parsed => validated parsed
  end.
Proof. reflexivity. Qed.

Lemma validated_object (members : list (string * JsonValue)) :
  validated (JObj members) =
  match lookupMember "strategy" members with
  | None | Some JNull =>
      Rejected "RouteDecision validation error: missing key 'strategy'."
  | Some sv =>
      match lookupMember "rationale" members with
      | None | Some JNull =>
          Rejected "RouteDecision validation error: missing key 'rationale'."
      | Some rv =>
          match sv with
          | JStr strategyText =>
              match allowedStrategy (trim strategyText) with
              | None =>
                  Rejected "RouteDecision validation error: 'strategy' must be one of plan_then_parallel, direct_execution."
              | Some strat =>
                  match rv with
                  | JStr rationaleText =>
                      if truthy (trim rationaleText)
                      then Fulfilled {| strategy := strat; rationale := trim rationaleText |}
                      else Rejected "RouteDecision validation error: 'rationale' must be a non-empty string."
                  | _ => Rejected "RouteDecision validation error: 'rationale' must be a non-empty string."
                  end
              end
          | _ => Rejected "RouteDecision validation error: 'strategy' must be a string."
          end
      end
  end.
Proof.
  unfold validated. simpl.
  destruct (lookupMember "strategy" members) as [sv|]; [|reflexivity].
  destruct (lookupMember "rationale" members) as [rv|];
    [|destruct sv; reflexivity].
  destruct sv as [| | |s| |]; destruct rv as [| | |r| |]; try reflexivity;
    destruct (allowedStrategy (trim s)); reflexivity.
Qed.

Lemma validated_other (parsed : JsonValue) :
  (forall members, parsed <> JObj members) ->
  validated parsed =
  Rejected (match parsed with
            | JNull => "Cannot read properties of null (reading 'strategy')"
            | _ => "RouteDecision validation error: missing key 'strategy'."
            end).
Proof.
  intros H. destruct parsed; try reflexivity. now destruct (H members).
Qed.

End RouteDecisionProperties.


Definition spacedDecision : JsonValue :=
  JObj [("strategy", JStr " direct_execution "); ("rationale", JStr "  small task ")].


(** X9.  [parseRouteDecision] throws one of eight messages of its
    own (seven of the decision channel, and the TypeError of reading a member
    of [null] when the text parses to [null]); the message with which
    [JSON.parse] fails never comes out of it. *)
Theorem parseRouteDecision_throws_its_own (JSON_parse : string -> Settled JsonValue)
  (raw e : string) :
  parseRouteDecision JSON_parse raw = Rejected e -> e ∈ routeDecisionErrors.
Proof.
  rewrite parseRouteDecision_validated. intros H.
  apply list_elem_of_In. unfold routeDecisionErrors.
  destruct (parseCandidate JSON_parse (trim raw)) as [parsed|e'] eqn:Ec.
  - destruct parsed as [| | | | |members];
      try (rewrite validated_other in H by discriminate; inversion H; simpl; tauto).
    rewrite validated_object in H.
    destruct (lookupMember "strategy" members) as [sv|];
      [|inversion H; simpl; tauto].
    destruct (lookupMember "rationale" members) as [rv|];
      [|destruct sv; inversion H; simpl; tauto].
    destruct sv as [| | |s| |]; destruct rv as [| | |r| |];
      try (inversion H; simpl; tauto);
      destruct (allowedStrategy (trim s));
      try (inversion H; simpl; tauto);
      destruct (truthy (trim r)); inversion H; simpl; tauto.
  - inversion H; subst e'.
    destruct (parseCandidate_errors JSON_parse _ _ Ec) as [->| ->]; simpl; tauto.
Qed.

Lemma parseRouteDecision_throws_its_own_witness :
  "RouteDecision parse error: invalid JSON structure." ∈ routeDecisionErrors.
Proof.
  apply (parseRouteDecision_throws_its_own
           (fun _ => Rejected "Unexpected token o in JSON at position 1")
           "so {not json}").
  reflexivity.
Defined.

End StructuredDecision.

(* ===================================================================== *)
(** * CheckpointTagging.ts                                               *)
(* ===================================================================== *)

Module CheckpointTagging.

Import Js.

Record CheckpointTagMeta : Type := {
  meta_agentId : string;
  meta_phase : Phase
}.

(** [commit(messagePrefix)] of the injected tracker. *)
Definition CheckpointTrackerLike : Type := string -> Settled (option string).

(** [formatCheckpointPrefix] for metadata without a label, which is all the
    wrapper ever passes. *)
Definition formatCheckpointPrefix (meta : CheckpointTagMeta) : string :=
  "[crew]" +:+ "[agent=" +:+ meta_agentId meta +:+ "]"
  +:+ "[phase=" +:+ phaseName (meta_phase meta) +:+ "]".

(** Run the work, then commit a tagged checkpoint; a failing commit is
    swallowed. *)
Definition withCheckpointTag {T} (tracker : option CheckpointTrackerLike)
  (meta : CheckpointTagMeta) (fn : Settled T) : Settled T :=
  match fn with
  | Rejected e => Rejected e
  | Fulfilled result =>
      match tracker with
      | Some commit =>
          match commit (formatCheckpointPrefix meta) with
          | Fulfilled _ => Fulfilled result
          | Rejected _ => Fulfilled result
          end
      | None => Fulfilled result
      end
  end.

Definition createCheckpointTagWrapper {T} (tracker : option CheckpointTrackerLike)
  (agentId : string) (phase : Phase) (fn : Settled T) : Settled T :=
  let p := match phase with
           | planning => planning
           | reflection => reflection
           | _ => execution
           end in
  withCheckpointTag tracker {| meta_agentId := agentId; meta_phase := p |} fn.

(** ** Labelled prefixes *)

(** [v.replace(/\s+/g, "-")] on ASCII text: every maximal run of white space
    becomes one dash.  [inRun] tells that the previous character was white
    space. *)
Fixpoint collapseSpaces (inRun : bool) (v : string) : string :=
  match v with
  | EmptyString => EmptyString
  | String c rest =>
      if isSpace c then
        if inRun then collapseSpaces true rest
        else String "-"%char (collapseSpaces true rest)
      else String c (collapseSpaces false rest)
  end.

Definition sanitize (v : string) : string := substring0 64 (collapseSpaces false v).

(** [formatCheckpointPrefix] for metadata with its optional label. *)
Definition formatLabelledPrefix (meta : CheckpointTagMeta) (label : option string) : string :=
  formatCheckpointPrefix meta +:+
  match label with
  | Some l => if truthy l then "[label=" +:+ sanitize l +:+ "]" else ""
  | None => ""
  end.

Fixpoint hasSpace (v : string) : bool :=
  match v with
  | EmptyString => false
  | String c rest => isSpace c || hasSpace rest
  end.

Lemma collapseSpaces_hasSpace (inRun : bool) (v : string) :
  hasSpace (collapseSpaces inRun v) = false.
Proof.
  revert inRun. induction v as [|c v IH]; intros inRun; [reflexivity|].
  simpl. destruct (isSpace c) eqn:Ec.
  - destruct inRun; [apply IH|]. simpl. apply IH.
  - simpl. rewrite Ec. apply IH.
Qed.

Lemma collapseSpaces_id (v : string) :
  hasSpace v = false -> collapseSpaces false v = v.
Proof.
  induction v as [|c v IH]; [reflexivity|].
  simpl. intros H. apply orb_false_iff in H as [Hc Hv].
  rewrite Hc. f_equal. now apply IH.
Qed.

Lemma collapseSpaces_length (inRun : bool) (v : string) :
  String.length (collapseSpaces inRun v) <= String.length v.
Proof.
  revert inRun. induction v as [|c v IH]; intros inRun; [reflexivity|].
  simpl. destruct (isSpace c).
  - destruct inRun; simpl; [specialize (IH true); lia | specialize (IH true); lia].
  - simpl. specialize (IH false). lia.
Qed.

Lemma substring0_hasSpace (n : nat) (v : string) :
  hasSpace v = false -> hasSpace (substring0 n v) = false.
Proof.
  unfold substring0. revert n. induction v as [|c v IH]; intros [|n] H; try reflexivity.
  simpl in *. apply orb_false_iff in H as [Hc Hv]. rewrite Hc. now apply IH.
Qed.



(** The wrapper hands back what the work settled to, whatever the tracker
    does. *)
Lemma withCheckpointTag_transparent {T} (tracker : option CheckpointTrackerLike)
  (meta : CheckpointTagMeta) (fn : Settled T) :
  withCheckpointTag tracker meta fn = fn.
Proof.
  unfold withCheckpointTag. destruct fn as [result|e]; [|reflexivity].
  destruct tracker as [commit|]; [|reflexivity].
  now destruct (commit (formatCheckpointPrefix meta)).
Qed.

Lemma createCheckpointTagWrapper_transparent {T} (tracker : option CheckpointTrackerLike)
  (agentId : string) (phase : Phase) (fn : Settled T) :
  createCheckpointTagWrapper tracker agentId phase fn = fn.
Proof. unfold createCheckpointTagWrapper. apply withCheckpointTag_transparent. Qed.

End CheckpointTagging.

(* ===================================================================== *)
(** * ParallelExecutor.ts                                                *)
(* ===================================================================== *)

Module ParallelExecutor.

Import Js.
Import StructuredDecision.

Record AgentWorkResult : Type := {
  res_agentId : string;
  res_phase : Phase;
  res_success : bool;
  res_output : option JsonValue;
  res_errorMessage : option string
}.

(** A unit of work.  [work_run] is what the promise returned by [run()]
    settles to; an action that never settles stalls its batch and is outside
    this model. *)
Record AgentWork : Type := {
  work_agentId : string;
  work_phase : Phase;
  work_label : option string;
  work_run : Settled AgentWorkResult
}.

Record ParallelBatchSummary : Type := {
  results : list AgentWorkResult;
  succeeded : list AgentWorkResult;
  failed : list AgentWorkResult
}.

Record ParallelExecutorOptions : Type := {
  maxConcurrent : nat;
  onResult : option (AgentWorkResult -> Settled unit);
  onStartBatch : option (nat -> Settled unit);
  onFinishBatch : option (ParallelBatchSummary -> Settled unit);
  withCheckpointTag :
    option (string -> Phase -> Settled AgentWorkResult -> Settled AgentWorkResult)
}.

(** The constructor refuses a ceiling below one. *)
Definition new_ParallelExecutor (opts : ParallelExecutorOptions)
  : Settled ParallelExecutorOptions :=
  if Nat.ltb (maxConcurrent opts) 1
  then Rejected "ParallelExecutor: maxConcurrent must be >= 1"
  else Fulfilled opts.

Definition failedResult (item : AgentWork) (msg : string) : AgentWorkResult :=
  {| res_agentId := work_agentId item;
     res_phase := work_phase item;
     res_success := false;
     res_output := None;
     res_errorMessage := Some msg |}.

Definition executeItem (this : ParallelExecutorOptions) (item : AgentWork)
  : AgentWorkResult :=
  let runFn := work_run item in
  let wrapped :=
    match withCheckpointTag this with
    | Some tag => tag (work_agentId item) (work_phase item) runFn
    | None => runFn
    end in
  match wrapped with
  | Fulfilled w =>
      {| res_agentId := work_agentId item;
         res_phase := work_phase item;
         res_success := res_success w;
         res_output := res_output w;
         res_errorMessage := res_errorMessage w |}
  | Rejected msg => failedResult item msg
  end.

(** The promise pool of [runBatch].  [inFlight] holds the launched items that
    have not settled; the flag tells whether the item was launched while
    priming the pool, that is, whether its promise was in [inFlight] when
    [Promise.all(inFlight)] read the array. *)
Record Pool : Type := {
  queue : list AgentWork;
  inFlight : list (bool * AgentWork);
  collected : list AgentWorkResult
}.

(** [launchNext]: shift the queue and put the item in flight. *)
Definition launchNext (primed : bool) (P : Pool) : Pool :=
  match queue P with
  | [] => P
  | item :: rest =>
      {| queue := rest;
         inFlight := inFlight P ++ [(primed, item)];
         collected := collected P |}
  end.

(** The priming loop [for (let i = 0; i < initial; i++) launchNext()]. *)
Fixpoint prime (initial : nat) (P : Pool) : Pool :=
  match initial with
  | 0 => P
  | S n => prime n (launchNext true P)
  end.

(** The [then]/[catch]/[finally] chain of one in-flight item, run when its
    action settles: push the result, call [onResult] (a failure of the hook is
    caught and pushed as a second, failed entry), leave [inFlight], launch the
    next queued item.  [k] selects which in-flight item settles next. *)
Definition settle (this : ParallelExecutorOptions) (k : nat) (P : Pool) : Pool :=
  let i := k mod length (inFlight P) in
  match inFlight P !! i with
  | None => P
  | Some (_, item) =>
      let res := executeItem this item in
      let pushed := collected P ++ [res] in
      let pushed' :=
        match onResult this with
        | Some hook =>
            match hook res with
            | Fulfilled _ => pushed
            | Rejected err => pushed ++ [failedResult item err]
            end
        | None => pushed
        end in
      launchNext false
        {| queue := queue P;
           inFlight := delete i (inFlight P);
           collected := pushed' |}
  end.

(** The order in which actions settle is decided by the environment:
    [picks] chooses the in-flight item that settles next, and [late] counts
    the items launched after priming that still settle before the flow
    suspended on [Promise.all] resumes. *)
Record Timing : Type := {
  picks : list nat;
  late : nat
}.

Definition hasPrimed (P : Pool) : bool := existsb fst (inFlight P).

(** [await Promise.all(inFlight)] waits for the promises that were in the
    array when it was called. *)
Fixpoint awaitPrimed (this : ParallelExecutorOptions) (fuel : nat) (ks : list nat)
  (P : Pool) : Pool * list nat :=
  match fuel with
  | 0 => (P, ks)
  | S fuel' =>
      if hasPrimed P
      then awaitPrimed this fuel' (tail ks) (settle this (hd 0 ks) P)
      else (P, ks)
  end.

Fixpoint settleLate (this : ParallelExecutorOptions) (n : nat) (ks : list nat)
  (P : Pool) : Pool :=
  match n with
  | 0 => P
  | S n' =>
      match inFlight P with
      | [] => P
      | _ => settleLate this n' (tail ks) (settle this (hd 0 ks) P)
      end
  end.

Definition summarize (rs : list AgentWorkResult) : ParallelBatchSummary :=
  {| results := rs;
     succeeded := List.filter res_success rs;
     failed := List.filter (fun r => negb (res_success r)) rs |}.

Definition runBatch (t : Timing) (this : ParallelExecutorOptions)
  (workItems : list AgentWork) : Settled ParallelBatchSummary :=
  let start :=
    match onStartBatch this with
    | Some hook => hook (length workItems)
    | None => Fulfilled tt
    end in
  match start with
  | Rejected e => Rejected e
  | Fulfilled _ =>
      let P0 := {| queue := workItems; inFlight := []; collected := [] |} in
      let initial := Nat.min (maxConcurrent this) (length workItems) in
      let P1 := prime initial P0 in
      let '(P2, ks) := awaitPrimed this (length workItems) (picks t) P1 in
      let P3 := settleLate this (late t) ks P2 in
      let summary := summarize (collected P3) in
      match onFinishBatch this with
      | Some hook =>
          match hook summary with
          | Fulfilled _ => Fulfilled summary
          | Rejected e => Rejected e
          end
      | None => Fulfilled summary
      end
  end.

(** [buildAgentWork]: a work item from a plain asynchronous function. *)
Definition buildAgentWork (agentId : string) (phase : Phase)
  (fn : Settled JsonValue) : AgentWork :=
  {| work_agentId := agentId;
     work_phase := phase;
     work_label := None;
     work_run :=
       match fn with
       | Fulfilled output =>
           Fulfilled {| res_agentId := agentId; res_phase := phase; res_success := true;
                        res_output := Some output; res_errorMessage := None |}
       | Rejected err =>
           Fulfilled {| res_agentId := agentId; res_phase := phase; res_success := false;
                        res_output := None; res_errorMessage := Some err |}
       end |}.

(** ** Properties of [runBatch] *)

(** A hook that is absent or returns normally on every argument. *)
Definition quiet {A} (hook : option (A -> Settled unit)) : Prop :=
  forall f, hook = Some f -> forall a, f a = Fulfilled tt.

(** What the specification promises of a batch: it resolves, with one result
    per submitted item, and the two subsets add up to the item count. *)
Definition batchContract (t : Timing) (this : ParallelExecutorOptions)
  (workItems : list AgentWork) : Prop :=
  exists summary,
    runBatch t this workItems = Fulfilled summary /\
    length (results summary) = length workItems /\
    length (succeeded summary) + length (failed summary) = length workItems.

Lemma prime_queue (n : nat) (q : list AgentWork) (fl : list (bool * AgentWork))
  (c : list AgentWorkResult) :
  n <= length q ->
  prime n {| queue := q; inFlight := fl; collected := c |} =
  {| queue := drop n q; inFlight := fl ++ map (pair true) (take n q); collected := c |}.
Proof.
  revert q fl. induction n as [|n IH]; intros q fl Hn.
  - simpl. now rewrite drop_0, app_nil_r.
  - destruct q as [|item q]; [simpl in Hn; lia|].
    simpl. unfold launchNext. simpl. rewrite IH by (simpl in Hn; lia).
    now rewrite <- app_assoc.
Qed.

Lemma filter_split_length {A} (f : A -> bool) (l : list A) :
  length (List.filter f l) + length (List.filter (fun x => negb (f x)) l) = length l.
Proof.
  induction l as [|x l IH]; [reflexivity|].
  simpl. destruct (f x); simpl; lia.
Qed.

Lemma summarize_counts (rs : list AgentWorkResult) :
  length (succeeded (summarize rs)) + length (failed (summarize rs)) = length rs.
Proof. apply filter_split_length. Qed.

Section FullPool.

Variable this : ParallelExecutorOptions.
Hypothesis onResult_quiet : quiet (onResult this).

(** With an empty queue, settling an item moves its result from the pool to
    the collected results. *)
Lemma settle_drained (k : nat) (fl : list (bool * AgentWork))
  (c : list AgentWorkResult) :
  fl <> [] ->
  exists i b item,
    fl !! i = Some (b, item) /\
    settle this k {| queue := []; inFlight := fl; collected := c |} =
    {| queue := []; inFlight := delete i fl;
       collected := c ++ [executeItem this item] |}.
Proof.
  intros Hfl.
  assert (Hlt : k mod length fl < length fl).
  { apply Nat.mod_upper_bound. destruct fl; [congruence | simpl; lia]. }
  destruct (lookup_lt_is_Some_2 fl _ Hlt) as [[b item] Hi].
  exists (k mod length fl), b, item. split; [exact Hi|].
  unfold settle. simpl. rewrite Hi.
  unfold launchNext. simpl. f_equal.
  pose proof onResult_quiet as Hq.
  destruct (onResult this) as [hook|]; [|reflexivity].
  now rewrite (Hq hook eq_refl).
Qed.

Lemma awaitPrimed_drained (fuel : nat) :
  forall (ks : list nat) (fl : list (bool * AgentWork)) (c : list AgentWorkResult),
    Forall (fun x => fst x = true) fl ->
    length fl <= fuel ->
    exists ks' c',
      awaitPrimed this fuel ks {| queue := []; inFlight := fl; collected := c |} =
      ({| queue := []; inFlight := []; collected := c' |}, ks') /\
      c' ≡ₚ c ++ map (executeItem this) (map snd fl).
Proof.
  induction fuel as [|fuel IH]; intros ks fl c Hp Hlen.
  - destruct fl; [|simpl in Hlen; lia]. exists ks, c. simpl.
    split; [reflexivity | now rewrite app_nil_r].
  - destruct fl as [|[b item0] fl'] eqn:Efl.
    + exists ks, c. simpl. split; [reflexivity | now rewrite app_nil_r].
    + rewrite <- Efl in *. simpl.
      assert (Hprimed : hasPrimed {| queue := []; inFlight := fl; collected := c |} = true).
      { unfold hasPrimed. simpl. rewrite Efl. simpl.
        rewrite Efl in Hp. inversion Hp as [|? ? Hb _]; subst. simpl in Hb. now rewrite Hb. }
      rewrite Hprimed.
      destruct (settle_drained (hd 0 ks) fl c) as (i & b' & item & Hi & ->);
        [rewrite Efl; discriminate|].
      destruct (IH (tail ks) (delete i fl) (c ++ [executeItem this item]))
        as (ks' & c' & -> & Hperm).
      * apply Forall_delete. exact Hp.
      * pose proof (lookup_lt_Some _ _ _ Hi) as Hi'.
        rewrite length_delete by eauto. lia.
      * exists ks', c'. split; [reflexivity|].
        rewrite Hperm, <- app_assoc. apply Permutation_app_head.
        rewrite (delete_Permutation fl i (b', item) Hi) at 2. reflexivity.
Qed.

End FullPool.

(** The batch whose items all fit the pool: every promise is primed, so the
    flow resumes only after each item has delivered its one result. *)
Lemma runBatch_full_pool (t : Timing) (this : ParallelExecutorOptions)
  (workItems : list AgentWork) :
  length workItems <= maxConcurrent this ->
  quiet (onStartBatch this) -> quiet (onResult this) -> quiet (onFinishBatch this) ->
  exists rs,
    runBatch t this workItems = Fulfilled (summarize rs) /\
    rs ≡ₚ map (executeItem this) workItems.
Proof.
  intros Hfit Hstart Hres Hfin. unfold runBatch.
  assert (Hs : match onStartBatch this with
               | Some hook => hook (length workItems)
               | None => Fulfilled tt
               end = Fulfilled tt).
  { destruct (onStartBatch this) as [h|] eqn:E; [now apply Hstart | reflexivity]. }
  rewrite Hs. rewrite Nat.min_r by exact Hfit.
  rewrite prime_queue by reflexivity.
  rewrite drop_all, firstn_all. simpl.
  destruct (awaitPrimed_drained this Hres (length workItems) (picks t)
              (map (pair true) workItems) [])
    as (ks' & c' & -> & Hperm).
  - apply Forall_forall. intros x Hx. apply list_elem_of_fmap in Hx as (y & -> & _).
    reflexivity.
  - now rewrite length_map.
  - exists c'. split.
    + assert (Hl : settleLate this (late t) ks'
                     {| queue := []; inFlight := []; collected := c' |} =
                   {| queue := []; inFlight := []; collected := c' |}).
      { destruct (late t); reflexivity. }
      rewrite Hl. simpl.
      destruct (onFinishBatch this) as [h|] eqn:E; [|reflexivity].
      now rewrite (Hfin h eq_refl).
    + simpl in Hperm. rewrite Hperm.
      replace (map snd (map (pair true) workItems)) with workItems; [reflexivity|].
      clear. induction workItems as [|x l IH]; [reflexivity|]. simpl. now rewrite <- IH.
Qed.

(** C2 (as amended).  When the submitted items fit the concurrency ceiling and
    the hooks are absent or return normally, [runBatch] resolves, whatever the
    actions do and in whatever order they settle, with exactly one result per
    submitted item, so that the succeeded and failed subsets add up to the
    item count.  A failure of [onStartBatch] or of [onFinishBatch] is not
    contained: it rejects the batch. *)
Theorem runBatch_one_result_per_item (t : Timing) (this : ParallelExecutorOptions)
  (workItems : list AgentWork) :
  (length workItems <= maxConcurrent this ->
   quiet (onStartBatch this) -> quiet (onResult this) -> quiet (onFinishBatch this) ->
   exists summary,
     runBatch t this workItems = Fulfilled summary /\
     results summary ≡ₚ map (executeItem this) workItems /\
     length (results summary) = length workItems /\
     length (succeeded summary) + length (failed summary) = length workItems) /\
  (forall hook msg,
     onStartBatch this = Some hook -> hook (length workItems) = Rejected msg ->
     runBatch t this workItems = Rejected msg) /\
  (forall hook msg,
     quiet (onStartBatch this) -> onFinishBatch this = Some hook ->
     (forall summary, hook summary = Rejected msg) ->
     runBatch t this workItems = Rejected msg).
Proof.
  split; [|split].
  - intros Hfit Hstart Hres Hfin.
    destruct (runBatch_full_pool t this workItems Hfit Hstart Hres Hfin)
      as (rs & Hrun & Hperm).
    exists (summarize rs). split; [exact Hrun|]. split; [exact Hperm|].
    assert (Hlen : length rs = length workItems).
    { rewrite Hperm. apply length_map. }
    split; [exact Hlen|]. now rewrite summarize_counts.
  - intros hook msg Hh Hr. unfold runBatch. now rewrite Hh, Hr.
  - intros hook msg Hstart Hh Hr. unfold runBatch.
    assert (Hs : match onStartBatch this with
                 | Some hook => hook (length workItems)
                 | None => Fulfilled tt
                 end = Fulfilled tt).
    { destruct (onStartBatch this) as [h|] eqn:E; [now apply Hstart | reflexivity]. }
    rewrite Hs, Hh.
    destruct (awaitPrimed _ _ _ _) as [P2 ks]. now rewrite Hr.
Qed.

(** With start and finish hooks that return, a batch of any size resolves. *)
Lemma runBatch_resolves (t : Timing) (this : ParallelExecutorOptions)
  (workItems : list AgentWork) :
  quiet (onStartBatch this) -> quiet (onFinishBatch this) ->
  exists summary, runBatch t this workItems = Fulfilled summary.
Proof.
  intros Hstart Hfin. unfold runBatch.
  assert (Hs : match onStartBatch this with
               | Some hook => hook (length workItems)
               | None => Fulfilled tt
               end = Fulfilled tt).
  { destruct (onStartBatch this) as [h|] eqn:E; [now apply Hstart | reflexivity]. }
  rewrite Hs. destruct (awaitPrimed _ _ _ _) as [P2 ks].
  destruct (onFinishBatch this) as [h|]; [|now eexists].
  rewrite (Hfin h eq_refl). now eexists.
Qed.

Definition okResult (agentId : string) : AgentWorkResult :=
  {| res_agentId := agentId; res_phase := execution; res_success := true;
     res_output := None; res_errorMessage := None |}.

Definition sampleWork (agentId : string) (outcome : Settled AgentWorkResult) : AgentWork :=
  {| work_agentId := agentId; work_phase := execution; work_label := None;
     work_run := outcome |}.

Definition plainExecutor (ceiling : nat) : ParallelExecutorOptions :=
  {| maxConcurrent := ceiling; onResult := None; onStartBatch := None;
     onFinishBatch := None; withCheckpointTag := None |}.

Definition inOrder : Timing := {| picks := []; late := 0 |}.

Lemma quiet_None {A} : quiet (@None (A -> Settled unit)).
Proof. intros f Hf. discriminate. Qed.

(** Two items in a pool of two, one action succeeding and one raising. *)
Lemma runBatch_one_result_per_item_witness :
  exists summary,
    runBatch inOrder (plainExecutor 2)
      [sampleWork "a" (Fulfilled (okResult "a")); sampleWork "b" (Rejected "boom")]
    = Fulfilled summary /\
    length (succeeded summary) + length (failed summary) = 2.
Proof.
  destruct (proj1 (runBatch_one_result_per_item inOrder (plainExecutor 2)
              [sampleWork "a" (Fulfilled (okResult "a")); sampleWork "b" (Rejected "boom")]))
    as (summary & Hrun & _ & _ & Hcount).
  - simpl. lia.
  - apply quiet_None.
  - apply quiet_None.
  - apply quiet_None.
  - exists summary. split; [exact Hrun | exact Hcount].
Defined.

Definition throwingStart : ParallelExecutorOptions :=
  {| maxConcurrent := 1; onResult := None;
     onStartBatch := Some (fun _ => Rejected "telemetry down");
     onFinishBatch := None; withCheckpointTag := None |}.

(** C2 (as stated) fails: a batch-start hook that throws makes [runBatch]
    reject. *)
Lemma runBatch_hook_failure_aborts :
  ~ batchContract inOrder throwingStart [sampleWork "a" (Fulfilled (okResult "a"))].
Proof.
  intros (summary & Hrun & _). vm_compute in Hrun. discriminate.
Qed.

(** An [onResult] hook that throws does not abort the batch, but the [catch]
    of the chain records a second, failed entry for the item. *)
Example runBatch_onResult_failure_doubles :
  option_map (fun s => map res_success (results s))
    (match runBatch inOrder
             {| maxConcurrent := 1; onResult := Some (fun _ => Rejected "hook");
                onStartBatch := None; onFinishBatch := None; withCheckpointTag := None |}
             [sampleWork "a" (Fulfilled (okResult "a"))]
     with Fulfilled s => Some s | Rejected _ => None end)
  = Some [true; false].
Proof. reflexivity. Qed.

(** ** Batches of any size *)

(** The items that have not settled yet, and those of them that were primed
    into the pool. *)
Definition unsettled (P : Pool) : list AgentWork := map snd (inFlight P) ++ queue P.

Definition primedItem (x : bool * AgentWork) : option AgentWork :=
  if x.1 then Some x.2 else None.

Definition primedLeft (P : Pool) : list AgentWork := omap primedItem (inFlight P).

Lemma hasPrimed_false (P : Pool) : hasPrimed P = false -> primedLeft P = [].
Proof.
  unfold hasPrimed, primedLeft. induction (inFlight P) as [|[b item] fl IH]; [reflexivity|].
  simpl. destruct b; simpl; [discriminate|]. exact IH.
Qed.

Lemma hasPrimed_true (P : Pool) : hasPrimed P = true -> inFlight P <> [].
Proof. unfold hasPrimed. destruct (inFlight P); [discriminate | discriminate]. Qed.

Section AnyBatch.

Variable this : ParallelExecutorOptions.
Hypothesis onResult_quiet : quiet (onResult this).

(** What the settling of one action does to a pool. *)
Lemma settle_effect (k : nat) (P : Pool) :
  inFlight P <> [] ->
  exists (b : bool) (item : AgentWork),
    collected (settle this k P) = collected P ++ [executeItem this item] /\
    unsettled P ≡ₚ item :: unsettled (settle this k P) /\
    primedLeft P ≡ₚ (if b then [item] else []) ++ primedLeft (settle this k P) /\
    length (unsettled P) = S (length (unsettled (settle this k P))).
Proof.
  intros Hfl. destruct P as [q fl c]. simpl in Hfl.
  assert (Hlt : k mod length fl < length fl).
  { apply Nat.mod_upper_bound. destruct fl; [congruence | simpl; lia]. }
  destruct (lookup_lt_is_Some_2 fl _ Hlt) as [[b item] Hi].
  exists b, item.
  assert (Hsettle : settle this k {| queue := q; inFlight := fl; collected := c |}
                    = launchNext false
                        {| queue := q; inFlight := delete (k mod length fl) fl;
                           collected := c ++ [executeItem this item] |}).
  { unfold settle. simpl. rewrite Hi. f_equal. f_equal.
    pose proof onResult_quiet as Hq.
    destruct (onResult this) as [hook|]; [|reflexivity].
    now rewrite (Hq hook eq_refl). }
  rewrite Hsettle. clear Hsettle.
  pose proof (delete_Permutation fl _ _ Hi) as Hperm.
  set (fl' := delete (k mod length fl) fl) in *.
  assert (Hsnd : map snd fl ≡ₚ item :: map snd fl').
  { apply (Permutation_map snd) in Hperm. exact Hperm. }
  assert (Hprimed : omap primedItem fl ≡ₚ (if b then [item] else []) ++ omap primedItem fl').
  { rewrite Hperm. simpl. unfold primedItem at 1. simpl. now destruct b. }
  unfold launchNext, unsettled, primedLeft. simpl.
  destruct q as [|q0 q]; simpl.
  - split; [reflexivity|]. rewrite !app_nil_r. split; [exact Hsnd|].
    split; [exact Hprimed|]. rewrite Hsnd. reflexivity.
  - split; [reflexivity|]. split; [|split].
    + rewrite map_app. simpl. rewrite Hsnd. simpl. constructor.
      rewrite <- app_assoc. reflexivity.
    + rewrite omap_app. simpl. rewrite app_nil_r. exact Hprimed.
    + rewrite map_app, !length_app, Hsnd. simpl. lia.
Qed.

(** What a batch keeps true of the items [submitted]: every result collected
    or still due belongs to exactly one item, and the results of the first
    [c] items are collected or due from primed promises. *)
Definition accounted (c : nat) (submitted : list AgentWork) (P : Pool) : Prop :=
  collected P ++ map (executeItem this) (unsettled P) ≡ₚ map (executeItem this) submitted /\
  map (executeItem this) (take c submitted)
    ⊆+ collected P ++ map (executeItem this) (primedLeft P).

Lemma settle_accounted (c : nat) (submitted : list AgentWork) (k : nat) (P : Pool) :
  inFlight P <> [] -> accounted c submitted P -> accounted c submitted (settle this k P).
Proof.
  intros Hfl [Hall Hfirst].
  destruct (settle_effect k P Hfl) as (b & item & Hc & Hrest & Hprimed & _).
  split.
  - rewrite Hc, <- Hall, <- app_assoc.
    apply Permutation_app_head.
    apply (Permutation_map (executeItem this)) in Hrest. rewrite Hrest. reflexivity.
  - etransitivity; [exact Hfirst|].
    rewrite Hc, <- app_assoc. apply submseteq_skips_l.
    apply (Permutation_map (executeItem this)) in Hprimed. rewrite Hprimed.
    rewrite map_app. destruct b; simpl; [reflexivity|]. apply submseteq_cons. reflexivity.
Qed.

Lemma settle_no_primed (k : nat) (P : Pool) :
  inFlight P <> [] -> primedLeft P = [] -> primedLeft (settle this k P) = [].
Proof.
  intros Hfl Hp.
  destruct (settle_effect k P Hfl) as (b & item & _ & _ & Hprimed & _).
  rewrite Hp in Hprimed. symmetry in Hprimed.
  apply Permutation_nil_r in Hprimed.
  apply app_eq_nil in Hprimed. tauto.
Qed.

Lemma awaitPrimed_accounted (c : nat) (submitted : list AgentWork) (fuel : nat) :
  forall (ks : list nat) (P : Pool),
    accounted c submitted P ->
    length (unsettled P) <= fuel ->
    accounted c submitted (awaitPrimed this fuel ks P).1 /\
    primedLeft (awaitPrimed this fuel ks P).1 = [].
Proof.
  induction fuel as [|fuel IH]; intros ks P Hacc Hlen.
  - simpl. split; [exact Hacc|].
    unfold unsettled in Hlen. rewrite length_app, length_map in Hlen.
    unfold primedLeft. destruct (inFlight P); [reflexivity | simpl in Hlen; lia].
  - simpl. destruct (hasPrimed P) eqn:Hp.
    + pose proof (hasPrimed_true P Hp) as Hfl.
      apply IH.
      * now apply settle_accounted.
      * destruct (settle_effect (hd 0 ks) P Hfl) as (_ & _ & _ & _ & _ & Hm). lia.
    + simpl. split; [exact Hacc | now apply hasPrimed_false].
Qed.

Lemma settleLate_accounted (c : nat) (submitted : list AgentWork) (n : nat) :
  forall (ks : list nat) (P : Pool),
    accounted c submitted P -> primedLeft P = [] ->
    accounted c submitted (settleLate this n ks P) /\
    primedLeft (settleLate this n ks P) = [].
Proof.
  induction n as [|n IH]; intros ks P Hacc Hp; [now split|].
  simpl. destruct (inFlight P) as [|x fl] eqn:Efl; [now split|].
  assert (Hfl : inFlight P <> []) by (rewrite Efl; discriminate).
  apply IH; [now apply settle_accounted | now apply settle_no_primed].
Qed.

Lemma primed_accounted (submitted : list AgentWork) :
  accounted (maxConcurrent this) submitted
    (prime (Nat.min (maxConcurrent this) (length submitted))
       {| queue := submitted; inFlight := []; collected := [] |}) /\
  length (unsettled
            (prime (Nat.min (maxConcurrent this) (length submitted))
               {| queue := submitted; inFlight := []; collected := [] |}))
  = length submitted.
Proof.
  set (n := Nat.min (maxConcurrent this) (length submitted)).
  rewrite prime_queue by (unfold n; lia).
  unfold accounted, unsettled, primedLeft. simpl.
  assert (Hsnd : forall l : list AgentWork, map snd (map (pair true) l) = l).
  { induction l as [|x l IH]; [reflexivity|]. simpl. now rewrite IH. }
  assert (Hprimed : forall l : list AgentWork, omap primedItem (map (pair true) l) = l).
  { induction l as [|x l IH]; [reflexivity|].
    change (x :: omap primedItem (map (pair true) l) = x :: l). now rewrite IH. }
  assert (Htake : take (maxConcurrent this) submitted = take n submitted).
  { unfold n. destruct (Nat.le_ge_cases (maxConcurrent this) (length submitted)) as [H|H].
    - now rewrite Nat.min_l.
    - rewrite Nat.min_r by exact H. rewrite !take_ge; [reflexivity | lia | exact H]. }
  rewrite Hsnd, Hprimed, Htake, take_drop. split; [split; reflexivity | reflexivity].
Qed.

End AnyBatch.


Definition threeItems : list AgentWork :=
  [sampleWork "a" (Fulfilled (okResult "a")); sampleWork "b" (Rejected "boom");
   sampleWork "c" (Fulfilled (okResult "c"))].




(** ** The checkpoint wrapper and work built from plain functions *)

(** The executor without its checkpoint wrapper. *)
Definition untagged (this : ParallelExecutorOptions) : ParallelExecutorOptions :=
  {| maxConcurrent := maxConcurrent this;
     onResult := onResult this;
     onStartBatch := onStartBatch this;
     onFinishBatch := onFinishBatch this;
     withCheckpointTag := None |}.

Section Untagged.

Variable this : ParallelExecutorOptions.
Variable tracker : option CheckpointTagging.CheckpointTrackerLike.
Hypothesis wrapped :
  withCheckpointTag this = Some (CheckpointTagging.createCheckpointTagWrapper tracker).

Lemma executeItem_untagged (item : AgentWork) :
  executeItem this item = executeItem (untagged this) item.
Proof.
  unfold executeItem. rewrite wrapped. simpl.
  now rewrite CheckpointTagging.createCheckpointTagWrapper_transparent.
Qed.

Lemma settle_untagged (k : nat) (P : Pool) :
  settle this k P = settle (untagged this) k P.
Proof.
  unfold settle. destruct (inFlight P !! _) as [[b item]|]; [|reflexivity].
  now rewrite executeItem_untagged.
Qed.

Lemma awaitPrimed_untagged (fuel : nat) :
  forall ks P, awaitPrimed this fuel ks P = awaitPrimed (untagged this) fuel ks P.
Proof.
  induction fuel as [|fuel IH]; intros ks P; [reflexivity|].
  simpl. destruct (hasPrimed P); [|reflexivity].
  now rewrite settle_untagged, IH.
Qed.

Lemma settleLate_untagged (n : nat) :
  forall ks P, settleLate this n ks P = settleLate (untagged this) n ks P.
Proof.
  induction n as [|n IH]; intros ks P; [reflexivity|].
  simpl. destruct (inFlight P); [reflexivity|].
  now rewrite settle_untagged, IH.
Qed.

End Untagged.


Definition failingTracker : CheckpointTagging.CheckpointTrackerLike :=
  fun _ => Rejected "git unavailable".

Definition taggedExecutor (ceiling : nat) : ParallelExecutorOptions :=
  {| maxConcurrent := ceiling; onResult := None; onStartBatch := None;
     onFinishBatch := None;
     withCheckpointTag :=
       Some (CheckpointTagging.createCheckpointTagWrapper (Some failingTracker)) |}.


(** X14.  A result always carries the agent id and the phase of the
    item it was produced for, whatever the action reported.  An item made by
    [buildAgentWork] from a plain function never raises: run by an executor
    without wrapper, or with the checkpoint wrapper, a function that returns
    gives a successful result with its output, and a function that throws a
    failed result with the thrown message. *)
Theorem built_work_reports_its_outcome (this : ParallelExecutorOptions) (item : AgentWork)
  (tracker : option CheckpointTagging.CheckpointTrackerLike)
  (agentId : string) (phase : Phase) (fn : Settled JsonValue) :
  res_agentId (executeItem this item) = work_agentId item /\
  res_phase (executeItem this item) = work_phase item /\
  (withCheckpointTag this = None \/
   withCheckpointTag this = Some (CheckpointTagging.createCheckpointTagWrapper tracker) ->
   executeItem this (buildAgentWork agentId phase fn)
   = match fn with
     | Fulfilled output =>
         {| res_agentId := agentId; res_phase := phase; res_success := true;
            res_output := Some output; res_errorMessage := None |}
     | Rejected err =>
         {| res_agentId := agentId; res_phase := phase; res_success := false;
            res_output := None; res_errorMessage := Some err |}
     end).
Proof.
  split; [|split].
  - unfold executeItem.
    destruct (match withCheckpointTag this with
              | Some tag => tag (work_agentId item) (work_phase item) (work_run item)
              | None => work_run item
              end); reflexivity.
  - unfold executeItem.
    destruct (match withCheckpointTag this with
              | Some tag => tag (work_agentId item) (work_phase item) (work_run item)
              | None => work_run item
              end); reflexivity.
  - intros [Hw|Hw].
    + unfold executeItem. rewrite Hw. now destruct fn.
    + rewrite (executeItem_untagged this tracker Hw). unfold executeItem. simpl.
      now destruct fn.
Qed.

Lemma built_work_reports_its_outcome_witness :
  executeItem (taggedExecutor 1) (buildAgentWork "a" planning (Rejected "no network"))
  = {| res_agentId := "a"; res_phase := planning; res_success := false;
       res_output := None; res_errorMessage := Some "no network" |}.
Proof.
  apply (proj2 (proj2 (built_work_reports_its_outcome (taggedExecutor 1)
                         (sampleWork "z" (Rejected "unused")) (Some failingTracker)
                         "a" planning (Rejected "no network")))).
  right. reflexivity.
Defined.

(** ** The pool never holds more than the ceiling *)

(** The pools a batch goes through: the primed pool, and every pool that
    comes from one of them when an in-flight item settles. *)
Inductive PoolState (this : ParallelExecutorOptions) (workItems : list AgentWork)
  : Pool -> Prop :=
| pool_primed :
    PoolState this workItems
      (prime (Nat.min (maxConcurrent this) (length workItems))
         {| queue := workItems; inFlight := []; collected := [] |})
| pool_settled (k : nat) (P : Pool) :
    PoolState this workItems P -> PoolState this workItems (settle this k P).

Lemma launchNext_inFlight (primed : bool) (P : Pool) :
  length (inFlight (launchNext primed P)) + length (queue (launchNext primed P))
  = length (inFlight P) + length (queue P) /\
  length (queue (launchNext primed P)) = pred (length (queue P)).
Proof.
  unfold launchNext. destruct (queue P) as [|item rest] eqn:E; simpl.
  - rewrite E. simpl. lia.
  - rewrite length_app. simpl. lia.
Qed.

Lemma prime_inFlight (initial : nat) :
  forall P, initial <= length (queue P) ->
    length (inFlight (prime initial P)) = length (inFlight P) + initial /\
    length (queue (prime initial P)) = length (queue P) - initial.
Proof.
  induction initial as [|n IH]; intros P Hle; simpl; [lia|].
  destruct (launchNext_inFlight true P) as [Hsum Hq].
  destruct (IH (launchNext true P)) as [H1 H2]; lia.
Qed.

Lemma settle_inFlight (this : ParallelExecutorOptions) (k : nat) (P : Pool) :
  length (inFlight (settle this k P)) <= length (inFlight P) /\
  (queue P <> [] -> inFlight P <> [] ->
   length (inFlight (settle this k P)) = length (inFlight P) /\
   S (length (queue (settle this k P))) = length (queue P)) /\
  (inFlight P = [] -> settle this k P = P) /\
  length (queue (settle this k P)) <= length (queue P).
Proof.
  unfold settle.
  destruct (inFlight P !! (k mod length (inFlight P))) as [[primed item]|] eqn:Ei.
  - match goal with
    | |- context [launchNext false ?Q] =>
        destruct (launchNext_inFlight false Q) as [Hsum Hq];
        set (P' := launchNext false Q) in *
    end.
    cbn [inFlight queue] in Hsum, Hq.
    pose proof (lookup_lt_Some _ _ _ Ei) as Hlt.
    rewrite length_delete in Hsum by (now exists (primed, item)).
    split; [lia|]. split.
    + intros Hq0 _. destruct (queue P); [congruence|]. simpl in *. lia.
    + split; [|lia]. intros E. rewrite E in Ei. now rewrite lookup_nil in Ei.
  - split; [lia|]. split; [|split; [reflexivity | lia]].
    intros _ Hne. destruct (inFlight P) as [|x l] eqn:E; [congruence|].
    apply lookup_ge_None in Ei.
    pose proof (Nat.mod_upper_bound k (length (x :: l))) as Hm. simpl in *. lia.
Qed.

Lemma PoolState_awaitPrimed (this : ParallelExecutorOptions) (workItems : list AgentWork)
  (fuel : nat) :
  forall ks P, PoolState this workItems P ->
               PoolState this workItems (awaitPrimed this fuel ks P).1.
Proof.
  induction fuel as [|fuel IH]; intros ks P HP; simpl; [exact HP|].
  destruct (hasPrimed P); [|exact HP].
  apply IH. now constructor.
Qed.

Lemma PoolState_settleLate (this : ParallelExecutorOptions) (workItems : list AgentWork)
  (n : nat) :
  forall ks P, PoolState this workItems P ->
               PoolState this workItems (settleLate this n ks P).
Proof.
  induction n as [|n IH]; intros ks P HP; simpl; [exact HP|].
  destruct (inFlight P); [exact HP|].
  apply IH. now constructor.
Qed.

(** X15.  The ceiling is kept and used: in every pool a batch goes
    through, from the priming on and whatever the order in which the actions
    settle, [inFlight] holds at most [maxConcurrent] items, and exactly
    [maxConcurrent] as long as items are still queued.  The results of the
    summary are those collected in such a pool. *)
Theorem pool_stays_within_ceiling (t : Timing) (this : ParallelExecutorOptions)
  (workItems : list AgentWork) :
  (forall P, PoolState this workItems P ->
     length (inFlight P) <= maxConcurrent this /\
     (queue P <> [] -> length (inFlight P) = maxConcurrent this)) /\
  (forall summary, runBatch t this workItems = Fulfilled summary ->
     exists P, PoolState this workItems P /\ results summary = collected P).
Proof.
  split.
  - intros P HP.
    assert (H : length (inFlight P) <= maxConcurrent this /\
                (queue P <> [] -> length (inFlight P) = maxConcurrent this) /\
                (inFlight P = [] -> queue P <> [] -> maxConcurrent this = 0)).
    { induction HP as [|k P HP IH].
      - destruct (prime_inFlight (Nat.min (maxConcurrent this) (length workItems))
                    {| queue := workItems; inFlight := []; collected := [] |})
          as [H1 H2]; [simpl; lia|].
        simpl in H1, H2.
        set (P1 := prime _ _) in *.
        assert (Hq : queue P1 <> [] -> length (queue P1) <> 0)
          by (destruct (queue P1); [congruence | discriminate]).
        split; [lia|]. split.
        + intros Hne. specialize (Hq Hne). lia.
        + intros Hnone Hne. specialize (Hq Hne). rewrite Hnone in H1. simpl in H1. lia.
      - destruct IH as (Hle & Hfull & Hidle).
        destruct (settle_inFlight this k P) as (Hmono & Hkeep & Hsame & Hqueue).
        destruct (inFlight P) as [|x l] eqn:Ein.
        + rewrite (Hsame eq_refl). rewrite Ein. auto.
        + split; [lia|]. split.
          * intros Hq. assert (Hq0 : queue P <> []).
            { intros E. rewrite E in Hqueue. simpl in Hqueue.
              destruct (queue (settle this k P)); [congruence | simpl in Hqueue; lia]. }
            destruct (Hkeep Hq0 ltac:(discriminate)) as [Heq _].
            rewrite Heq. now apply Hfull.
          * intros Hnone Hq. assert (Hq0 : queue P <> []).
            { intros E. rewrite E in Hqueue. simpl in Hqueue.
              destruct (queue (settle this k P)); [congruence | simpl in Hqueue; lia]. }
            destruct (Hkeep Hq0 ltac:(discriminate)) as [Heq _].
            rewrite Hnone in Heq. simpl in Heq. lia. }
    split; [exact (proj1 H) | exact (proj1 (proj2 H))].
  - intros summary Hrun. unfold runBatch in Hrun.
    destruct (match onStartBatch this with
              | Some hook => hook (length workItems)
              | None => Fulfilled tt
              end); [|discriminate].
    set (P1 := prime (Nat.min (maxConcurrent this) (length workItems))
                 {| queue := workItems; inFlight := []; collected := [] |}) in Hrun.
    pose proof (PoolState_awaitPrimed this workItems (length workItems) (picks t) P1
                  (pool_primed this workItems)) as H2.
    destruct (awaitPrimed this (length workItems) (picks t) P1) as [P2 ks].
    pose proof (PoolState_settleLate this workItems (late t) ks P2 H2) as H3.
    exists (settleLate this (late t) ks P2). split; [exact H3|].
    destruct (onFinishBatch this) as [hook|].
    + destruct (hook _); [|discriminate]. inversion Hrun. reflexivity.
    + inversion Hrun. reflexivity.
Qed.

Lemma pool_stays_within_ceiling_witness :
  length (inFlight (settle (plainExecutor 2) 1
                      (prime 2 {| queue := threeItems; inFlight := []; collected := [] |})))
  <= 2 /\
  length (inFlight (prime 2 {| queue := threeItems; inFlight := []; collected := [] |}))
  = 2.
Proof.
  split.
  - apply (proj1 (pool_stays_within_ceiling inOrder (plainExecutor 2) threeItems)).
    apply pool_settled. apply (pool_primed (plainExecutor 2) threeItems).
  - apply (proj1 (pool_stays_within_ceiling inOrder (plainExecutor 2) threeItems)).
    + apply (pool_primed (plainExecutor 2) threeItems).
    + vm_compute. discriminate.
Defined.

End ParallelExecutor.

(* ===================================================================== *)
(** * PlanTypes.ts                                                       *)
(* ===================================================================== *)

Module PlanTypes.

Inductive StepStatus : Type := pending | running | done | error.

Global Instance StepStatus_eq_dec : EqDecision StepStatus.
Proof. solve_decision. Defined.

Record PlanStep : Type := {
  step_id : string;
  step_description : string;
  step_agentId : option string;
  step_parallelGroup : option string;
  step_dependsOn : option (list string);
  step_status : option StepStatus;
  step_errorMessage : option string
}.

(** A plan; [id] and [createdTs] come from the clock and are left out. *)
Record Plan : Type := {
  plan_rationale : option string;
  plan_steps : list PlanStep
}.

Definition set_id (v : string) (s : PlanStep) : PlanStep :=
  {| step_id := v; step_description := step_description s;
     step_agentId := step_agentId s; step_parallelGroup := step_parallelGroup s;
     step_dependsOn := step_dependsOn s; step_status := step_status s;
     step_errorMessage := step_errorMessage s |}.

Definition set_agentId (v : option string) (s : PlanStep) : PlanStep :=
  {| step_id := step_id s; step_description := step_description s;
     step_agentId := v; step_parallelGroup := step_parallelGroup s;
     step_dependsOn := step_dependsOn s; step_status := step_status s;
     step_errorMessage := step_errorMessage s |}.

Definition set_status (v : StepStatus) (s : PlanStep) : PlanStep :=
  {| step_id := step_id s; step_description := step_description s;
     step_agentId := step_agentId s; step_parallelGroup := step_parallelGroup s;
     step_dependsOn := step_dependsOn s; step_status := Some v;
     step_errorMessage := step_errorMessage s |}.

Definition set_errorMessage (v : string) (s : PlanStep) : PlanStep :=
  {| step_id := step_id s; step_description := step_description s;
     step_agentId := step_agentId s; step_parallelGroup := step_parallelGroup s;
     step_dependsOn := step_dependsOn s; step_status := step_status s;
     step_errorMessage := Some v |}.

End PlanTypes.

(* ===================================================================== *)
(** * The language-model client (declared in CrewOrchestrator.ts)        *)
(* ===================================================================== *)

Module Llm.

Inductive Role : Type := system | user | assistant.

Record LlmChatMessage : Type := {
  role : Role;
  content : string
}.

(** [chat(messages, opts)]: the text of the response ([response.text || ""]),
    or a rejection.  The client may keep state of its own in the world. *)
Definition LlmClient (W : Type) : Type := list LlmChatMessage -> M W string.

(** The two messages a failed attempt adds to the conversation. *)
Definition repairTurn (raw lastError : string) : list LlmChatMessage :=
  [ {| role := assistant; content := raw |};
    {| role := user; content := StructuredDecision.buildRepairInstruction lastError |} ].

End Llm.

(* ===================================================================== *)
(** * Planner.ts                                                         *)
(* ===================================================================== *)

Module Planner.

Import Js.
Import StructuredDecision.
Import PlanTypes.
Import Llm.

Record RawPlannedStep : Type := {
  raw_id : option string;
  raw_description : string;
  raw_agentId : option string;
  raw_parallelGroup : option string;
  raw_dependsOn : option (list string)
}.

Record PlanDecision : Type := {
  pd_rationale : string;
  pd_steps : list RawPlannedStep
}.

Definition PLAN_REQUIRED_KEYS : list string := ["rationale"; "steps"].

Record AgentSummary : Type := {
  sum_id : string;
  sum_role : string;
  sum_parallelGroup : option string
}.

Record BuildPlanPromptCtx : Type := {
  bpc_goal : string;
  bpc_crewName : option string;
  bpc_agentSummaries : list AgentSummary;
  bpc_recentNotes : option string;
  bpc_maxSteps : option Z
}.

Definition quoted (s : string) : string := dq +:+ s +:+ dq.

Definition planExampleJson : string :=
  join ""
    [ "{"; quoted "rationale"; ":";
      quoted "Decompose across data gathering then implementation."; ",";
      quoted "steps"; ":[{";
      quoted "id"; ":"; quoted "s1"; ",";
      quoted "description"; ":"; quoted "Collect API schema references"; ",";
      quoted "agentId"; ":"; quoted "researcher"; ",";
      quoted "parallelGroup"; ":"; quoted "research"; "},{";
      quoted "id"; ":"; quoted "s2"; ",";
      quoted "description"; ":"; quoted "Draft interface layer"; ",";
      quoted "agentId"; ":"; quoted "backend"; ",";
      quoted "dependsOn"; ":["; quoted "s1"; "],";
      quoted "parallelGroup"; ":"; quoted "workers"; "}]}" ].

Definition buildPlanPrompt (ctx : BuildPlanPromptCtx) : string :=
  let agentLines :=
    match bpc_agentSummaries ctx with
    | [] => "(no agents)"
    | l =>
        join newline
          (map (fun a =>
                  "- " +:+ sum_id a +:+ ": role='" +:+ sum_role a +:+ "'" +:+
                  match sum_parallelGroup a with
                  | Some g => if truthy g then " parallelGroup='" +:+ g +:+ "'" else ""
                  | None => ""
                  end) l)
    end in
  let cap := default 12%Z (bpc_maxSteps ctx) in
  join newline (filterBoolean
    [ "You are the planning module for a multi-agent crew.";
      "Produce a concise multi-step plan decomposing the goal.";
      "Return ONLY valid JSON with keys: rationale (string), steps (array).";
      "Hard cap steps: " +:+ pretty cap +:+ ". Omit trivial / redundant steps.";
      "";
      "Each step object keys:";
      "  - description (required, actionable verb phrase)";
      "  - agentId (optional: choose existing agent best suited, otherwise omit)";
      "  - parallelGroup (optional: hint grouping for parallel execution, e.g. 'workers' / 'research')";
      "  - dependsOn (optional array of prior step ids)";
      "";
      "Rules:";
      "  - Assign agentId only when clearly beneficial; leave undefined if any competent agent can perform.";
      "  - Use dependsOn only when strict ordering is required.";
      "  - Prefer maximal safe parallelism (independent steps should not depend).";
      "  - Provide rationale explaining decomposition strategy & parallel grouping rationale.";
      "";
      "Goal: " +:+ bpc_goal ctx;
      "Crew: " +:+ optOrElse (bpc_crewName ctx) "unknown";
      "Agents:";
      agentLines;
      match bpc_recentNotes ctx with
      | Some n => if truthy n then "Recent Notes: " +:+ n else ""
      | None => ""
      end;
      "";
      "Example JSON (do not copy blindly):";
      planExampleJson ]).

(** Truthiness of a parsed value. *)
Definition jsTruthy (v : JsonValue) : bool :=
  match v with
  | JNull => false
  | JBool b => b
  | JNum z => negb (Z.eqb z 0)
  | JStr s => truthy s
  | JArr _ | JObj _ => true
  end.

(** [String(d)] on a parsed value. *)
Fixpoint jsString (v : JsonValue) : string :=
  match v with
  | JNull => "null"
  | JBool true => "true"
  | JBool false => "false"
  | JNum z => pretty z
  | JStr s => s
  | JArr items =>
      join "," (map (fun x => match x with JNull => "" | _ => jsString x end) items)
  | JObj _ => "[object Object]"
  end.

(** [typeof v === "string" ? v.trim() : undefined]. *)
Definition trimmedString (v : option JsonValue) : option string :=
  match v with
  | Some (JStr s) => Some (trim s)
  | _ => None
  end.

(** The members of a step value; an array is an object without the members
    read here. *)
Definition stepMember (s : JsonValue) (key : string) : option JsonValue :=
  match s with
  | JObj members => lookupMember key members
  | _ => None
  end.

(** The body of [parsed.steps.forEach((s, idx) => ...)]. *)
Definition parseStep (idx : nat) (s : JsonValue) : Settled RawPlannedStep :=
  match s with
  | JObj _ | JArr _ =>
      match stepMember s "description" with
      | Some (JStr description) =>
          if truthy (trim description) then
            let dependsOn := stepMember s "dependsOn" in
            let deps : Settled (option (list string)) :=
              match dependsOn with
              | Some d =>
                  if jsTruthy d then
                    match d with
                    | JArr items => Fulfilled (Some (map jsString items))
                    | _ => Rejected ("Plan step " +:+ pretty idx +:+
                                     " dependsOn must be an array if present.")
                    end
                  else Fulfilled None
              | None => Fulfilled None
              end in
            match deps with
            | Rejected e => Rejected e
            | Fulfilled ds =>
                Fulfilled
                  {| raw_id :=
                       match trimmedString (stepMember s "id") with
                       | Some i => if truthy i then Some i else None
                       | None => None
                       end;
                     raw_description := trim description;
                     raw_agentId := trimmedString (stepMember s "agentId");
                     raw_parallelGroup := trimmedString (stepMember s "parallelGroup");
                     raw_dependsOn := ds |}
            end
          else Rejected ("Plan step " +:+ pretty idx +:+ " missing non-empty description.")
      | _ => Rejected ("Plan step " +:+ pretty idx +:+ " missing non-empty description.")
      end
  | _ => Rejected ("Plan step " +:+ pretty idx +:+ " invalid (not an object).")
  end.

Fixpoint parseSteps (idx : nat) (items : list JsonValue) : Settled (list RawPlannedStep) :=
  match items with
  | [] => Fulfilled []
  | s :: rest =>
      match parseStep idx s with
      | Rejected e => Rejected e
      | Fulfilled st =>
          match parseSteps (S idx) rest with
          | Rejected e => Rejected e
          | Fulfilled sts => Fulfilled (st :: sts)
          end
      end
  end.

Section Parsing.

Variable JSON_parse : string -> Settled JsonValue.

Definition parsePlanDecision (raw : string) : Settled PlanDecision :=
  let candidate := trim raw in
  let parsedOrThrow :=
    match JSON_parse candidate with
    | Fulfilled parsed => Fulfilled parsed
    | Rejected _ =>
        match extractFirstJsonObject candidate with
        | None => Rejected "Plan parse error: no JSON object found."
        | Some extracted => JSON_parse extracted
        end
    end in
  match parsedOrThrow with
  | Rejected e => Rejected e
  | Fulfilled parsed =>
      match requireKeys "Plan" parsed PLAN_REQUIRED_KEYS with
      | Rejected e => Rejected e
      | Fulfilled _ =>
          match getMember parsed "rationale", getMember parsed "steps" with
          | Fulfilled (Some (JStr rationaleText)), Fulfilled stepsValue =>
              if truthy (trim rationaleText) then
                match stepsValue with
                | Some (JArr items) =>
                    match parseSteps 0 items with
                    | Rejected e => Rejected e
                    | Fulfilled steps =>
                        Fulfilled {| pd_rationale := trim rationaleText; pd_steps := steps |}
                    end
                | _ => Rejected "Plan validation error: 'steps' must be an array."
                end
              else Rejected "Plan validation error: 'rationale' must be non-empty string."
          | Rejected e, _ => Rejected e
          | _, Rejected e => Rejected e
          | Fulfilled _, Fulfilled _ =>
              Rejected "Plan validation error: 'rationale' must be non-empty string."
          end
      end
  end.

End Parsing.

(** *** Normalisation of the step ids *)

Definition sequentialId (idx : nat) : string := "s" +:+ pretty (idx + 1).

(** [decision.steps.map((s, idx) => ({ id: s.id ?? `s${idx + 1}`, ... }))]. *)
Definition normalizeStep (idx : nat) (s : RawPlannedStep) : PlanStep :=
  {| step_id := default (sequentialId idx) (raw_id s);
     step_description := raw_description s;
     step_agentId := raw_agentId s;
     step_parallelGroup := raw_parallelGroup s;
     step_dependsOn := Some (default [] (raw_dependsOn s));
     step_status := Some pending;
     step_errorMessage := None |}.

(** The [forEach] that enforces uniqueness with the set [seen]. *)
Fixpoint enforceUnique (idx : nat) (seen : gset string) (steps : list PlanStep)
  : list PlanStep :=
  match steps with
  | [] => []
  | st :: rest =>
      let st' := if bool_decide (step_id st ∈ seen)
                 then set_id (sequentialId idx) st
                 else st in
      st' :: enforceUnique (S idx) ({[step_id st']} ∪ seen) rest
  end.

Definition normalizeSteps (steps : list RawPlannedStep) : list PlanStep :=
  enforceUnique 0 ∅ (imap normalizeStep steps).

Record PlannerInvokeOptions (W : Type) : Type := {
  pio_goal : string;
  pio_recentNotes : option string;
  pio_crewName : option string;
  pio_agentSummaries : list AgentSummary;
  pio_llm : LlmClient W;
  pio_maxAttempts : option Z;
  pio_maxSteps : option Z;
  pio_onAttempt : option (string -> option string -> nat -> Settled unit)
}.
Arguments pio_goal {W} _.
Arguments pio_recentNotes {W} _.
Arguments pio_crewName {W} _.
Arguments pio_agentSummaries {W} _.
Arguments pio_llm {W} _.
Arguments pio_maxAttempts {W} _.
Arguments pio_maxSteps {W} _.
Arguments pio_onAttempt {W} _.

Section Invoke.

Variable JSON_parse : string -> Settled JsonValue.
Context {W : Type}.
Variable opts : PlannerInvokeOptions W.

Definition maxAttempts : Z := default 3%Z (pio_maxAttempts opts).

Definition onAttempt (raw : string) (error : option string) (attempt : nat) : M W unit :=
  callHook (option_map (fun h => h raw error attempt) (pio_onAttempt opts)).

(** The attempt loop; [remaining] counts the iterations left, [attempt] is the
    loop variable, and [decision] and [lastError] are the variables of that
    name.  [decision] is assigned before the success notification is awaited,
    so it keeps its value when that hook throws and the [catch] runs. *)
Fixpoint attemptLoop (remaining attempt : nat) (messages : list LlmChatMessage)
  (lastError : option string) (decision : option PlanDecision)
  : M W (option PlanDecision * option string) :=
  match remaining with
  | 0 => ret (decision, lastError)
  | S remaining' =>
      (let* raw := pio_llm opts messages in
       let catch (assigned : option PlanDecision) (err : string) :=
         let* _ := onAttempt raw (Some err) attempt in
         let messages' :=
           if Z.ltb (Z.of_nat attempt) maxAttempts
           then messages ++ repairTurn raw err
           else messages in
         attemptLoop remaining' (S attempt) messages' (Some err) assigned in
       match parsePlanDecision JSON_parse raw with
       | Rejected err => catch decision err
       | Fulfilled parsed =>
           tryCatch
             (let* _ := onAttempt raw None attempt in
              ret (Some parsed, lastError))
             (catch (Some parsed))
       end)%monad
  end.

Definition invokePlanner : M W Plan :=
  let basePrompt :=
    buildPlanPrompt
      {| bpc_goal := pio_goal opts; bpc_crewName := pio_crewName opts;
         bpc_agentSummaries := pio_agentSummaries opts;
         bpc_recentNotes := pio_recentNotes opts; bpc_maxSteps := pio_maxSteps opts |} in
  let messages :=
    [ {| role := system;
         content := "You are a precise multi-agent planner. Output only JSON." |};
      {| role := user; content := basePrompt |} ] in
  (let* r := attemptLoop (Z.to_nat maxAttempts) 1 messages None None in
   match r with
   | (None, lastError) =>
       throw ("Planner: failed to obtain valid plan after " +:+ pretty maxAttempts
              +:+ " attempts. Last error: " +:+ default "undefined" lastError)
   | (Some decision, _) =>
       ret {| plan_rationale := Some (pd_rationale decision);
              plan_steps := normalizeSteps (pd_steps decision) |}
   end)%monad.

End Invoke.

(** ** The planner returns *)

Section InvokeProperties.

Variable JSON_parse : string -> Settled JsonValue.
Context {W : Type}.
Variable opts : PlannerInvokeOptions W.

Lemma attemptLoop_unfold (remaining attempt : nat) (messages : list LlmChatMessage)
  (lastError : option string) (decision : option PlanDecision) :
  attemptLoop JSON_parse opts (S remaining) attempt messages lastError decision =
  bind (pio_llm opts messages)
    (fun raw =>
       let catch (assigned : option PlanDecision) (err : string) :=
         bind (onAttempt opts raw (Some err) attempt)
           (fun _ =>
              attemptLoop JSON_parse opts remaining (S attempt)
                (if Z.ltb (Z.of_nat attempt) (maxAttempts opts)
                 then messages ++ repairTurn raw err else messages)
                (Some err) assigned) in
       match parsePlanDecision JSON_parse raw with
       | Rejected err => catch decision err
       | Fulfilled parsed =>
           tryCatch
             (bind (onAttempt opts raw None attempt)
                (fun _ => ret (Some parsed, lastError)))
             (catch (Some parsed))
       end).
Proof. reflexivity. Qed.

Section Settles.

Hypothesis llm_settles : forall messages, settles (pio_llm opts messages).

Lemma attemptLoop_settles (remaining : nat) :
  forall attempt messages lastError decision,
    spec false (fun _ => True)
      (attemptLoop JSON_parse opts remaining attempt messages lastError decision)
      (fun _ _ => True).
Proof.
  induction remaining as [|remaining IH]; intros attempt messages lastError decision.
  - apply spec_ret. intros; exact I.
  - rewrite attemptLoop_unfold.
    apply spec_bind with (mid := fun _ _ => True); [apply settles_spec, llm_settles|].
    intros raw. cbv zeta.
    assert (Hcatch : forall assigned err,
               spec false (fun _ => True)
                 (bind (onAttempt opts raw (Some err) attempt)
                    (fun _ =>
                       attemptLoop JSON_parse opts remaining (S attempt)
                         (if Z.ltb (Z.of_nat attempt) (maxAttempts opts)
                          then messages ++ repairTurn raw err else messages)
                         (Some err) assigned))
                 (fun _ _ => True)).
    { intros assigned err.
      apply spec_bind with (mid := fun _ _ => True).
      - unfold onAttempt. apply spec_callHook. reflexivity.
      - intros _. apply IH. }
    destruct (parsePlanDecision JSON_parse raw) as [parsed|err]; [|apply Hcatch].
    apply spec_tryCatch; [|intros e; apply Hcatch].
    apply spec_bind with (mid := fun _ _ => True).
    + unfold onAttempt. apply spec_callHook. reflexivity.
    + intros _. apply spec_ret. intros; exact I.
Qed.

Lemma invokePlanner_settles : settles (invokePlanner JSON_parse opts).
Proof.
  apply (spec_settles false _ (fun _ _ => True)). unfold invokePlanner.
  apply spec_bind with (mid := fun _ _ => True); [apply attemptLoop_settles|].
  intros [[decision|] lastError].
  - apply spec_ret. intros; exact I.
  - apply spec_throw.
Qed.

End Settles.

Section Preserves.

Variable I : W -> Prop.
Hypothesis llm_preserves : forall messages, preserves I (pio_llm opts messages).

Lemma attemptLoop_preserves (remaining : nat) :
  forall attempt messages lastError decision,
    preserves I (attemptLoop JSON_parse opts remaining attempt messages lastError decision).
Proof.
  induction remaining as [|remaining IH]; intros attempt messages lastError decision.
  - apply preserves_ret.
  - rewrite attemptLoop_unfold.
    apply preserves_bind; [apply llm_preserves|].
    intros raw. cbv zeta.
    assert (Hcatch : forall assigned err,
               preserves I
                 (bind (onAttempt opts raw (Some err) attempt)
                    (fun _ =>
                       attemptLoop JSON_parse opts remaining (S attempt)
                         (if Z.ltb (Z.of_nat attempt) (maxAttempts opts)
                          then messages ++ repairTurn raw err else messages)
                         (Some err) assigned))).
    { intros assigned err.
      apply preserves_bind; [apply preserves_callHook | intros _; apply IH]. }
    destruct (parsePlanDecision JSON_parse raw) as [parsed|err]; [|apply Hcatch].
    apply preserves_tryCatch; [|intros e; apply Hcatch].
    apply preserves_bind; [apply preserves_callHook | intros _; apply preserves_ret].
Qed.

Lemma invokePlanner_preserves : preserves I (invokePlanner JSON_parse opts).
Proof.
  unfold invokePlanner.
  apply preserves_bind; [apply attemptLoop_preserves|].
  intros [[decision|] lastError]; [apply preserves_ret | apply preserves_throw].
Qed.

End Preserves.

End InvokeProperties.

(** ** Properties of the id normalisation *)

Definition rawStep (id : option string) (description : string) : RawPlannedStep :=
  {| raw_id := id; raw_description := description; raw_agentId := None;
     raw_parallelGroup := None; raw_dependsOn := None |}.

Definition stepJson (id description : string) : JsonValue :=
  JObj [("id", JStr id); ("description", JStr description)].

Definition planJson (steps : list JsonValue) : JsonValue :=
  JObj [("rationale", JStr "two steps"); ("steps", JArr steps)].

(** The example of the specification: of two steps that both ask for ["s1"],
    the first keeps it and the second gets its positional id. *)
Example normalizeSteps_s1_s1 :
  map step_id (normalizeSteps [rawStep (Some "s1") "a"; rawStep (Some "s1") "b"])
  = ["s1"; "s2"].
Proof. vm_compute. reflexivity. Qed.

(** Steps without an id are numbered by position. *)
Example normalizeSteps_missing_ids :
  map step_id (normalizeSteps [rawStep None "a"; rawStep None "b"; rawStep None "c"])
  = ["s1"; "s2"; "s3"].
Proof. vm_compute. reflexivity. Qed.

Lemma normalizeSteps_length (steps : list RawPlannedStep) :
  length (normalizeSteps steps) = length steps.
Proof.
  unfold normalizeSteps.
  assert (H : forall l idx seen, length (enforceUnique idx seen l) = length l).
  { induction l as [|x l IH]; intros idx seen; simpl; [reflexivity | now rewrite IH]. }
  now rewrite H, length_imap.
Qed.

(** C1 (the code at the failing input).  A plan whose two steps both carry the
    id ["s2"] passes the parser; the second step collides, is given its
    positional id, which is ["s2"] again, and the fallback is not checked
    against the ids already seen: the returned plan holds the id twice. *)
Theorem normalizeSteps_collision_survives :
  let decision := {| pd_rationale := "two steps";
                     pd_steps := [rawStep (Some "s2") "a"; rawStep (Some "s2") "b"] |} in
  parsePlanDecision (fun _ => Fulfilled (planJson [stepJson "s2" "a"; stepJson "s2" "b"]))
    "model output" = Fulfilled decision /\
  map step_id (normalizeSteps (pd_steps decision)) = ["s2"; "s2"] /\
  ~ NoDup (map step_id (normalizeSteps (pd_steps decision))).
Proof.
  cbv zeta. split; [vm_compute; reflexivity|].
  assert (H : map step_id
                (normalizeSteps [rawStep (Some "s2") "a"; rawStep (Some "s2") "b"])
              = ["s2"; "s2"]) by (vm_compute; reflexivity).
  split; [exact H|]. simpl pd_steps. rewrite H. intros Hnd.
  apply NoDup_cons in Hnd as [Hnot _]. apply Hnot. left.
Qed.

(** ** What the normalisation keeps, and when the ids come out distinct *)

Lemma sequentialId_inj (i j : nat) : sequentialId i = sequentialId j -> i = j.
Proof.
  unfold sequentialId. intros H.
  change (String "s"%char (pretty (i + 1)) = String "s"%char (pretty (j + 1))) in H.
  inversion H as [H1]. apply (inj pretty) in H1. lia.
Qed.

Lemma enforceUnique_lookup (steps : list PlanStep) :
  forall (idx : nat) (seen : gset string) (i : nat) (st0 : PlanStep),
    steps !! i = Some st0 ->
    exists st,
      enforceUnique idx seen steps !! i = Some st /\
      (st = st0 \/ st = set_id (sequentialId (idx + i)) st0).
Proof.
  induction steps as [|x steps IH]; intros idx seen i st0 Hi; [discriminate|].
  destruct i as [|i]; simpl in *.
  - inversion Hi; subst x. eexists. split; [reflexivity|].
    rewrite Nat.add_0_r. destruct (bool_decide _); [now right | now left].
  - edestruct (IH (S idx)) as (st & Hst & Hor); [exact Hi|].
    exists st. split; [exact Hst|].
    replace (idx + S i) with (S idx + i) by lia. exact Hor.
Qed.

Lemma enforceUnique_distinct (steps : list PlanStep) :
  forall (idx : nat) (seen : gset string),
    NoDup (map step_id steps) ->
    (forall st, st ∈ steps -> step_id st ∉ seen) ->
    enforceUnique idx seen steps = steps.
Proof.
  induction steps as [|x steps IH]; intros idx seen Hnd Hseen; [reflexivity|].
  simpl in *. apply NoDup_cons in Hnd as [Hx Hnd].
  rewrite bool_decide_eq_false_2 by (apply Hseen; left). f_equal.
  apply IH; [exact Hnd|].
  intros st Hst. apply not_elem_of_union. split.
  - intros Heq. apply elem_of_singleton in Heq. apply Hx. rewrite <- Heq.
    apply list_elem_of_fmap. now exists st.
  - apply Hseen. now right.
Qed.

(** An id that is not the positional id of any position. *)
Definition notPositional (id : string) : Prop := forall k, id <> sequentialId k.

Lemma enforceUnique_NoDup (steps : list PlanStep) :
  forall (idx : nat) (seen : gset string),
    (forall i st, steps !! i = Some st ->
                  step_id st = sequentialId (idx + i) \/ notPositional (step_id st)) ->
    (forall x, x ∈ seen -> (exists k, k < idx /\ x = sequentialId k) \/ notPositional x) ->
    NoDup (map step_id (enforceUnique idx seen steps)) /\
    (forall x, x ∈ map step_id (enforceUnique idx seen steps) -> x ∉ seen).
Proof.
  induction steps as [|st steps IH]; intros idx seen Hsteps Hseen.
  - simpl. split; [constructor | intros x Hx; inversion Hx].
  - simpl.
    set (st' := if bool_decide (step_id st ∈ seen) then set_id (sequentialId idx) st else st).
    assert (Hhead : step_id st = sequentialId idx \/ notPositional (step_id st)).
    { specialize (Hsteps 0 st eq_refl). now rewrite Nat.add_0_r in Hsteps. }
    assert (Hfresh : step_id st' ∉ seen).
    { unfold st'. case_bool_decide as Hin; [|exact Hin].
      simpl. intros Hs. destruct (Hseen _ Hs) as [(k & Hk & Heq)|Hnp].
      - apply sequentialId_inj in Heq. lia.
      - now apply (Hnp idx). }
    assert (Hkind : step_id st' = sequentialId idx \/ notPositional (step_id st')).
    { unfold st'. case_bool_decide; [now left | exact Hhead]. }
    destruct (IH (S idx) ({[step_id st']} ∪ seen)) as [Hnd Hout].
    + intros i x Hi. specialize (Hsteps (S i) x Hi).
      now replace (idx + S i) with (S idx + i) in Hsteps by lia.
    + intros x Hx. apply elem_of_union in Hx as [Hx|Hx].
      * apply elem_of_singleton in Hx. subst x.
        destruct Hkind as [Hk|Hk]; [left; exists idx; split; [lia | exact Hk] | now right].
      * destruct (Hseen x Hx) as [(k & Hk & Heq)|Hnp]; [|now right].
        left. exists k. split; [lia | exact Heq].
    + split.
      * apply NoDup_cons. split; [|exact Hnd].
        intros Hin. apply (Hout _ Hin). apply elem_of_union. left. now apply elem_of_singleton.
      * intros x Hx. apply elem_of_cons in Hx as [->|Hx]; [exact Hfresh|].
        intros Hs. apply (Hout x Hx). apply elem_of_union. now right.
Qed.

(** X16.  The normalisation returns one pending step per planned
    step, in order, with the description, agent, parallel group and
    dependencies of the planned step (an absent dependency list becomes the
    empty list) and no error message; the id of the step at position [i] is
    the planned id (the positional id ["s<i+1>"] when none was planned) or
    that positional id.  When the ids after defaulting are pairwise distinct
    nothing is renamed. *)
Theorem normalizeSteps_keeps_the_steps (steps : list RawPlannedStep) :
  length (normalizeSteps steps) = length steps /\
  (forall i raw,
     steps !! i = Some raw ->
     exists st,
       normalizeSteps steps !! i = Some st /\
       step_description st = raw_description raw /\
       step_agentId st = raw_agentId raw /\
       step_parallelGroup st = raw_parallelGroup raw /\
       step_dependsOn st = Some (default [] (raw_dependsOn raw)) /\
       step_status st = Some pending /\
       step_errorMessage st = None /\
       (step_id st = default (sequentialId i) (raw_id raw) \/
        step_id st = sequentialId i)) /\
  (NoDup (map step_id (imap normalizeStep steps)) ->
   normalizeSteps steps = imap normalizeStep steps).
Proof.
  split; [apply normalizeSteps_length|]. split.
  - intros i raw Hi. unfold normalizeSteps.
    assert (H0 : imap normalizeStep steps !! i = Some (normalizeStep i raw))
      by (now rewrite list_lookup_imap, Hi).
    destruct (enforceUnique_lookup _ 0 ∅ i _ H0) as (st & Hst & Hor).
    exists st. split; [exact Hst|].
    destruct Hor as [->| ->]; simpl; repeat split; try reflexivity; [now left | now right].
  - intros Hnd. unfold normalizeSteps. apply enforceUnique_distinct; [exact Hnd|].
    intros st _. apply not_elem_of_empty.
Qed.

Lemma normalizeSteps_keeps_the_steps_witness :
  normalizeSteps [rawStep (Some "fetch") "a"; rawStep None "b"]
  = imap normalizeStep [rawStep (Some "fetch") "a"; rawStep None "b"].
Proof.
  apply (proj2 (proj2 (normalizeSteps_keeps_the_steps
                         [rawStep (Some "fetch") "a"; rawStep None "b"]))).
  apply NoDup_ListNoDup. vm_compute. repeat constructor; simpl; intuition discriminate.
Defined.

Lemma imap_normalizeStep_ids (steps : list RawPlannedStep) :
  forall (offset i : nat) (st : PlanStep),
    imap (fun j => normalizeStep (offset + j)) steps !! i = Some st ->
    exists raw, steps !! i = Some raw /\
                step_id st = default (sequentialId (offset + i)) (raw_id raw).
Proof.
  intros offset i st H. rewrite list_lookup_imap in H.
  destruct (steps !! i) as [raw|]; [|discriminate].
  simpl in H. inversion H; subst st. now exists raw.
Qed.

(** X17.  The ids of the returned plan are pairwise distinct whenever
    the model does not itself use an id of the positional form ["s<k>"]
    (duplicates among its own ids are then renamed apart); in particular when
    it gives no ids at all, in which case the ids are ["s1"], ..., ["s<n>"]. *)
Theorem normalizeSteps_ids_distinct (steps : list RawPlannedStep) :
  ((forall raw id, raw ∈ steps -> raw_id raw = Some id -> notPositional id) ->
   NoDup (map step_id (normalizeSteps steps))) /\
  ((forall raw, raw ∈ steps -> raw_id raw = None) ->
   map step_id (normalizeSteps steps) = map sequentialId (seq 0 (length steps))).
Proof.
  split.
  - intros Hids. unfold normalizeSteps.
    apply (enforceUnique_NoDup (imap normalizeStep steps) 0 ∅).
    + intros i st Hi.
      destruct (imap_normalizeStep_ids steps 0 i st Hi) as (raw & Hraw & Hid).
      rewrite Hid. destruct (raw_id raw) as [id|] eqn:Eid; simpl.
      * right. apply (Hids raw id); [|exact Eid].
        now apply list_elem_of_lookup_2 in Hraw.
      * now left.
    + intros x Hx. now apply not_elem_of_empty in Hx.
  - intros Hnone.
    assert (Hids : map step_id (imap normalizeStep steps)
                   = map sequentialId (seq 0 (length steps))).
    { apply list_eq. intros i.
      change (map step_id (imap normalizeStep steps))
        with (step_id <$> imap normalizeStep steps).
      change (map sequentialId (seq 0 (length steps)))
        with (sequentialId <$> seq 0 (length steps)).
      rewrite !list_lookup_fmap, list_lookup_imap.
      destruct (steps !! i) as [raw|] eqn:Ei; simpl.
      - rewrite lookup_seq_lt by (now apply lookup_lt_Some in Ei). simpl.
        unfold normalizeStep. simpl.
        rewrite (Hnone raw) by (now apply list_elem_of_lookup_2 in Ei). reflexivity.
      - rewrite lookup_seq_ge by (now apply lookup_ge_None in Ei). reflexivity. }
    unfold normalizeSteps. rewrite enforceUnique_distinct; [exact Hids| |].
    + rewrite Hids. apply NoDup_fmap_2; [|apply NoDup_seq].
      intros i j. apply sequentialId_inj.
    + intros st _. apply not_elem_of_empty.
Qed.

Lemma normalizeSteps_ids_distinct_witness :
  map step_id (normalizeSteps [rawStep None "a"; rawStep None "b"]) = ["s1"; "s2"].
Proof.
  apply (proj2 (normalizeSteps_ids_distinct [rawStep None "a"; rawStep None "b"])).
  intros raw Hraw. apply elem_of_cons in Hraw as [->|Hraw]; [reflexivity|].
  apply elem_of_cons in Hraw as [->|Hraw]; [reflexivity | inversion Hraw].
Defined.

(** ** What an accepted plan decision looks like, and the attempt ceiling *)

(** A trimmed text: [trim] leaves it alone. *)
Definition trimmed (s : string) : Prop := trim s = s.

Definition wellFormedStep (st : RawPlannedStep) : Prop :=
  raw_description st <> EmptyString /\
  trimmed (raw_description st) /\
  (forall id, raw_id st = Some id -> id <> EmptyString /\ trimmed id) /\
  (forall a, raw_agentId st = Some a -> trimmed a) /\
  (forall g, raw_parallelGroup st = Some g -> trimmed g).

Lemma trimmedString_trimmed (v : option JsonValue) (s : string) :
  trimmedString v = Some s -> trimmed s.
Proof.
  destruct v as [[| | |x| |]|]; try discriminate.
  simpl. intros H. inversion H. apply trim_idempotent.
Qed.

Lemma parseStep_wellFormed (idx : nat) (s : JsonValue) (st : RawPlannedStep) :
  parseStep idx s = Fulfilled st -> wellFormedStep st.
Proof.
  unfold parseStep. intros H.
  assert (Hbody :
            match stepMember s "description" with
            | Some (JStr description) =>
                if truthy (trim description) then
                  match
                    match stepMember s "dependsOn" with
                    | Some d =>
                        if jsTruthy d then
                          match d with
                          | JArr items => Fulfilled (Some (map jsString items))
                          | _ => Rejected ("Plan step " +:+ pretty idx +:+
                                           " dependsOn must be an array if present.")
                          end
                        else Fulfilled None
                    | None => Fulfilled None
                    end
                  with
                  | Rejected e => Rejected e
                  | Fulfilled ds =>
                      Fulfilled
                        {| raw_id :=
                             match trimmedString (stepMember s "id") with
                             | Some i => if truthy i then Some i else None
                             | None => None
                             end;
                           raw_description := trim description;
                           raw_agentId := trimmedString (stepMember s "agentId");
                           raw_parallelGroup := trimmedString (stepMember s "parallelGroup");
                           raw_dependsOn := ds |}
                  end
                else Rejected ("Plan step " +:+ pretty idx +:+ " missing non-empty description.")
            | _ => Rejected ("Plan step " +:+ pretty idx +:+ " missing non-empty description.")
            end = Fulfilled st).
  { destruct s; try discriminate; exact H. }
  clear H.
  destruct (stepMember s "description") as [[| | |description| |]|]; try discriminate.
  destruct (truthy (trim description)) eqn:Ed; [|discriminate].
  match type of Hbody with
  | match ?deps with Fulfilled _ => _ | Rejected _ => _ end = _ =>
      destruct deps as [ds|e]; [|discriminate]
  end.
  inversion Hbody; subst st. clear Hbody.
  unfold wellFormedStep. simpl. split; [|split; [|split; [|split]]].
  - intros Hz. rewrite Hz in Ed. discriminate.
  - apply trim_idempotent.
  - intros id Hid.
    destruct (trimmedString (stepMember s "id")) as [i|] eqn:Ei; [|discriminate].
    destruct (truthy i) eqn:Et; [|discriminate]. inversion Hid; subst id.
    split; [intros Hz; rewrite Hz in Et; discriminate|].
    now apply (trimmedString_trimmed _ _ Ei).
  - intros a Ha. now apply (trimmedString_trimmed _ _ Ha).
  - intros g Hg. now apply (trimmedString_trimmed _ _ Hg).
Qed.

Lemma parseSteps_wellFormed (items : list JsonValue) :
  forall (idx : nat) (steps : list RawPlannedStep),
    parseSteps idx items = Fulfilled steps ->
    length steps = length items /\ Forall wellFormedStep steps.
Proof.
  induction items as [|s items IH]; intros idx steps H.
  - inversion H. split; [reflexivity | constructor].
  - simpl in H. destruct (parseStep idx s) as [st|e] eqn:Es; [|discriminate].
    destruct (parseSteps (S idx) items) as [sts|e] eqn:Er; [|discriminate].
    inversion H; subst steps. destruct (IH _ _ Er) as [Hlen Hall].
    split; [simpl; now rewrite Hlen|].
    constructor; [now apply (parseStep_wellFormed idx s) | exact Hall].
Qed.



(** An empty list of steps is a plan, and nothing holds the number of steps
    to the cap that the prompt announces. *)
Example parsePlanDecision_accepts_no_steps :
  parsePlanDecision (fun _ => Fulfilled (planJson [])) "model output"
  = Fulfilled {| pd_rationale := "two steps"; pd_steps := [] |}.
Proof. vm_compute. reflexivity. Qed.

(** X19.  The planner takes its attempt ceiling as given ([??]
    keeps a zero): with a ceiling of zero or less it asks the model nothing,
    leaves the world as it is and throws the failure with [Last error:
    undefined]; an absent ceiling stands for three attempts. *)
Theorem invokePlanner_without_attempts {W : Type}
  (JSON_parse : string -> Settled JsonValue) (opts : PlannerInvokeOptions W) (n : Z)
  (w : W) :
  (pio_maxAttempts opts = None -> maxAttempts opts = 3%Z) /\
  (pio_maxAttempts opts = Some n -> (n <= 0)%Z ->
   invokePlanner JSON_parse opts w
   = Some (Rejected ("Planner: failed to obtain valid plan after " +:+ pretty n
                     +:+ " attempts. Last error: undefined"), w)).
Proof.
  split.
  - intros H. unfold maxAttempts. now rewrite H.
  - intros H Hn. unfold invokePlanner, maxAttempts. rewrite H. simpl default.
    replace (Z.to_nat n) with 0 by lia. reflexivity.
Qed.

Definition neverAsked : PlannerInvokeOptions (list string) :=
  {| pio_goal := "g"; pio_recentNotes := None; pio_crewName := None;
     pio_agentSummaries := [];
     pio_llm := fun _ log => Some (Fulfilled "{}", log ++ ["asked"]);
     pio_maxAttempts := Some 0%Z; pio_maxSteps := None; pio_onAttempt := None |}.

Lemma invokePlanner_without_attempts_witness :
  invokePlanner (fun _ => Rejected "unused") neverAsked []
  = Some (Rejected "Planner: failed to obtain valid plan after 0 attempts. Last error: undefined",
          []).
Proof.
  apply (proj2 (invokePlanner_without_attempts (fun _ => Rejected "unused") neverAsked 0 [])
           eq_refl ltac:(lia)).
Defined.

End Planner.

(* ===================================================================== *)
(** * ToolInvocation.ts                                                  *)
(* ===================================================================== *)

Module ToolInvocation.

Import Js.

Section Pipeline.

(** What a tool receives and returns is opaque to the pipeline. *)
Variables Input Output : Type.

(** [JSON.stringify] belongs to the runtime: it fulfils with the text, or
    with [undefined] for a value without a JSON form, or throws. *)
Variable JSON_stringify : option Output -> Settled (option string).

(** The object [{ placeholder: true, echoInput: input }]. *)
Variable placeholderEcho : Input -> Output.

(** The records, without the clock readings. *)
Record ToolCallRequest : Type := {
  req_id : string;
  req_toolId : string;
  req_agentId : string;
  req_phase : Phase;
  req_input : Input
}.

Record ToolExecutionResult : Type := {
  exe_requestId : string;
  exe_toolId : string;
  exe_agentId : string;
  exe_phase : Phase;
  exe_success : bool;
  exe_output : option Output;
  exe_errorType : option string;
  exe_errorMessage : option string
}.

Record StructuredObservation : Type := {
  obs_requestId : string;
  obs_toolId : string;
  obs_agentId : string;
  obs_phase : Phase;
  obs_success : bool;
  obs_summary : string;
  obs_data : option string;
  obs_errorType : option string;
  obs_errorMessage : option string
}.

(** [NoopToolExecutor.execute]. *)
Definition execute (request : ToolCallRequest) : ToolExecutionResult :=
  {| exe_requestId := req_id request;
     exe_toolId := req_toolId request;
     exe_agentId := req_agentId request;
     exe_phase := req_phase request;
     exe_success := true;
     exe_output := Some (placeholderEcho (req_input request));
     exe_errorType := None;
     exe_errorMessage := None |}.

(** [str.slice(0, n)] for an integer [n]: a negative [n] counts from the
    end. *)
Definition slice0 (n : Z) (str : string) : string :=
  if Z.leb 0 n then substring0 (Z.to_nat n) str
  else substring0 (String.length str - Z.to_nat (- n)) str.

Definition truncationMark : string := "...[truncated]".

(** [BasicToolObservationBuilder]: its one field is [maxJsonLength]. *)
Definition truncate (maxJsonLength : Z) (str : option string) : option string :=
  match str with
  | None => None
  | Some s =>
      if truthy s then
        if Z.leb (Z.of_nat (String.length s)) maxJsonLength then Some s
        else Some (slice0 maxJsonLength s +:+ truncationMark)
      else Some s
  end.

Definition safeStringify (obj : option Output) : option string :=
  match JSON_stringify obj with
  | Fulfilled text => text
  | Rejected _ => Some "[unserializable]"
  end.

Definition build (maxJsonLength : Z) (result : ToolExecutionResult)
  : StructuredObservation :=
  if exe_success result then
    {| obs_requestId := exe_requestId result;
       obs_toolId := exe_toolId result;
       obs_agentId := exe_agentId result;
       obs_phase := exe_phase result;
       obs_success := true;
       obs_summary := "Tool " +:+ exe_toolId result +:+ " success";
       obs_data := truncate maxJsonLength (safeStringify (exe_output result));
       obs_errorType := None;
       obs_errorMessage := None |}
  else
    {| obs_requestId := exe_requestId result;
       obs_toolId := exe_toolId result;
       obs_agentId := exe_agentId result;
       obs_phase := exe_phase result;
       obs_success := false;
       obs_summary := "Tool " +:+ exe_toolId result +:+ " failed ("
                      +:+ optOrElse (exe_errorType result) "error" +:+ ")";
       obs_data := None;
       obs_errorType := exe_errorType result;
       obs_errorMessage := truncate maxJsonLength (exe_errorMessage result) |}.

(** ** Properties of the observation builder *)

Lemma truncate_cases (maxJsonLength : Z) (s : string) :
  (0 <= maxJsonLength)%Z ->
  (String.length s <= Z.to_nat maxJsonLength /\ truncate maxJsonLength (Some s) = Some s) \/
  (Z.to_nat maxJsonLength < String.length s /\
   truncate maxJsonLength (Some s)
   = Some (substring0 (Z.to_nat maxJsonLength) s +:+ truncationMark)).
Proof.
  intros Hmax. unfold truncate.
  destruct (Z.leb_spec (Z.of_nat (String.length s)) maxJsonLength) as [Hle|Hgt].
  - left. split; [lia|]. now destruct (truthy s).
  - right. split; [lia|].
    destruct s as [|c s]; [simpl in Hgt; lia|]. simpl truthy. cbv iota.
    unfold slice0. destruct (Z.leb_spec 0 maxJsonLength); [reflexivity | lia].
Qed.

Lemma truncate_length (maxJsonLength : Z) (str : option string) (t : string) :
  (0 <= maxJsonLength)%Z ->
  truncate maxJsonLength str = Some t ->
  String.length t <= Z.to_nat maxJsonLength + 14.
Proof.
  intros Hmax Ht. destruct str as [s|]; [|discriminate].
  destruct (truncate_cases maxJsonLength s Hmax) as [[Hs Heq]|[Hs Heq]];
    rewrite Heq in Ht; inversion Ht; subst t.
  - lia.
  - rewrite length_append, length_substring0. simpl. lia.
Qed.

(** X20.  With a non-negative limit, [truncate] leaves a text within
    the limit (and an absent text) as it is, and replaces a longer one by its
    first [maxJsonLength] characters followed by the 14-character mark
    ["...[truncated]"]: the result is never longer than the limit plus 14,
    and truncating it again changes nothing. *)
Theorem truncate_keeps_or_marks (maxJsonLength : Z) (s : string) :
  (0 <= maxJsonLength)%Z ->
  truncate maxJsonLength None = None /\
  (String.length s <= Z.to_nat maxJsonLength -> truncate maxJsonLength (Some s) = Some s) /\
  (Z.to_nat maxJsonLength < String.length s ->
   truncate maxJsonLength (Some s)
   = Some (substring0 (Z.to_nat maxJsonLength) s +:+ truncationMark)) /\
  (forall t, truncate maxJsonLength (Some s) = Some t ->
             String.length t <= Z.to_nat maxJsonLength + 14) /\
  truncate maxJsonLength (truncate maxJsonLength (Some s)) = truncate maxJsonLength (Some s).
Proof.
  intros Hmax. split; [reflexivity|].
  destruct (truncate_cases maxJsonLength s Hmax) as [[Hle Heq]|[Hlt Heq]].
  - split; [intros _; exact Heq|]. split; [intros Hs; lia|].
    split; [|now rewrite Heq].
    intros t Ht. rewrite Heq in Ht. inversion Ht; subst t. lia.
  - split; [intros Hs; lia|]. split; [intros _; exact Heq|]. split.
    + intros t Ht. now apply (truncate_length maxJsonLength (Some s) t Hmax Ht).
    + rewrite Heq.
      set (head := substring0 (Z.to_nat maxJsonLength) s).
      assert (Hhead : String.length head = Z.to_nat maxJsonLength).
      { unfold head. rewrite length_substring0. lia. }
      destruct (truncate_cases maxJsonLength (head +:+ truncationMark) Hmax)
        as [[Hle _]|[_ Heq2]].
      * rewrite length_append, Hhead in Hle. simpl in Hle. lia.
      * rewrite Heq2. rewrite <- Hhead at 1. now rewrite substring0_append.
Qed.

End Pipeline.

Arguments truncate maxJsonLength str : clear implicits.

Lemma truncate_keeps_or_marks_witness :
  truncate 4 (Some "abcdefgh") = Some "abcd...[truncated]" /\
  truncate 4 (Some "abcd") = Some "abcd".
Proof.
  split.
  - apply (proj1 (proj2 (proj2 (truncate_keeps_or_marks 4 "abcdefgh" ltac:(lia))))).
    vm_compute. lia.
  - apply (proj1 (proj2 (truncate_keeps_or_marks 4 "abcd" ltac:(lia)))).
    vm_compute. lia.
Defined.

(** X21.  With a non-negative limit, the observation built from an
    execution result carries the request, tool and agent ids, the phase and
    the outcome of the result; its summary names the tool; a success carries
    no error fields and a failure no data; and neither the data nor the
    error message is longer than the limit plus 14 characters, whatever the
    tool returned and even when it cannot be serialised. *)
Theorem observation_is_bounded {Output : Type}
  (JSON_stringify : option Output -> Settled (option string)) (maxJsonLength : Z)
  (result : ToolExecutionResult Output) :
  (0 <= maxJsonLength)%Z ->
  let o := build Output JSON_stringify maxJsonLength result in
  obs_requestId o = exe_requestId _ result /\
  obs_toolId o = exe_toolId _ result /\
  obs_agentId o = exe_agentId _ result /\
  obs_phase o = exe_phase _ result /\
  obs_success o = exe_success _ result /\
  occursIn (exe_toolId _ result) (obs_summary o) /\
  (exe_success _ result = true -> obs_errorType o = None /\ obs_errorMessage o = None) /\
  (exe_success _ result = false -> obs_data o = None) /\
  (forall d, obs_data o = Some d -> String.length d <= Z.to_nat maxJsonLength + 14) /\
  (forall e, obs_errorMessage o = Some e ->
             String.length e <= Z.to_nat maxJsonLength + 14).
Proof.
  intros Hmax o. unfold o, build.
  destruct (exe_success Output result) eqn:Hs; simpl.
  - repeat split; try discriminate.
    + exists "Tool ", " success". reflexivity.
    + intros d Hd. now apply (truncate_length maxJsonLength _ d Hmax Hd).
  - repeat split; try discriminate.
    + exists "Tool ", (" failed (" +:+ optOrElse (exe_errorType Output result) "error"
                       +:+ ")").
      reflexivity.
    + intros e He. now apply (truncate_length maxJsonLength _ e Hmax He).
Qed.

Lemma observation_is_bounded_witness :
  exists d,
    obs_data (build unit (fun _ => Rejected "cyclic") 5
                {| exe_requestId := "r1"; exe_toolId := "grep"; exe_agentId := "a";
                   exe_phase := execution; exe_success := true; exe_output := Some tt;
                   exe_errorType := None; exe_errorMessage := None |}) = Some d /\
    String.length d <= 19.
Proof.
  destruct (observation_is_bounded (fun _ : option unit => Rejected "cyclic") 5
              {| exe_requestId := "r1"; exe_toolId := "grep"; exe_agentId := "a";
                 exe_phase := execution; exe_success := true; exe_output := Some tt;
                 exe_errorType := None; exe_errorMessage := None |}
              ltac:(lia)) as (_ & _ & _ & _ & _ & _ & _ & _ & Hdata & _).
  eexists. split; [vm_compute; reflexivity|].
  apply Hdata. vm_compute. reflexivity.
Defined.

(** A result that cannot be serialised still gives an observation. *)
Example unserializable_output :
  obs_data (build unit (fun _ => Rejected "cyclic") 5
              {| exe_requestId := "r1"; exe_toolId := "grep"; exe_agentId := "a";
                 exe_phase := execution; exe_success := true; exe_output := Some tt;
                 exe_errorType := None; exe_errorMessage := None |})
  = Some "[unse...[truncated]".
Proof. reflexivity. Qed.

End ToolInvocation.

(* ===================================================================== *)
(** * PlanDAGExecutor.ts                                                 *)
(* ===================================================================== *)

Module PlanDAGExecutor.

Import Js.
Import PlanTypes.
Import ParallelExecutor.

Inductive PlanStepEvent : Type := EvStart | EvSuccess | EvError.

Record PlanDAGExecutorHooks (W : Type) : Type := {
  onStepUpdate : option (PlanStep -> PlanStepEvent -> M W unit);
  onWaveStart : option (nat -> list PlanStep -> M W unit);
  onWaveComplete : option (nat -> list PlanStep -> M W unit)
}.
Arguments onStepUpdate {W} _.
Arguments onWaveStart {W} _.
Arguments onWaveComplete {W} _.

(** The executor object: the injected batch executor (its [runBatch] method)
    and the optional hooks. *)
Record PlanDAGExecutorOptions (W : Type) : Type := {
  parallelExecutor : list AgentWork -> M W ParallelBatchSummary;
  hooks : option (PlanDAGExecutorHooks W)
}.
Arguments parallelExecutor {W} _.
Arguments hooks {W} _.

Record PlanDagRunResult : Type := {
  waves : nat;
  stepsExecuted : nat;
  failedSteps : list PlanStep
}.

(** A work factory.  Besides the unit of work it tells the [agentId] the step
    carries after the call: the orchestrator's factory assigns a default
    agent to a step that has none; a factory that leaves the step alone
    returns [step_agentId step]. *)
Definition AgentRunFactory : Type := PlanStep -> option string * AgentWork.

(** [stepIndex]: the step of each id, as its position in [plan.steps]; of two
    steps with one id the later is kept. *)
Definition stepIndex (steps : list PlanStep) : gmap string nat :=
  foldl (fun m p => <[step_id p.2 := p.1]> m) ∅ (imap pair steps).

Definition isPendingStatus (st : option StepStatus) : bool :=
  match st with
  | Some pending | None => true
  | _ => false
  end.

(** [stepIndex.get(d)?.status === "done"], read from the current steps. *)
Definition depDone (index : gmap string nat) (steps : list PlanStep) (d : string) : bool :=
  match index !! d with
  | Some j =>
      match steps !! j with
      | Some s => bool_decide (step_status s = Some done)
      | None => false
      end
  | None => false
  end.

Definition isReady (index : gmap string nat) (steps : list PlanStep) (s : PlanStep) : bool :=
  isPendingStatus (step_status s) &&
  match step_dependsOn s with
  | None => true
  | Some ds => forallb (depDone index steps) ds
  end.

(** [plan.steps.filter(isReady)], as positions. *)
Definition readySteps (index : gmap string nat) (steps : list PlanStep) : list nat :=
  List.filter (fun i => match steps !! i with
                        | Some s => isReady index steps s
                        | None => false
                        end) (seq 0 (length steps)).

Definition isTerminal (st : option StepStatus) : bool :=
  match st with
  | Some done | Some error => true
  | _ => false
  end.

Definition deadlockMessage : string := "Deadlock: dependencies unresolved".

(** The deadlock branch: every step that is neither done nor in error is
    marked as an error. *)
Definition markDeadlocked (steps : list PlanStep) : list PlanStep :=
  map (fun s => if isTerminal (step_status s) then s
                else set_errorMessage deadlockMessage (set_status error s)) steps.

(** The [groups] map, in insertion order. *)
Fixpoint addToGroup (key : string) (i : nat) (groups : list (string * list nat))
  : list (string * list nat) :=
  match groups with
  | [] => [(key, [i])]
  | (k, members) :: rest =>
      if String.eqb k key then (k, members ++ [i]) :: rest
      else (k, members) :: addToGroup key i rest
  end.

Definition groupKey (s : PlanStep) : string :=
  optOrElse (step_parallelGroup s) "__default".

Definition groupReady (steps : list PlanStep) (ready : list nat) : list (string * list nat) :=
  foldl (fun groups i =>
           match steps !! i with
           | Some s => addToGroup (groupKey s) i groups
           | None => groups
           end) [] ready.

(** The steps an array of references denotes at the moment of a call. *)
Definition deref (steps : list PlanStep) (refs : list nat) : list PlanStep :=
  omap (fun i => steps !! i) refs.

(** The step a result is matched to: the first of the group with the result's
    agent id that is running or pending. *)
Definition matchStep (steps : list PlanStep) (groupSteps : list nat)
  (result : AgentWorkResult) : option nat :=
  List.find (fun i =>
               match steps !! i with
               | Some st =>
                   bool_decide (step_agentId st = Some (res_agentId result)) &&
                   (bool_decide (step_status st = Some running) ||
                    bool_decide (step_status st = Some pending))
               | None => false
               end) groupSteps.

Definition markFailed (result : AgentWorkResult) (s : PlanStep) : PlanStep :=
  set_errorMessage (optOrElse (res_errorMessage result) "Unknown error")
    (set_status error s).

Section Executor.

Context {W : Type}.
Variable this : PlanDAGExecutorOptions W.
Variable buildWork : AgentRunFactory.

Definition stepUpdate (steps : list PlanStep) (i : nat) (event : PlanStepEvent)
  : M W unit :=
  match hooks this with
  | Some h =>
      match onStepUpdate h, steps !! i with
      | Some hook, Some step => hook step event
      | _, _ => ret tt
      end
  | None => ret tt
  end.

Definition waveStart (waveIndex : nat) (steps : list PlanStep) (ready : list nat)
  : M W unit :=
  match hooks this with
  | Some h =>
      match onWaveStart h with
      | Some hook => hook waveIndex (deref steps ready)
      | None => ret tt
      end
  | None => ret tt
  end.

Definition waveComplete (waveIndex : nat) (steps : list PlanStep) (ready : list nat)
  : M W unit :=
  match hooks this with
  | Some h =>
      match onWaveComplete h with
      | Some hook => hook waveIndex (deref steps ready)
      | None => ret tt
      end
  | None => ret tt
  end.

(** [step.status = "running"] and the start notification, step by step. *)
Definition markRunning (groupSteps : list nat) (steps : list PlanStep)
  : M W (list PlanStep) :=
  foldM (fun steps i =>
           let steps' := alter (set_status running) i steps in
           let* _ := stepUpdate steps' i EvStart in
           ret steps')%monad
        groupSteps steps.

(** [groupSteps.map((step) => buildWork(step))]. *)
Fixpoint buildAll (groupSteps : list nat) (steps : list PlanStep)
  : list PlanStep * list AgentWork :=
  match groupSteps with
  | [] => (steps, [])
  | i :: rest =>
      match steps !! i with
      | Some step =>
          let '(agent, work) := buildWork step in
          let '(steps', works) := buildAll rest (alter (set_agentId agent) i steps) in
          (steps', work :: works)
      | None => buildAll rest steps
      end
  end.

(** The loop that maps the results back to the steps. *)
Definition applyResults (groupSteps : list nat) (rs : list AgentWorkResult)
  (state : list PlanStep * nat) : M W (list PlanStep * nat) :=
  foldM (fun (state : list PlanStep * nat) result =>
           let '(steps, executed) := state in
           match matchStep steps groupSteps result with
           | None => ret (steps, executed)
           | Some i =>
               if res_success result then
                 let steps' := alter (set_status done) i steps in
                 let* _ := stepUpdate steps' i EvSuccess in
                 ret (steps', S executed)
               else
                 let steps' := alter (markFailed result) i steps in
                 let* _ := stepUpdate steps' i EvError in
                 ret (steps', S executed)
           end)%monad
        rs state.

(** The body of [for (const [, groupSteps] of groups)]. *)
Definition runGroup (state : list PlanStep * nat) (group : string * list nat)
  : M W (list PlanStep * nat) :=
  let '(steps, executed) := state in
  let groupSteps := group.2 in
  (let* steps1 := markRunning groupSteps steps in
   let '(steps2, workItems) := buildAll groupSteps steps1 in
   let* summary := parallelExecutor this workItems in
   applyResults groupSteps (results summary) (steps2, executed))%monad.

(** One turn of the [while (true)] loop: either the loop is left with the
    final steps ([inl]), or a wave has run ([inr]). *)
Definition wave (index : gmap string nat) (waveIndex : nat)
  (state : list PlanStep * nat)
  : M W (list PlanStep * nat + list PlanStep * nat) :=
  let '(steps, executed) := state in
  let ready := readySteps index steps in
  match ready with
  | [] => ret (inl (markDeadlocked steps, executed))
  | _ =>
      (let* _ := waveStart waveIndex steps ready in
       let* state' := foldM runGroup (groupReady steps ready) (steps, executed) in
       let* _ := waveComplete waveIndex state'.1 ready in
       ret (inr state'))%monad
  end.

Fixpoint waveLoop (fuel : nat) (index : gmap string nat) (waveIndex : nat)
  (state : list PlanStep * nat) : M W (list PlanStep * nat * nat) :=
  match fuel with
  | 0 => outOfFuel
  | S fuel' =>
      (let* r := wave index waveIndex state in
       match r with
       | inl final => ret (final, waveIndex)
       | inr state' => waveLoop fuel' index (S waveIndex) state'
       end)%monad
  end.

(** [run] with an explicit budget of loop turns. *)
Definition runWithin (fuel : nat) (plan : Plan) : M W (PlanDagRunResult * Plan) :=
  let index := stepIndex (plan_steps plan) in
  (let* r := waveLoop fuel index 0 (plan_steps plan, 0) in
   let '(steps, executed, waves) := r in
   ret ({| waves := waves;
           stepsExecuted := executed;
           failedSteps :=
             List.filter (fun s => bool_decide (step_status s = Some error)) steps |},
        {| plan_rationale := plan_rationale plan; plan_steps := steps |}))%monad.

(** [run(plan, buildWork)]: the result and the plan as the run leaves it.  One
    turn per step and one more to leave the loop is budget enough
    ([runWithin_enough] below). *)
Definition run (plan : Plan) : M W (PlanDagRunResult * Plan) :=
  runWithin (S (length (plan_steps plan))) plan.

End Executor.

(** ** How a run moves the steps: measures and invariants *)

(** A weighted count of the steps that still have work ahead: [wp] for a
    pending step (or one without status), [wr] for a running one. *)
Definition weight (wp wr : nat) (st : option StepStatus) : nat :=
  match st with
  | None | Some pending => wp
  | Some running => wr
  | _ => 0
  end.

Definition pot (wp wr : nat) (steps : list PlanStep) : nat :=
  sum_list (map (fun s => weight wp wr (step_status s)) steps).

Definition pendingCount (steps : list PlanStep) : nat := pot 1 0 steps.

(** What no part of a run writes. *)
Definition shape (s : PlanStep) : string * string * option string * option (list string) :=
  (step_id s, step_description s, step_parallelGroup s, step_dependsOn s).

(** Running, or pending by an explicit status: what a result can match. *)
Definition isActive (st : option StepStatus) : bool :=
  match st with
  | Some running | Some pending => true
  | _ => false
  end.

Ltac fold_alter :=
  repeat match goal with
         | |- context [list_alter ?f ?i ?l] => change (list_alter f i l) with (alter f i l)
         end.

Lemma pot_alter (wp wr : nat) (f : PlanStep -> PlanStep) (steps : list PlanStep)
  (i : nat) (s : PlanStep) :
  steps !! i = Some s ->
  pot wp wr (alter f i steps) + weight wp wr (step_status s)
  = pot wp wr steps + weight wp wr (step_status (f s)).
Proof.
  revert i. induction steps as [|x steps IH]; intros i Hi; [discriminate|].
  destruct i as [|i]; simpl in Hi.
  - inversion Hi; subst x. unfold pot. simpl. lia.
  - specialize (IH i Hi). unfold pot in *. simpl. fold_alter. lia.
Qed.

Lemma shape_alter (f : PlanStep -> PlanStep) (steps : list PlanStep) (i : nat) :
  (forall s, shape (f s) = shape s) ->
  map shape (alter f i steps) = map shape steps.
Proof.
  intros Hf. revert i. induction steps as [|x steps IH]; intros i; [reflexivity|].
  destruct i as [|i]; simpl; fold_alter; [now rewrite Hf | now rewrite IH].
Qed.

Lemma pot_statuses (wp wr : nat) (steps steps' : list PlanStep) :
  map step_status steps' = map step_status steps ->
  pot wp wr steps' = pot wp wr steps.
Proof.
  intros H. unfold pot.
  replace (map (fun s => weight wp wr (step_status s)) steps')
    with (map (weight wp wr) (map step_status steps')) by now rewrite map_map.
  replace (map (fun s => weight wp wr (step_status s)) steps)
    with (map (weight wp wr) (map step_status steps)) by now rewrite map_map.
  now rewrite H.
Qed.

Lemma status_alter_agent (a : option string) (steps : list PlanStep) (i : nat) :
  map step_status (alter (set_agentId a) i steps) = map step_status steps.
Proof.
  revert i. induction steps as [|x steps IH]; intros i; [reflexivity|].
  destruct i as [|i]; simpl; fold_alter; [reflexivity | now rewrite IH].
Qed.

(** *** Marking a group as running *)

Definition markAll (groupSteps : list nat) (steps : list PlanStep) : list PlanStep :=
  foldl (fun st i => alter (set_status running) i st) steps groupSteps.

Definition allPending (refs : list nat) (steps : list PlanStep) : Prop :=
  forall i, i ∈ refs ->
    exists s, steps !! i = Some s /\ isPendingStatus (step_status s) = true.

Lemma markAll_length (g : list nat) (steps : list PlanStep) :
  length (markAll g steps) = length steps.
Proof.
  revert steps. induction g as [|i g IH]; intros steps; [reflexivity|].
  unfold markAll in *. simpl. now rewrite IH, length_alter.
Qed.

Lemma markAll_shape (g : list nat) (steps : list PlanStep) :
  map shape (markAll g steps) = map shape steps.
Proof.
  revert steps. induction g as [|i g IH]; intros steps; [reflexivity|].
  unfold markAll in *. simpl. rewrite IH. now apply shape_alter.
Qed.

Lemma markAll_frame (g : list nat) (steps : list PlanStep) (j : nat) :
  j ∉ g -> markAll g steps !! j = steps !! j.
Proof.
  revert steps. induction g as [|i g IH]; intros steps Hj; [reflexivity|].
  unfold markAll in *. simpl. rewrite IH by set_solver.
  apply list_lookup_alter_ne. set_solver.
Qed.

Lemma markAll_running (g : list nat) (steps : list PlanStep) (i : nat) :
  i ∈ g -> i < length steps ->
  exists s, markAll g steps !! i = Some s /\ step_status s = Some running.
Proof.
  revert steps. induction g as [|j g IH]; intros steps Hi Hlt; [set_solver|].
  unfold markAll in *. simpl.
  destruct (decide (i ∈ g)) as [Hin|Hnot].
  - apply IH; [exact Hin | now rewrite length_alter].
  - apply elem_of_cons in Hi as [Hi|Hi]; [subst j | contradiction].
    pose proof (markAll_frame g (alter (set_status running) i steps) i Hnot) as Hf.
    unfold markAll in Hf. rewrite Hf.
    destruct (lookup_lt_is_Some_2 steps i Hlt) as [s Hs].
    exists (set_status running s). split; [|reflexivity].
    rewrite list_lookup_alter_eq, Hs. reflexivity.
Qed.

Lemma markAll_pot (wp wr : nat) (g : list nat) (steps : list PlanStep) :
  NoDup g -> allPending g steps ->
  pot wp wr (markAll g steps) + wp * length g = pot wp wr steps + wr * length g.
Proof.
  revert steps. induction g as [|i g IH]; intros steps Hnd Hp; [simpl; lia|].
  apply NoDup_cons in Hnd as [Hi Hnd].
  destruct (Hp i) as (s & Hs & Hpend); [set_solver|].
  unfold markAll in *. simpl.
  assert (Hp' : allPending g (alter (set_status running) i steps)).
  { intros j Hj. destruct (Hp j) as (sj & Hsj & Hpj); [set_solver|].
    exists sj. split; [|exact Hpj].
    rewrite list_lookup_alter_ne; [exact Hsj | set_solver]. }
  specialize (IH _ Hnd Hp').
  pose proof (pot_alter wp wr (set_status running) steps i s Hs) as Ha.
  simpl in Ha.
  assert (Hw : weight wp wr (step_status s) = wp).
  { destruct (step_status s) as [[]|]; simpl in *; congruence. }
  rewrite Hw in Ha. lia.
Qed.

(** *** Building the work items *)

Lemma buildAll_statuses (buildWork : AgentRunFactory) (g : list nat)
  (steps : list PlanStep) :
  map step_status (buildAll buildWork g steps).1 = map step_status steps.
Proof.
  revert steps. induction g as [|i g IH]; intros steps; [reflexivity|].
  simpl. destruct (steps !! i) as [step|]; [|apply IH].
  destruct (buildWork step) as [agent work].
  specialize (IH (alter (set_agentId agent) i steps)).
  destruct (buildAll buildWork g (alter (set_agentId agent) i steps)) as [steps' works].
  simpl in *. now rewrite IH, status_alter_agent.
Qed.

Lemma buildAll_shape (buildWork : AgentRunFactory) (g : list nat)
  (steps : list PlanStep) :
  map shape (buildAll buildWork g steps).1 = map shape steps.
Proof.
  revert steps. induction g as [|i g IH]; intros steps; [reflexivity|].
  simpl. destruct (steps !! i) as [step|]; [|apply IH].
  destruct (buildWork step) as [agent work].
  specialize (IH (alter (set_agentId agent) i steps)).
  destruct (buildAll buildWork g (alter (set_agentId agent) i steps)) as [steps' works].
  simpl in *. rewrite IH. now apply shape_alter.
Qed.

Lemma statuses_lookup (steps steps' : list PlanStep) (i : nat) (s : PlanStep) :
  map step_status steps' = map step_status steps ->
  steps !! i = Some s ->
  exists s', steps' !! i = Some s' /\ step_status s' = step_status s.
Proof.
  intros Hmap Hs.
  assert (H : map step_status steps' !! i = Some (step_status s)).
  { rewrite Hmap, list_lookup_fmap, Hs. reflexivity. }
  rewrite list_lookup_fmap in H.
  destruct (steps' !! i) as [s'|]; [|discriminate].
  exists s'. split; [reflexivity | now inversion H].
Qed.

(** *** Mapping results back *)

(** [Finished g steps steps' m]: [steps'] comes from [steps] by [m] updates,
    each of which takes an active step of the group to done or error. *)
Inductive Finished (g : list nat) : list PlanStep -> list PlanStep -> nat -> Prop :=
| finished_none steps : Finished g steps steps 0
| finished_one steps i s f steps' m :
    i ∈ g ->
    steps !! i = Some s ->
    isActive (step_status s) = true ->
    isTerminal (step_status (f s)) = true ->
    (forall x, shape (f x) = shape x) ->
    Finished g (alter f i steps) steps' m ->
    Finished g steps steps' (S m).

Lemma weight_terminal (wp wr : nat) (st : option StepStatus) :
  isTerminal st = true -> weight wp wr st = 0.
Proof. destruct st as [[]|]; simpl; congruence. Qed.

Lemma weight_active (wp wr : nat) (st : option StepStatus) :
  wr <= wp -> isActive st = true -> wr <= weight wp wr st.
Proof. intros Hle. destruct st as [[]|]; simpl; try congruence; lia. Qed.

Lemma Finished_facts (wp wr : nat) (g : list nat) (steps steps' : list PlanStep)
  (m : nat) :
  wr <= wp ->
  Finished g steps steps' m ->
  pot wp wr steps' + wr * m <= pot wp wr steps /\
  map shape steps' = map shape steps /\
  length steps' = length steps.
Proof.
  intros Hle H. induction H as [steps | steps i s f steps' m Hi Hs Hact Hterm Hshape H IH].
  - split; [lia|]. split; reflexivity.
  - destruct IH as (Hpot & Hsh & Hlen).
    pose proof (pot_alter wp wr f steps i s Hs) as Ha.
    rewrite (weight_terminal wp wr _ Hterm) in Ha.
    pose proof (weight_active wp wr _ Hle Hact) as Hw.
    split; [lia|]. split.
    + rewrite Hsh. now apply shape_alter.
    + now rewrite Hlen, length_alter.
Qed.

Lemma matchStep_Some (steps : list PlanStep) (g : list nat) (r : AgentWorkResult)
  (i : nat) :
  matchStep steps g r = Some i ->
  i ∈ g /\ exists st, steps !! i = Some st /\ isActive (step_status st) = true /\
                      step_agentId st = Some (res_agentId r).
Proof.
  unfold matchStep. intros H. apply find_some in H as [Hin Hp].
  split; [now apply list_elem_of_In|].
  destruct (steps !! i) as [st|]; [|discriminate].
  exists st. split; [reflexivity|].
  apply andb_prop in Hp as [Ha Hs]. apply bool_decide_eq_true in Ha.
  split; [|exact Ha].
  apply orb_prop in Hs as [Hs | Hs]; apply bool_decide_eq_true in Hs;
    rewrite Hs; reflexivity.
Qed.

Lemma Finished_frame (g : list nat) (steps steps' : list PlanStep) (m : nat) (j : nat) :
  Finished g steps steps' m -> j ∉ g -> steps' !! j = steps !! j.
Proof.
  intros H Hj. induction H as [steps | steps i s f steps' m Hi Hs Hact Hterm Hshape H IH];
    [reflexivity|].
  rewrite IH. apply list_lookup_alter_ne. intros ->. contradiction.
Qed.

Lemma pendingCount_bound (steps : list PlanStep) : pendingCount steps <= length steps.
Proof.
  unfold pendingCount, pot. induction steps as [|x steps IH]; [simpl; lia|].
  simpl. destruct (step_status x) as [[]|]; simpl; lia.
Qed.

Lemma markDeadlocked_terminal (steps : list PlanStep) :
  Forall (fun s => isTerminal (step_status s) = true) (markDeadlocked steps).
Proof.
  unfold markDeadlocked. apply Forall_forall. intros s Hs.
  apply list_elem_of_fmap in Hs as (x & -> & _).
  destruct (isTerminal (step_status x)) eqn:E; [exact E | reflexivity].
Qed.

Lemma markDeadlocked_shape (steps : list PlanStep) :
  map shape (markDeadlocked steps) = map shape steps.
Proof.
  unfold markDeadlocked. rewrite map_map. apply map_ext. intros x.
  destruct (isTerminal (step_status x)); reflexivity.
Qed.

(** *** The groups of a wave partition its ready steps *)

Definition members (groups : list (string * list nat)) : list nat :=
  concat (map snd groups).

Lemma addToGroup_members (key : string) (i : nat) (groups : list (string * list nat)) :
  members (addToGroup key i groups) ≡ₚ i :: members groups.
Proof.
  unfold members. induction groups as [|[k l] groups IH]; [reflexivity|].
  simpl. destruct (String.eqb k key); simpl.
  - rewrite <- app_assoc. simpl.
    rewrite <- (Permutation_middle l (concat (map snd groups)) i). reflexivity.
  - rewrite IH. rewrite <- (Permutation_middle l (concat (map snd groups)) i).
    reflexivity.
Qed.

Lemma groupReady_members (steps : list PlanStep) (ready : list nat) :
  (forall i, i ∈ ready -> is_Some (steps !! i)) ->
  members (groupReady steps ready) ≡ₚ ready.
Proof.
  unfold groupReady.
  assert (H : forall groups,
             (forall i, i ∈ ready -> is_Some (steps !! i)) ->
             members (foldl (fun groups i =>
                               match steps !! i with
                               | Some s => addToGroup (groupKey s) i groups
                               | None => groups
                               end) groups ready) ≡ₚ members groups ++ ready).
  { induction ready as [|i ready IH]; intros groups Hv; simpl.
    - now rewrite app_nil_r.
    - destruct (Hv i) as [s Hs]; [left|]. rewrite Hs.
      rewrite IH by (intros j Hj; apply Hv; now right).
      rewrite addToGroup_members. now rewrite <- Permutation_middle. }
  intros Hv. now rewrite (H [] Hv).
Qed.

Lemma readySteps_NoDup (index : gmap string nat) (steps : list PlanStep) :
  NoDup (readySteps index steps).
Proof.
  unfold readySteps. apply NoDup_ListNoDup, List.NoDup_filter, NoDup_ListNoDup, NoDup_seq.
Qed.

Lemma readySteps_pending (index : gmap string nat) (steps : list PlanStep) :
  allPending (readySteps index steps) steps.
Proof.
  intros i Hi. unfold readySteps in Hi.
  apply list_elem_of_In, filter_In in Hi as [_ Hi].
  destruct (steps !! i) as [s|]; [|discriminate].
  exists s. split; [reflexivity|].
  unfold isReady in Hi. now apply andb_prop in Hi as [Hi _].
Qed.

(** *** The executor under hooks that behave

    [R k w] reads: the world [w] is at most [k] ticks away from where the run
    started.  A step notification costs [cStep] ticks, a wave-start
    notification [cStart], a wave-complete notification [cComplete]; the
    batch executor costs none. *)
Section Progress.

Context {W : Type}.
Variable R : nat -> W -> Prop.
Hypothesis R_mono : forall k k' w, k <= k' -> R k w -> R k' w.
Variable strict : bool.
Variables cStep cStart cComplete : nat.
Variable this : PlanDAGExecutorOptions W.
Variable buildWork : AgentRunFactory.

Hypothesis runBatch_spec :
  forall k items, spec strict (R k) (parallelExecutor this items) (fun _ => R k).
Hypothesis onStepUpdate_spec :
  forall h f, hooks this = Some h -> onStepUpdate h = Some f ->
    forall k s e, spec strict (R k) (f s e) (fun _ => R (k + cStep)).
Hypothesis onWaveStart_spec :
  forall h f, hooks this = Some h -> onWaveStart h = Some f ->
    forall k n l, spec strict (R k) (f n l) (fun _ => R (k + cStart)).
Hypothesis onWaveComplete_spec :
  forall h f, hooks this = Some h -> onWaveComplete h = Some f ->
    forall k n l, spec strict (R k) (f n l) (fun _ => R (k + cComplete)).

Definition cWave : nat := 2 * cStep + cStart + cComplete.

Lemma stepUpdate_spec (k : nat) (steps : list PlanStep) (i : nat) (e : PlanStepEvent) :
  spec strict (R k) (stepUpdate this steps i e) (fun _ => R (k + cStep)).
Proof.
  unfold stepUpdate.
  destruct (hooks this) as [h|] eqn:Eh.
  - destruct (onStepUpdate h) as [f|] eqn:Ef.
    + destruct (steps !! i) as [s|].
      * now apply (onStepUpdate_spec h f).
      * apply spec_ret. intros w Hw. apply (R_mono k); [lia | exact Hw].
    + apply spec_ret. intros w Hw. apply (R_mono k); [lia | exact Hw].
  - apply spec_ret. intros w Hw. apply (R_mono k); [lia | exact Hw].
Qed.

Lemma waveStart_spec (k n : nat) (steps : list PlanStep) (ready : list nat) :
  spec strict (R k) (waveStart this n steps ready) (fun _ => R (k + cStart)).
Proof.
  unfold waveStart.
  destruct (hooks this) as [h|] eqn:Eh.
  - destruct (onWaveStart h) as [f|] eqn:Ef.
    + now apply (onWaveStart_spec h f).
    + apply spec_ret. intros w Hw. apply (R_mono k); [lia | exact Hw].
  - apply spec_ret. intros w Hw. apply (R_mono k); [lia | exact Hw].
Qed.

Lemma waveComplete_spec (k n : nat) (steps : list PlanStep) (ready : list nat) :
  spec strict (R k) (waveComplete this n steps ready) (fun _ => R (k + cComplete)).
Proof.
  unfold waveComplete.
  destruct (hooks this) as [h|] eqn:Eh.
  - destruct (onWaveComplete h) as [f|] eqn:Ef.
    + now apply (onWaveComplete_spec h f).
    + apply spec_ret. intros w Hw. apply (R_mono k); [lia | exact Hw].
  - apply spec_ret. intros w Hw. apply (R_mono k); [lia | exact Hw].
Qed.

Lemma markRunning_spec (g : list nat) :
  forall (steps : list PlanStep) (k : nat),
    spec strict (R k) (markRunning this g steps)
      (fun steps' w => steps' = markAll g steps /\ R (k + cStep * length g) w).
Proof.
  induction g as [|i g IH]; intros steps k.
  - apply spec_ret. intros w Hw. split; [reflexivity|].
    apply (R_mono k); [lia | exact Hw].
  - unfold markRunning. simpl.
    apply spec_bind
      with (mid := fun a w => a = alter (set_status running) i steps /\ R (k + cStep) w).
    + apply spec_bind with (mid := fun _ w => R (k + cStep) w).
      * apply stepUpdate_spec.
      * intros _. apply spec_ret. intros w Hw. split; [reflexivity | exact Hw].
    + intros a. apply spec_assume. intros ->.
      eapply spec_conseq; [apply (IH (alter (set_status running) i steps) (k + cStep))| |].
      * intros w Hw. exact Hw.
      * intros steps' w [-> Hw]. split; [reflexivity|].
        apply (R_mono (k + cStep + cStep * length g)); [simpl; lia | exact Hw].
Qed.

Lemma applyResults_spec (g : list nat) (rs : list AgentWorkResult) :
  forall (steps : list PlanStep) (executed k : nat),
    spec strict (R k) (applyResults this g rs (steps, executed))
      (fun out w => exists m, Finished g steps out.1 m /\
                              R (k + cStep * m) w /\ out.2 = executed + m).
Proof.
  induction rs as [|r rs IH]; intros steps executed k.
  - apply spec_ret. intros w Hw. exists 0. split; [constructor|].
    split; [|simpl; lia]. apply (R_mono k); [lia | exact Hw].
  - unfold applyResults. simpl.
    destruct (matchStep steps g r) as [i|] eqn:Em.
    + apply matchStep_Some in Em as (Hi & st & Hst & Hact & _).
      destruct (res_success r).
      * apply spec_bind
          with (mid := fun a w => a = (alter (set_status done) i steps, S executed)
                                  /\ R (k + cStep) w).
        -- apply spec_bind with (mid := fun _ w => R (k + cStep) w).
           ++ apply stepUpdate_spec.
           ++ intros _. apply spec_ret. intros w Hw. split; [reflexivity | exact Hw].
        -- intros a. apply spec_assume. intros ->.
           eapply spec_conseq;
             [apply (IH (alter (set_status done) i steps) (S executed) (k + cStep))| |].
           ++ intros w Hw. exact Hw.
           ++ intros out w (m & Hfin & Hw & Hex). exists (S m).
              split; [|split; [|lia]].
              ** eapply (finished_one g steps i st (set_status done));
                   [exact Hi | exact Hst | exact Hact | reflexivity | reflexivity | exact Hfin].
              ** apply (R_mono (k + cStep + cStep * m)); [lia | exact Hw].
      * apply spec_bind
          with (mid := fun a w => a = (alter (markFailed r) i steps, S executed)
                                  /\ R (k + cStep) w).
        -- apply spec_bind with (mid := fun _ w => R (k + cStep) w).
           ++ apply stepUpdate_spec.
           ++ intros _. apply spec_ret. intros w Hw. split; [reflexivity | exact Hw].
        -- intros a. apply spec_assume. intros ->.
           eapply spec_conseq;
             [apply (IH (alter (markFailed r) i steps) (S executed) (k + cStep))| |].
           ++ intros w Hw. exact Hw.
           ++ intros out w (m & Hfin & Hw & Hex). exists (S m).
              split; [|split; [|lia]].
              ** eapply (finished_one g steps i st (markFailed r));
                   [exact Hi | exact Hst | exact Hact | reflexivity | reflexivity | exact Hfin].
              ** apply (R_mono (k + cStep + cStep * m)); [lia | exact Hw].
    + apply spec_bind with (mid := fun a w => a = (steps, executed) /\ R k w).
      * apply spec_ret. intros w Hw. split; [reflexivity | exact Hw].
      * intros a. apply spec_assume. intros ->. apply IH.
Qed.

(** What a group, or all groups of a wave, leave behind: [t] ticks were
    spent on the [n] steps dispatched. *)
Definition Dispatched (refs : list nat) (steps steps' : list PlanStep) (t : nat) : Prop :=
  t + pot cWave cStep steps' + (cStart + cComplete) * length refs
    <= pot cWave cStep steps /\
  pendingCount steps' + length refs <= pendingCount steps /\
  map shape steps' = map shape steps /\
  (forall j, j ∉ refs -> step_status <$> steps' !! j = step_status <$> steps !! j).

Lemma group_Dispatched (g : list nat) (steps steps' : list PlanStep) (m : nat) :
  NoDup g -> allPending g steps ->
  Finished g (buildAll buildWork g (markAll g steps)).1 steps' m ->
  Dispatched g steps steps' (cStep * length g + cStep * m).
Proof.
  intros Hnd Hp Hfin.
  set (steps1 := markAll g steps) in *.
  set (steps2 := (buildAll buildWork g steps1).1) in *.
  pose proof (buildAll_statuses buildWork g steps1) as Hst. fold steps2 in Hst.
  pose proof (buildAll_shape buildWork g steps1) as Hsh. fold steps2 in Hsh.
  assert (Hle : cStep <= cWave) by (unfold cWave; lia).
  destruct (Finished_facts cWave cStep g steps2 steps' m Hle Hfin) as (Hpot & Hshape & _).
  destruct (Finished_facts 1 0 g steps2 steps' m ltac:(lia) Hfin) as (Hpc & _ & _).
  rewrite (pot_statuses cWave cStep _ _ Hst) in Hpot.
  rewrite (pot_statuses 1 0 _ _ Hst) in Hpc.
  pose proof (markAll_pot cWave cStep g steps Hnd Hp) as Hm1. fold steps1 in Hm1.
  pose proof (markAll_pot 1 0 g steps Hnd Hp) as Hm2. fold steps1 in Hm2.
  unfold Dispatched, pendingCount. split; [|split; [|split]].
  - unfold cWave in *. nia.
  - lia.
  - rewrite Hshape, Hsh. apply markAll_shape.
  - intros j Hj. rewrite (Finished_frame g steps2 steps' m j Hfin Hj).
    rewrite <- (markAll_frame g steps j Hj). fold steps1.
    rewrite <- !list_lookup_fmap. change (map step_status steps2 !! j
                                         = map step_status steps1 !! j).
    now rewrite Hst.
Qed.

Lemma runGroup_spec (group : string * list nat) (steps : list PlanStep)
  (executed k : nat) :
  NoDup group.2 -> allPending group.2 steps ->
  spec strict (R k) (runGroup this buildWork (steps, executed) group)
    (fun out w => exists t, R (k + t) w /\ Dispatched group.2 steps out.1 t).
Proof.
  intros Hnd Hp. unfold runGroup. destruct group as [key g]. simpl in *.
  apply spec_bind
    with (mid := fun a w => a = markAll g steps /\ R (k + cStep * length g) w).
  - apply markRunning_spec.
  - intros a. apply spec_assume. intros ->.
    destruct (buildAll buildWork g (markAll g steps)) as [steps2 workItems] eqn:Eb.
    apply spec_bind with (mid := fun _ w => R (k + cStep * length g) w).
    + apply runBatch_spec.
    + intros summary.
      eapply spec_conseq; [apply applyResults_spec| |].
      * intros w Hw. exact Hw.
      * intros out w (m & Hfin & Hw & _).
        exists (cStep * length g + cStep * m). split.
        -- apply (R_mono (k + cStep * length g + cStep * m)); [lia | exact Hw].
        -- apply group_Dispatched; [exact Hnd | exact Hp|].
           now rewrite Eb.
Qed.

Lemma Dispatched_app (g rest : list nat) (steps steps1 steps2 : list PlanStep)
  (t1 t2 : nat) :
  Dispatched g steps steps1 t1 -> Dispatched rest steps1 steps2 t2 ->
  Dispatched (g ++ rest) steps steps2 (t1 + t2).
Proof.
  intros (A1 & A2 & A3 & A4) (B1 & B2 & B3 & B4).
  unfold Dispatched. rewrite length_app. split; [|split; [|split]].
  - nia.
  - lia.
  - now rewrite B3.
  - intros j Hj. rewrite B4, A4; [reflexivity | |].
    + intros Hin. apply Hj, elem_of_app. now left.
    + intros Hin. apply Hj, elem_of_app. now right.
Qed.

Lemma groups_spec (groups : list (string * list nat)) :
  forall (steps : list PlanStep) (executed k : nat),
    NoDup (members groups) -> allPending (members groups) steps ->
    spec strict (R k) (foldM (runGroup this buildWork) groups (steps, executed))
      (fun out w => exists t, R (k + t) w /\ Dispatched (members groups) steps out.1 t).
Proof.
  induction groups as [|group groups IH]; intros steps executed k Hnd Hp.
  - apply spec_ret. intros w Hw. exists 0. split.
    + apply (R_mono k); [lia | exact Hw].
    + unfold Dispatched, members. simpl.
      split; [lia|]. split; [lia|]. split; [reflexivity|]. intros j _. reflexivity.
  - simpl. unfold members in Hnd, Hp. simpl in Hnd, Hp.
    apply NoDup_app in Hnd as (Hnd1 & Hdisj & Hnd2).
    apply spec_bind
      with (mid := fun a w => exists t, R (k + t) w /\ Dispatched group.2 steps a.1 t).
    + apply runGroup_spec; [exact Hnd1|].
      intros i Hi. apply Hp, elem_of_app. now left.
    + intros [steps1 executed1]. simpl.
      intros w (t1 & Hw & Hd1).
      assert (Hp' : allPending (members groups) steps1).
      { intros i Hi.
        destruct (Hp i) as (s0 & Hs0 & Hpend); [apply elem_of_app; now right|].
        destruct Hd1 as (_ & _ & _ & Hframe).
        assert (Hi' : i ∉ group.2) by (intros Hin; apply (Hdisj i Hin Hi)).
        specialize (Hframe i Hi'). rewrite Hs0 in Hframe. simpl in Hframe.
        destruct (steps1 !! i) as [s1|]; [|discriminate].
        exists s1. split; [reflexivity|]. simpl in Hframe.
        inversion Hframe as [Heq]. now rewrite Heq. }
      pose proof (IH steps1 executed1 (k + t1) Hnd2 Hp' w Hw) as Hrest.
      destruct (foldM (runGroup this buildWork) groups (steps1, executed1) w)
        as [[[out|e] w']|]; [|exact Hrest|exact Hrest].
      destruct Hrest as (t2 & Hw' & Hd2).
      exists (t1 + t2). split.
      * apply (R_mono (k + t1 + t2)); [lia | exact Hw'].
      * unfold members. simpl. eapply Dispatched_app; [exact Hd1 | exact Hd2].
Qed.

(** One turn of the loop: it either leaves the loop with every step done or
    in error, or it has moved at least one pending step out of pending; the
    ticks it spends are covered by the fall of the weighted count. *)
Lemma wave_spec (index : gmap string nat) (waveIndex : nat) (steps : list PlanStep)
  (executed k : nat) :
  spec strict (R k) (wave this buildWork index waveIndex (steps, executed))
    (fun r w =>
       match r with
       | inl (final, _) =>
           R k w /\
           Forall (fun s => isTerminal (step_status s) = true) final /\
           map shape final = map shape steps
       | inr (steps', _) =>
           (exists t, R (k + t) w /\
                      t + pot cWave cStep steps' <= pot cWave cStep steps) /\
           pendingCount steps' < pendingCount steps /\
           map shape steps' = map shape steps
       end).
Proof.
  unfold wave.
  destruct (readySteps index steps) as [|i0 ready0] eqn:Er.
  - apply spec_ret. intros w Hw. split; [exact Hw|].
    split; [apply markDeadlocked_terminal | apply markDeadlocked_shape].
  - set (ready := i0 :: ready0) in *.
    assert (Hvalid : forall i, i ∈ ready -> is_Some (steps !! i)).
    { intros i Hi. rewrite <- Er in Hi.
      destruct (readySteps_pending index steps i Hi) as (s & Hs & _). now exists s. }
    pose proof (groupReady_members steps ready Hvalid) as Hperm.
    assert (Hnd : NoDup (members (groupReady steps ready))).
    { rewrite Hperm, <- Er. apply readySteps_NoDup. }
    assert (Hp : allPending (members (groupReady steps ready)) steps).
    { intros i Hi. rewrite Hperm, <- Er in Hi.
      exact (readySteps_pending index steps i Hi). }
    assert (Hlen : length (members (groupReady steps ready)) = S (length ready0)).
    { now rewrite Hperm. }
    apply spec_bind with (mid := fun _ w => R (k + cStart) w).
    + apply waveStart_spec.
    + intros _.
      apply spec_bind
        with (mid := fun a w =>
                       exists t, R (k + cStart + t) w /\
                                 Dispatched (members (groupReady steps ready)) steps a.1 t).
      * apply groups_spec; [exact Hnd | exact Hp].
      * intros [steps' executed']. simpl.
        apply spec_bind
          with (mid := fun _ w =>
                         exists t, R (k + cStart + t + cComplete) w /\
                                   Dispatched (members (groupReady steps ready))
                                     steps steps' t).
        -- intros w (t & Hw & Hd).
           pose proof (waveComplete_spec (k + cStart + t) waveIndex steps' ready w Hw) as Hc.
           destruct (waveComplete this waveIndex steps' ready w)
             as [[[[]|e] w']|]; [|exact Hc|exact Hc].
           exists t. split; [exact Hc | exact Hd].
        -- intros _. apply spec_ret. intros w (t & Hw & Hd1 & Hd2 & Hd3 & _).
           rewrite Hlen in Hd1, Hd2. split; [|split; [lia | exact Hd3]].
           exists (cStart + t + cComplete). split.
           ++ apply (R_mono (k + cStart + t + cComplete)); [lia | exact Hw].
           ++ nia.
Qed.

(** The loop leaves every step done or in error, within the ticks the
    weighted count allows, provided [fuel] exceeds the number of pending
    steps. *)
Lemma waveLoop_spec (K : nat) (index : gmap string nat) (fuel : nat) :
  forall (waveIndex : nat) (steps : list PlanStep) (executed : nat),
    pendingCount steps < fuel ->
    spec strict (fun w => exists k, R k w /\ k + pot cWave cStep steps <= K)
      (waveLoop this buildWork fuel index waveIndex (steps, executed))
      (fun r w =>
         R K w /\
         Forall (fun s => isTerminal (step_status s) = true) r.1.1 /\
         map shape r.1.1 = map shape steps).
Proof.
  induction fuel as [|fuel IH]; intros waveIndex steps executed Hfuel; [lia|].
  intros w (k & Hw & HK).
  change (waveLoop this buildWork (S fuel) index waveIndex (steps, executed))
    with (bind (wave this buildWork index waveIndex (steps, executed))
            (fun r => match r with
                      | inl final => ret (final, waveIndex)
                      | inr state' => waveLoop this buildWork fuel index (S waveIndex) state'
                      end)).
  unfold bind.
  pose proof (wave_spec index waveIndex steps executed k w Hw) as Hwave.
  destruct (wave this buildWork index waveIndex (steps, executed) w)
    as [[[[[final ex]|[steps' ex']]|e] w']|]; [| |exact Hwave|exact Hwave].
  - simpl. destruct Hwave as (Hw' & Hterm & Hshape).
    split; [|split; [exact Hterm | exact Hshape]].
    apply (R_mono k); [lia | exact Hw'].
  - destruct Hwave as ((t & Hw' & Hpot) & Hpc & Hshape).
    assert (Hpre : exists k', R k' w' /\ k' + pot cWave cStep steps' <= K).
    { exists (k + t). split; [exact Hw' | lia]. }
    pose proof (IH (S waveIndex) steps' ex' ltac:(lia) w' Hpre) as Hrest.
    destruct (waveLoop this buildWork fuel index (S waveIndex) (steps', ex') w')
      as [[[r|e] w'']|]; [|exact Hrest|exact Hrest].
    destruct Hrest as (Hw'' & Hterm & Hsh).
    split; [exact Hw''|]. split; [exact Hterm|]. now rewrite Hsh.
Qed.

Lemma runWithin_spec (k fuel : nat) (plan : Plan) :
  length (plan_steps plan) < fuel ->
  spec strict (R k) (runWithin this buildWork fuel plan)
    (fun r w =>
       R (k + pot cWave cStep (plan_steps plan)) w /\
       Forall (fun s => isTerminal (step_status s) = true) (plan_steps r.2) /\
       map shape (plan_steps r.2) = map shape (plan_steps plan) /\
       plan_rationale r.2 = plan_rationale plan).
Proof.
  intros Hfuel. unfold runWithin.
  apply spec_bind
    with (mid := fun r w =>
                   R (k + pot cWave cStep (plan_steps plan)) w /\
                   Forall (fun s => isTerminal (step_status s) = true) r.1.1 /\
                   map shape r.1.1 = map shape (plan_steps plan)).
  - eapply spec_conseq;
      [apply (waveLoop_spec (k + pot cWave cStep (plan_steps plan)))| |].
    + pose proof (pendingCount_bound (plan_steps plan)). lia.
    + intros w Hw. exists k. split; [exact Hw | lia].
    + intros r w H. exact H.
  - intros [[steps executed] waves]. simpl.
    apply spec_ret. intros w (Hw & Hterm & Hshape). simpl.
    split; [exact Hw|]. split; [exact Hterm|]. split; [exact Hshape | reflexivity].
Qed.

End Progress.

(** *** Termination of the wave loop *)

Lemma waveLoop_more {W} (this : PlanDAGExecutorOptions W) (buildWork : AgentRunFactory)
  (index : gmap string nat) (fuel : nat) :
  forall waveIndex state w r,
    waveLoop this buildWork fuel index waveIndex state w = Some r ->
    waveLoop this buildWork (S fuel) index waveIndex state w = Some r.
Proof.
  induction fuel as [|fuel IH]; intros waveIndex state w r H; [discriminate|].
  change (waveLoop this buildWork (S (S fuel)) index waveIndex state)
    with (bind (wave this buildWork index waveIndex state)
            (fun r => match r with
                      | inl final => ret (final, waveIndex)
                      | inr state' =>
                          waveLoop this buildWork (S fuel) index (S waveIndex) state'
                      end)).
  change (waveLoop this buildWork (S fuel) index waveIndex state)
    with (bind (wave this buildWork index waveIndex state)
            (fun r => match r with
                      | inl final => ret (final, waveIndex)
                      | inr state' => waveLoop this buildWork fuel index (S waveIndex) state'
                      end)) in H.
  unfold bind in *.
  destruct (wave this buildWork index waveIndex state w) as [[[[final|state']|e] w']|];
    try exact H.
  now apply IH.
Qed.

Lemma waveLoop_enough {W} (this : PlanDAGExecutorOptions W) (buildWork : AgentRunFactory)
  (index : gmap string nat) (fuel fuel' : nat) :
  fuel <= fuel' ->
  forall waveIndex state w r,
    waveLoop this buildWork fuel index waveIndex state w = Some r ->
    waveLoop this buildWork fuel' index waveIndex state w = Some r.
Proof.
  induction 1 as [|fuel' Hle IH]; intros waveIndex state w r H; [exact H|].
  now apply waveLoop_more, IH.
Qed.

(** Hooks that settle: a notification may throw, but it returns. *)
Definition hooksSettle {W} (this : PlanDAGExecutorOptions W) : Prop :=
  forall h, hooks this = Some h ->
    (forall f, onStepUpdate h = Some f -> forall s e, settles (f s e)) /\
    (forall f, onWaveStart h = Some f -> forall n l, settles (f n l)) /\
    (forall f, onWaveComplete h = Some f -> forall n l, settles (f n l)).

Section Termination.

Context {W : Type}.
Variable this : PlanDAGExecutorOptions W.
Variable buildWork : AgentRunFactory.
Hypothesis executor_settles : forall items, settles (parallelExecutor this items).
Hypothesis hooks_settle : hooksSettle this.

Let anyWorld : nat -> W -> Prop := fun _ _ => True.

Lemma wave_progress (index : gmap string nat) (waveIndex : nat) (steps : list PlanStep)
  (executed : nat) :
  spec false (fun _ => True) (wave this buildWork index waveIndex (steps, executed))
    (fun r _ =>
       match r with
       | inl (final, _) => Forall (fun s => isTerminal (step_status s) = true) final
       | inr (steps', _) => pendingCount steps' < pendingCount steps
       end).
Proof.
  eapply spec_conseq.
  - apply (wave_spec anyWorld ltac:(intros; exact I) false 0 0 0 this buildWork) with (k := 0).
    + intros k items. eapply spec_conseq; [apply settles_spec, executor_settles| |];
        intros; exact I.
    + intros h f Hh Hf k s e. destruct (hooks_settle h Hh) as (H1 & _ & _).
      eapply spec_conseq; [apply settles_spec, (H1 f Hf)| |]; intros; exact I.
    + intros h f Hh Hf k n l. destruct (hooks_settle h Hh) as (_ & H2 & _).
      eapply spec_conseq; [apply settles_spec, (H2 f Hf)| |]; intros; exact I.
    + intros h f Hh Hf k n l. destruct (hooks_settle h Hh) as (_ & _ & H3).
      eapply spec_conseq; [apply settles_spec, (H3 f Hf)| |]; intros; exact I.
  - intros w _. exact I.
  - intros [[final ex]|[steps' ex']] w H; simpl in *; tauto.
Qed.

Lemma runWithin_settles (fuel : nat) (plan : Plan) :
  length (plan_steps plan) < fuel -> settles (runWithin this buildWork fuel plan).
Proof.
  intros Hfuel.
  eapply (spec_settles false).
  eapply spec_conseq.
  - apply (runWithin_spec anyWorld ltac:(intros; exact I) false 0 0 0 this buildWork)
      with (k := 0); [| | | |exact Hfuel].
    + intros k items. eapply spec_conseq; [apply settles_spec, executor_settles| |];
        intros; exact I.
    + intros h f Hh Hf k s e. destruct (hooks_settle h Hh) as (H1 & _ & _).
      eapply spec_conseq; [apply settles_spec, (H1 f Hf)| |]; intros; exact I.
    + intros h f Hh Hf k n l. destruct (hooks_settle h Hh) as (_ & H2 & _).
      eapply spec_conseq; [apply settles_spec, (H2 f Hf)| |]; intros; exact I.
    + intros h f Hh Hf k n l. destruct (hooks_settle h Hh) as (_ & _ & H3).
      eapply spec_conseq; [apply settles_spec, (H3 f Hf)| |]; intros; exact I.
  - intros w _. exact I.
  - intros r w _. exact I.
Qed.

Lemma runWithin_enough (fuel : nat) (plan : Plan) (w : W) :
  length (plan_steps plan) < fuel ->
  runWithin this buildWork fuel plan w = run this buildWork plan w.
Proof.
  intros Hfuel. unfold run.
  pose proof (runWithin_settles (S (length (plan_steps plan))) plan ltac:(lia) w) as Hs.
  unfold runWithin, bind in *.
  destruct (waveLoop this buildWork (S (length (plan_steps plan)))
              (stepIndex (plan_steps plan)) 0 (plan_steps plan, 0) w) as [r|] eqn:E;
    [|congruence].
  rewrite (waveLoop_enough this buildWork _ (S (length (plan_steps plan))) fuel
             ltac:(lia) _ _ _ _ E).
  reflexivity.
Qed.

End Termination.

(** C4.  For every plan, whatever its dependency lists (cyclic, dangling),
    and every work factory, [run] terminates, provided the injected batch
    executor and the hooks return: it settles from every world; a larger
    budget of loop turns than one per step plus one changes nothing; and each
    turn of the wave loop either leaves the loop with every step done or in
    error, or moves at least one pending step out of pending. *)
Theorem run_terminates {W : Type} (this : PlanDAGExecutorOptions W)
  (buildWork : AgentRunFactory) (plan : Plan) :
  (forall items, settles (parallelExecutor this items)) ->
  hooksSettle this ->
  (forall w, exists outcome w', run this buildWork plan w = Some (outcome, w')) /\
  (forall fuel w, length (plan_steps plan) < fuel ->
     runWithin this buildWork fuel plan w = run this buildWork plan w) /\
  (forall index waveIndex steps executed w r w',
     wave this buildWork index waveIndex (steps, executed) w = Some (Fulfilled r, w') ->
     match r with
     | inl (final, _) => Forall (fun s => isTerminal (step_status s) = true) final
     | inr (steps', _) => pendingCount steps' < pendingCount steps
     end).
Proof.
  intros Hexec Hhooks. split; [|split].
  - intros w.
    pose proof (runWithin_settles this buildWork Hexec Hhooks
                  (S (length (plan_steps plan))) plan ltac:(lia) w) as Hs.
    fold (run this buildWork plan) in Hs.
    destruct (run this buildWork plan w) as [[outcome w']|]; [|congruence].
    now exists outcome, w'.
  - intros fuel w Hfuel. now apply runWithin_enough.
  - intros index waveIndex steps executed w r w' Hw.
    pose proof (wave_progress this buildWork Hexec Hhooks index waveIndex steps executed
                  w I) as H.
    now rewrite Hw in H.
Qed.

(** *** Which steps a plan can execute *)

Definition depsOf (s : PlanStep) : list string := default [] (step_dependsOn s).

(** A step is executable within [n] rounds when each of its dependency ids
    resolves, through [stepIndex], to a step executable within [n - 1]. *)
Fixpoint executableWithin (n : nat) (steps : list PlanStep) (i : nat) : bool :=
  match n with
  | 0 => false
  | S n' =>
      match steps !! i with
      | None => false
      | Some s =>
          forallb (fun d => match stepIndex steps !! d with
                            | Some j => executableWithin n' steps j
                            | None => false
                            end) (depsOf s)
      end
  end.

(** Every chain of dependencies from the step ends in steps without
    dependencies: no missing id and no cycle on the way. *)
Definition Executable (steps : list PlanStep) (i : nat) : Prop :=
  exists n, executableWithin n steps i = true.

(** Gated on a dependency id that no step of the plan has, directly or
    through the steps it depends on. *)
Inductive Gated (steps : list PlanStep) : nat -> Prop :=
| gated_missing i s d :
    steps !! i = Some s -> d ∈ depsOf s -> stepIndex steps !! d = None ->
    Gated steps i
| gated_behind i s d j :
    steps !! i = Some s -> d ∈ depsOf s -> stepIndex steps !! d = Some j ->
    Gated steps j -> Gated steps i.

Lemma forallb_elem {A} (f : A -> bool) (l : list A) :
  forallb f l = true <-> forall x, x ∈ l -> f x = true.
Proof.
  rewrite forallb_forall. split; intros H x Hx; apply H; now apply list_elem_of_In.
Qed.

Lemma executableWithin_S (n : nat) (steps : list PlanStep) :
  forall i, executableWithin n steps i = true -> executableWithin (S n) steps i = true.
Proof.
  induction n as [|n IH]; intros i H; [discriminate|].
  change (match steps !! i with
          | None => false
          | Some s =>
              forallb (fun d => match stepIndex steps !! d with
                                | Some j => executableWithin (S n) steps j
                                | None => false
                                end) (depsOf s)
          end = true).
  simpl in H. destruct (steps !! i) as [s|]; [|discriminate].
  rewrite forallb_elem in *. intros d Hd. specialize (H d Hd).
  destruct (stepIndex steps !! d) as [j|]; [|discriminate]. now apply IH.
Qed.

Lemma executableWithin_le (n m : nat) (steps : list PlanStep) (i : nat) :
  n <= m -> executableWithin n steps i = true -> executableWithin m steps i = true.
Proof.
  induction 1 as [|m Hle IH]; intros H; [exact H|].
  now apply executableWithin_S, IH.
Qed.

Lemma Executable_intro (steps : list PlanStep) (i : nat) (s : PlanStep) :
  steps !! i = Some s ->
  (forall d, d ∈ depsOf s ->
     exists j, stepIndex steps !! d = Some j /\ Executable steps j) ->
  Executable steps i.
Proof.
  intros Hs Hdeps.
  assert (H : exists n, forall d, d ∈ depsOf s ->
                exists j, stepIndex steps !! d = Some j /\
                          executableWithin n steps j = true).
  { induction (depsOf s) as [|d ds IH].
    - exists 0. intros d Hd. inversion Hd.
    - destruct IH as [n Hn]; [intros d' Hd'; apply Hdeps; now right|].
      destruct (Hdeps d) as (j & Hj & m & Hm); [left|].
      exists (Nat.max n m). intros d' Hd'. apply elem_of_cons in Hd' as [->|Hd'].
      + exists j. split; [exact Hj|]. apply (executableWithin_le m); [lia | exact Hm].
      + destruct (Hn d' Hd') as (j' & Hj' & Hw).
        exists j'. split; [exact Hj'|]. apply (executableWithin_le n); [lia | exact Hw]. }
  destruct H as [n Hn]. exists (S n). simpl. rewrite Hs.
  apply forallb_elem. intros d Hd. destruct (Hn d Hd) as (j & -> & Hw). exact Hw.
Qed.

(** A step gated on a missing id is not executable. *)
Lemma Gated_not_Executable (steps : list PlanStep) (i : nat) :
  Gated steps i -> ~ Executable steps i.
Proof.
  intros Hg [n Hn]. revert i Hg Hn.
  induction n as [|n IH]; intros i Hg Hn; [discriminate|].
  simpl in Hn. destruct Hg as [i s d Hs Hd Hmiss | i s d j Hs Hd Hj Hg];
    rewrite Hs in Hn; rewrite forallb_elem in Hn; specialize (Hn d Hd).
  - now rewrite Hmiss in Hn.
  - rewrite Hj in Hn. exact (IH j Hg Hn).
Qed.

Lemma deadlockMessage_matches : occursIn "dependencies unresolved" deadlockMessage.
Proof. exists "Deadlock: ", "". reflexivity. Qed.

(** *** A run without hooks, on an executor that delivers every result *)

(** The loop that maps the results back, without notifications. *)
Definition applyPure (g : list nat) (rs : list AgentWorkResult)
  (state : list PlanStep * nat) : list PlanStep * nat :=
  foldl (fun (state : list PlanStep * nat) result =>
           match matchStep state.1 g result with
           | None => state
           | Some i =>
               if res_success result
               then (alter (set_status done) i state.1, S state.2)
               else (alter (markFailed result) i state.1, S state.2)
           end) state rs.

Definition agentAt (steps : list PlanStep) (i : nat) : option string :=
  match steps !! i with
  | Some s => step_agentId s
  | None => None
  end.

Lemma matchStep_finds (steps : list PlanStep) (g : list nat) (r : AgentWorkResult)
  (u : nat) (s : PlanStep) :
  u ∈ g -> steps !! u = Some s -> step_status s = Some running ->
  step_agentId s = Some (res_agentId r) ->
  exists i, matchStep steps g r = Some i.
Proof.
  intros Hu Hs Hst Hag. unfold matchStep.
  destruct (List.find _ g) as [i|] eqn:E; [now exists i|].
  exfalso. pose proof (find_none _ _ E u (proj1 (list_elem_of_In _ _) Hu)) as H.
  simpl in H. rewrite Hs, Hag, Hst in H.
  rewrite !bool_decide_eq_true_2 in H by reflexivity. discriminate.
Qed.

Lemma agentAt_alter_ne (f : PlanStep -> PlanStep) (steps : list PlanStep) (i : nat)
  (l : list nat) :
  i ∉ l -> map (agentAt (alter f i steps)) l = map (agentAt steps) l.
Proof.
  intros Hi. apply map_ext_in. intros u Hu. unfold agentAt.
  rewrite list_lookup_alter_ne; [reflexivity|].
  intros ->. apply Hi. now apply list_elem_of_In.
Qed.

(** When the results are, up to order, one success per running step [U] of
    the group, with the agent id the step carries, every step of [U] ends
    done. *)
Lemma applyPure_all_done (g : list nat) (rs : list AgentWorkResult) :
  forall (U : list nat) (steps : list PlanStep) (executed : nat),
    NoDup U ->
    (forall i, i ∈ U -> i ∈ g) ->
    (forall i, i ∈ U -> exists s, steps !! i = Some s /\ step_status s = Some running) ->
    (forall i s, i ∈ g -> i ∉ U -> steps !! i = Some s -> isActive (step_status s) = false) ->
    map (fun r => Some (res_agentId r)) rs ≡ₚ map (agentAt steps) U ->
    Forall (fun r => res_success r = true) rs ->
    exists steps',
      applyPure g rs (steps, executed) = (steps', executed + length rs) /\
      map shape steps' = map shape steps /\
      (forall i, i ∈ U -> exists s', steps' !! i = Some s' /\ step_status s' = Some done) /\
      (forall j, j ∉ U -> steps' !! j = steps !! j).
Proof.
  induction rs as [|r rs IH]; intros U steps executed Hnd Hsub Hrun Hrest Hperm Hok.
  - simpl in Hperm. symmetry in Hperm. apply Permutation_nil_r in Hperm.
    destruct U; [|discriminate].
    exists steps. simpl. rewrite Nat.add_0_r.
    split; [reflexivity|]. split; [reflexivity|]. split; [|reflexivity].
    intros i Hi. inversion Hi.
  - apply Forall_cons in Hok as [Hr Hok].
    assert (Hin : Some (res_agentId r) ∈ map (agentAt steps) U).
    { rewrite <- Hperm. simpl. left. }
    apply list_elem_of_fmap in Hin as (u & Hau & Hu).
    destruct (Hrun u Hu) as (su & Hsu & Hstu).
    assert (Hagu : step_agentId su = Some (res_agentId r)).
    { unfold agentAt in Hau. now rewrite Hsu in Hau. }
    destruct (matchStep_finds steps g r u su (Hsub u Hu) Hsu Hstu Hagu) as [i Hm].
    destruct (matchStep_Some steps g r i Hm) as (Hig & st & Hst & Hact & Hag).
    assert (HiU : i ∈ U).
    { destruct (decide (i ∈ U)) as [H|H]; [exact H|].
      rewrite (Hrest i st Hig H Hst) in Hact. discriminate. }
    destruct (proj1 (elem_of_Permutation U i) HiU) as [U' HU].
    assert (Hnd' : NoDup (i :: U')) by now rewrite <- HU.
    apply NoDup_cons in Hnd' as [HiU' Hnd'].
    set (steps1 := alter (set_status done) i steps).
    destruct (IH U' steps1 (S executed)) as (steps' & Happ & Hshape & Hdone & Hframe).
    + exact Hnd'.
    + intros j Hj. apply Hsub. rewrite HU. now right.
    + intros j Hj. destruct (Hrun j) as (sj & Hsj & Hstj); [rewrite HU; now right|].
      exists sj. split; [|exact Hstj]. unfold steps1.
      rewrite list_lookup_alter_ne; [exact Hsj|]. intros ->. contradiction.
    + intros j sj Hjg HjU' Hsj. unfold steps1 in Hsj.
      destruct (decide (j = i)) as [->|Hne].
      * rewrite list_lookup_alter_eq, Hst in Hsj. inversion Hsj. reflexivity.
      * rewrite list_lookup_alter_ne in Hsj by congruence.
        apply (Hrest j sj Hjg); [|exact Hsj].
        rewrite HU. intros [H|H]%elem_of_cons; [congruence | contradiction].
    + unfold steps1. rewrite agentAt_alter_ne by exact HiU'.
      assert (Hperm' : Some (res_agentId r) :: map (fun r => Some (res_agentId r)) rs
                       ≡ₚ agentAt steps i :: map (agentAt steps) U').
      { simpl in Hperm. rewrite Hperm, HU. reflexivity. }
      unfold agentAt in Hperm' at 1. rewrite Hst, Hag in Hperm'.
      now apply Permutation_cons_inv in Hperm'.
    + exact Hok.
    + exists steps'. split; [|split; [|split]].
      * simpl. unfold applyPure in *. simpl. rewrite Hm, Hr. fold steps1.
        rewrite Happ. f_equal. lia.
      * rewrite Hshape. unfold steps1. now apply shape_alter.
      * intros j Hj. rewrite HU in Hj. apply elem_of_cons in Hj as [->|Hj].
        -- rewrite (Hframe i HiU'). unfold steps1.
           rewrite list_lookup_alter_eq, Hst. eexists. split; reflexivity.
        -- now apply Hdone.
      * intros j Hj.
        assert (Hji : j <> i) by (intros ->; contradiction).
        rewrite Hframe.
        -- unfold steps1. now apply list_lookup_alter_ne.
        -- intros H. apply Hj. rewrite HU. now right.
Qed.

Lemma buildAll_frame (buildWork : AgentRunFactory) (g : list nat)
  (steps : list PlanStep) (j : nat) :
  j ∉ g -> (buildAll buildWork g steps).1 !! j = steps !! j.
Proof.
  revert steps. induction g as [|i g IH]; intros steps Hj; [reflexivity|].
  apply not_elem_of_cons in Hj as [Hji Hj].
  simpl. destruct (steps !! i) as [step|]; [|now apply IH].
  destruct (buildWork step) as [agent work].
  specialize (IH (alter (set_agentId agent) i steps) Hj).
  destruct (buildAll buildWork g (alter (set_agentId agent) i steps)) as [steps' works].
  simpl in *. rewrite IH. now apply list_lookup_alter_ne.
Qed.

(** A factory that is wired to the executor's matching: the step carries the
    agent id of its unit of work, and the work succeeds. *)
Definition wired (buildWork : AgentRunFactory) : Prop :=
  forall step,
    (buildWork step).1 = Some (work_agentId (buildWork step).2) /\
    exists r, work_run (buildWork step).2 = Fulfilled r /\ res_success r = true.

Definition succeeds (work : AgentWork) : Prop :=
  exists r, work_run work = Fulfilled r /\ res_success r = true.

Lemma buildAll_wired (buildWork : AgentRunFactory) (g : list nat) :
  wired buildWork ->
  forall steps : list PlanStep,
    NoDup g -> (forall i, i ∈ g -> is_Some (steps !! i)) ->
    map (agentAt (buildAll buildWork g steps).1) g
    = map (fun w => Some (work_agentId w)) (buildAll buildWork g steps).2 /\
    Forall succeeds (buildAll buildWork g steps).2 /\
    length (buildAll buildWork g steps).2 = length g.
Proof.
  intros Hw. induction g as [|i g IH]; intros steps Hnd Hv.
  - simpl. split; [reflexivity|]. split; [constructor | reflexivity].
  - apply NoDup_cons in Hnd as [Hi Hnd].
    destruct (Hv i) as [step Hstep]; [left|].
    pose proof (buildAll_frame buildWork g (alter (set_agentId (buildWork step).1) i steps)
                  i Hi) as Hframe.
    destruct (IH (alter (set_agentId (buildWork step).1) i steps) Hnd)
      as (Hag & Hsucc & Hlen).
    { intros j Hj. destruct (Hv j) as [sj Hsj]; [now right|].
      rewrite list_lookup_alter_ne; [now exists sj|]. intros ->. contradiction. }
    destruct (Hw step) as (Hwire & Hok).
    simpl. rewrite Hstep.
    destruct (buildWork step) as [agent work] eqn:Eb. simpl in *.
    destruct (buildAll buildWork g (alter (set_agentId agent) i steps))
      as [steps' works] eqn:Eall.
    simpl in *. split; [|split].
    + f_equal; [|exact Hag].
      unfold agentAt. rewrite Hframe, list_lookup_alter_eq, Hstep. simpl. exact Hwire.
    + constructor; [exact Hok | exact Hsucc].
    + now rewrite Hlen.
Qed.

(** A checkpoint wrapper that hands a fulfilled result through. *)
Definition tagTransparent (exec : ParallelExecutorOptions) : Prop :=
  forall tag, withCheckpointTag exec = Some tag ->
    forall agentId phase r, tag agentId phase (Fulfilled r) = Fulfilled r.

Lemma executeItem_succeeds (exec : ParallelExecutorOptions) (work : AgentWork) :
  tagTransparent exec -> succeeds work ->
  res_agentId (executeItem exec work) = work_agentId work /\
  res_success (executeItem exec work) = true.
Proof.
  intros Htag (r & Hrun & Hok). unfold executeItem. rewrite Hrun.
  destruct (withCheckpointTag exec) as [tag|] eqn:E.
  - rewrite (Htag tag E). simpl. split; [reflexivity | exact Hok].
  - simpl. split; [reflexivity | exact Hok].
Qed.

Section Delivered.

Context {W : Type}.
Variable timing : list AgentWork -> Timing.
Variable exec : ParallelExecutorOptions.
Variable buildWork : AgentRunFactory.

(** The executor without hooks on top of the parallel executor [exec]. *)
Definition plainDag : PlanDAGExecutorOptions W :=
  {| parallelExecutor := fun items => await (runBatch (timing items) exec items);
     hooks := None |}.

Hypothesis start_quiet : quiet (onStartBatch exec).
Hypothesis result_quiet : quiet (onResult exec).
Hypothesis finish_quiet : quiet (onFinishBatch exec).
Hypothesis tag_transparent : tagTransparent exec.
Hypothesis factory_wired : wired buildWork.

Lemma markRunning_plain (g : list nat) (steps : list PlanStep) (w : W) :
  markRunning plainDag g steps w = Some (Fulfilled (markAll g steps), w).
Proof.
  revert steps. induction g as [|i g IH]; intros steps; [reflexivity|].
  unfold markRunning in *. simpl. unfold bind at 1. unfold stepUpdate at 1. simpl.
  apply IH.
Qed.

Lemma applyResults_plain (g : list nat) (rs : list AgentWorkResult)
  (state : list PlanStep * nat) (w : W) :
  applyResults plainDag g rs state w = Some (Fulfilled (applyPure g rs state), w).
Proof.
  revert state. induction rs as [|r rs IH]; intros [steps executed]; [reflexivity|].
  unfold applyResults, applyPure in *. simpl. unfold bind at 1.
  destruct (matchStep steps g r) as [i|]; [|apply IH].
  destruct (res_success r); unfold bind, stepUpdate; simpl; apply IH.
Qed.

(** A group that fits the pool: every step of it ends done. *)
Lemma runGroup_delivered (key : string) (g : list nat) (steps : list PlanStep)
  (executed : nat) (w : W) :
  NoDup g -> allPending g steps -> length g <= maxConcurrent exec ->
  exists steps',
    runGroup plainDag buildWork (steps, executed) (key, g) w
    = Some (Fulfilled (steps', executed + length g), w) /\
    map shape steps' = map shape steps /\
    (forall i, i ∈ g -> exists s', steps' !! i = Some s' /\ step_status s' = Some done) /\
    (forall j, j ∉ g -> step_status <$> steps' !! j = step_status <$> steps !! j).
Proof.
  intros Hnd Hp Hfit. unfold runGroup. simpl.
  unfold bind at 1. rewrite markRunning_plain.
  set (steps1 := markAll g steps).
  assert (Hvalid1 : forall i, i ∈ g -> is_Some (steps1 !! i)).
  { intros i Hi. destruct (Hp i Hi) as (s0 & Hs0 & _).
    apply lookup_lt_is_Some. unfold steps1. rewrite markAll_length.
    now apply lookup_lt_Some in Hs0. }
  destruct (buildAll_wired buildWork g factory_wired steps1 Hnd Hvalid1)
    as (Hag & Hsucc & Hlen).
  pose proof (buildAll_statuses buildWork g steps1) as Hst.
  pose proof (buildAll_shape buildWork g steps1) as Hsh.
  destruct (buildAll buildWork g steps1) as [steps2 workItems] eqn:Eb. simpl in *.
  destruct (runBatch_full_pool (timing workItems) exec workItems)
    as (rs & Hrun & Hperm); [lia | assumption | assumption | assumption|].
  unfold bind at 1. unfold await at 1. rewrite Hrun. simpl results.
  rewrite applyResults_plain.
  assert (Hrs : map (fun r => Some (res_agentId r)) rs ≡ₚ map (agentAt steps2) g).
  { rewrite Hag, Hperm. rewrite map_map.
    assert (Heq : map (fun x => Some (res_agentId (executeItem exec x))) workItems
                  = map (fun w => Some (work_agentId w)) workItems).
    { clear -Hsucc tag_transparent.
      induction Hsucc as [|work works Hw _ IH]; [reflexivity|].
      simpl. destruct (executeItem_succeeds exec work tag_transparent Hw) as [-> _].
      now rewrite IH. }
    now rewrite Heq. }
  assert (Hall : Forall (fun r => res_success r = true) rs).
  { rewrite Hperm. apply Forall_forall. intros r Hr.
    apply list_elem_of_fmap in Hr as (work & -> & Hwork).
    rewrite Forall_forall in Hsucc.
    now destruct (executeItem_succeeds exec work tag_transparent (Hsucc work Hwork)). }
  destruct (applyPure_all_done g rs g steps2 executed) as (steps' & Happ & Hshape & Hdone & Hframe).
  - exact Hnd.
  - tauto.
  - intros i Hi. destruct (Hp i Hi) as (s0 & Hs0 & _).
    destruct (markAll_running g steps i Hi) as (s1 & Hs1 & Hrunning);
      [now apply lookup_lt_Some in Hs0|].
    fold steps1 in Hs1.
    destruct (statuses_lookup steps1 steps2 i s1 Hst Hs1) as (s2 & Hs2 & Hst2).
    exists s2. split; [exact Hs2 | congruence].
  - intros i s0 Hi Hni. contradiction.
  - exact Hrs.
  - exact Hall.
  - exists steps'. split; [|split; [|split]].
    + rewrite Happ.
      assert (Hn : length rs = length workItems) by (rewrite Hperm; apply length_map).
      replace (executed + length rs) with (executed + length g) by lia. reflexivity.
    + rewrite Hshape, Hsh. apply markAll_shape.
    + exact Hdone.
    + intros j Hj. rewrite (Hframe j Hj).
      rewrite <- (markAll_frame g steps j Hj). fold steps1.
      rewrite <- !list_lookup_fmap.
      change (map step_status steps2 !! j = map step_status steps1 !! j).
      now rewrite Hst.
Qed.

Lemma groups_delivered (groups : list (string * list nat)) :
  forall (steps : list PlanStep) (executed : nat) (w : W),
    NoDup (members groups) -> allPending (members groups) steps ->
    length (members groups) <= maxConcurrent exec ->
    exists steps',
      foldM (runGroup plainDag buildWork) groups (steps, executed) w
      = Some (Fulfilled (steps', executed + length (members groups)), w) /\
      map shape steps' = map shape steps /\
      (forall i, i ∈ members groups ->
         step_status <$> steps' !! i = Some (Some done)) /\
      (forall j, j ∉ members groups ->
         step_status <$> steps' !! j = step_status <$> steps !! j).
Proof.
  induction groups as [|[key g] groups IH]; intros steps executed w Hnd Hp Hfit.
  - exists steps. unfold members. simpl. rewrite Nat.add_0_r.
    split; [reflexivity|]. split; [reflexivity|]. split; [|reflexivity].
    intros i Hi. inversion Hi.
  - unfold members in Hnd, Hp, Hfit |- *.
    change (concat (map snd ((key, g) :: groups)))
      with (g ++ concat (map snd groups)) in Hnd, Hp, Hfit |- *.
    apply NoDup_app in Hnd as (Hnd1 & Hdisj & Hnd2).
    rewrite length_app in Hfit |- *.
    destruct (runGroup_delivered key g steps executed w Hnd1)
      as (steps1 & Hrun & Hshape1 & Hdone1 & Hframe1); [|lia|].
    { intros i Hi. apply Hp, elem_of_app. now left. }
    destruct (IH steps1 (executed + length g) w Hnd2) as (steps2 & Hrest & Hshape2 & Hdone2 & Hframe2);
      [|unfold members; lia|].
    { intros i Hi. destruct (Hp i) as (s0 & Hs0 & Hpend); [apply elem_of_app; now right|].
      assert (Hi' : i ∉ g) by (intros Hin; apply (Hdisj i Hin Hi)).
      specialize (Hframe1 i Hi'). rewrite Hs0 in Hframe1. simpl in Hframe1.
      destruct (steps1 !! i) as [s1|]; [|discriminate].
      exists s1. split; [reflexivity|]. inversion Hframe1 as [Heq]. now rewrite Heq. }
    exists steps2. split; [|split; [|split]].
    + change (foldM (runGroup plainDag buildWork) ((key, g) :: groups) (steps, executed) w)
        with (bind (runGroup plainDag buildWork (steps, executed) (key, g))
                (foldM (runGroup plainDag buildWork) groups) w).
      unfold bind. rewrite Hrun. unfold members in Hrest. rewrite Hrest.
      now rewrite Nat.add_assoc.
    + now rewrite Hshape2.
    + intros i Hi. apply elem_of_app in Hi as [Hi|Hi].
      * rewrite Hframe2 by (intros Hin; apply (Hdisj i Hi Hin)).
        destruct (Hdone1 i Hi) as (s1 & Hs1 & Hst1). rewrite Hs1. simpl. now rewrite Hst1.
      * now apply Hdone2.
    + intros j Hj. rewrite Hframe2, Hframe1; [reflexivity| |].
      * intros Hin. apply Hj, elem_of_app. now left.
      * intros Hin. apply Hj, elem_of_app. now right.
Qed.

Lemma readySteps_length (index : gmap string nat) (steps : list PlanStep) :
  length (readySteps index steps) <= length steps.
Proof.
  unfold readySteps.
  etransitivity; [apply filter_length_le|]. now rewrite length_seq.
Qed.

(** A wave on an executor whose pool holds the whole plan: the ready steps end
    done, the others keep their status. *)
Lemma wave_delivered (index : gmap string nat) (waveIndex : nat) (steps : list PlanStep)
  (executed : nat) (w : W) :
  length steps <= maxConcurrent exec ->
  readySteps index steps <> [] ->
  exists steps' executed',
    wave plainDag buildWork index waveIndex (steps, executed) w
    = Some (Fulfilled (inr (steps', executed')), w) /\
    map shape steps' = map shape steps /\
    (forall i, i ∈ readySteps index steps ->
       step_status <$> steps' !! i = Some (Some done)) /\
    (forall j, j ∉ readySteps index steps ->
       step_status <$> steps' !! j = step_status <$> steps !! j).
Proof.
  intros Hfit Hne.
  set (ready := readySteps index steps) in *.
  assert (Hvalid : forall i, i ∈ ready -> is_Some (steps !! i)).
  { intros i Hi. destruct (readySteps_pending index steps i Hi) as (s & Hs & _).
    now exists s. }
  pose proof (groupReady_members steps ready Hvalid) as Hperm.
  destruct (groups_delivered (groupReady steps ready) steps executed w)
    as (steps' & Hrun & Hshape & Hdone & Hframe).
  - rewrite Hperm. apply readySteps_NoDup.
  - intros i Hi. rewrite Hperm in Hi. exact (readySteps_pending index steps i Hi).
  - rewrite Hperm. pose proof (readySteps_length index steps). fold ready in H. lia.
  - exists steps', (executed + length (members (groupReady steps ready))).
    split; [|split; [exact Hshape|split]].
    + unfold wave. fold ready.
      destruct ready as [|i0 ready0] eqn:Er; [congruence|].
      unfold bind, waveStart, waveComplete.
      change (hooks plainDag) with (@None (PlanDAGExecutorHooks W)).
      unfold ret. cbv beta iota. rewrite Hrun. reflexivity.
    + intros i Hi. apply Hdone. now rewrite Hperm.
    + intros j Hj. apply Hframe. now rewrite Hperm.
Qed.

Lemma wave_exit (index : gmap string nat) (waveIndex : nat) (steps : list PlanStep)
  (executed : nat) (w : W) :
  readySteps index steps = [] ->
  wave plainDag buildWork index waveIndex (steps, executed) w
  = Some (Fulfilled (inl (markDeadlocked steps, executed)), w).
Proof. intros Hr. unfold wave. now rewrite Hr. Qed.

Lemma plainDag_settles (items : list AgentWork) :
  settles (parallelExecutor plainDag items).
Proof. intros w. discriminate. Qed.

Lemma plainDag_hooksSettle : hooksSettle plainDag.
Proof. intros h Hh. discriminate. Qed.

Variable steps0 : list PlanStep.

(** The states between two waves: only the statuses differ from the plan as
    submitted, every step is pending or done, and the done ones are
    executable. *)
Definition Clean (steps : list PlanStep) : Prop :=
  map shape steps = map shape steps0 /\
  (forall i s, steps !! i = Some s ->
     isPendingStatus (step_status s) = true \/ step_status s = Some done) /\
  (forall i, step_status <$> steps !! i = Some (Some done) -> Executable steps0 i).

Lemma shape_lookup (steps : list PlanStep) (i : nat) (s : PlanStep) :
  map shape steps = map shape steps0 ->
  steps !! i = Some s ->
  exists s0, steps0 !! i = Some s0 /\ depsOf s0 = depsOf s.
Proof.
  intros Hmap Hs.
  assert (H : map shape steps0 !! i = Some (shape s)).
  { rewrite <- Hmap, list_lookup_fmap, Hs. reflexivity. }
  rewrite list_lookup_fmap in H.
  destruct (steps0 !! i) as [s0|]; [|discriminate].
  exists s0. split; [reflexivity|]. simpl in H. inversion H as [[H1 H2 H3 H4]].
  unfold depsOf. now rewrite H4.
Qed.

Lemma depDone_done (steps : list PlanStep) (d : string) :
  depDone (stepIndex steps0) steps d = true ->
  exists j, stepIndex steps0 !! d = Some j /\
            step_status <$> steps !! j = Some (Some done).
Proof.
  unfold depDone. intros H.
  destruct (stepIndex steps0 !! d) as [j|]; [|discriminate].
  exists j. split; [reflexivity|].
  destruct (steps !! j) as [s|]; [|discriminate].
  apply bool_decide_eq_true in H. simpl. now rewrite H.
Qed.

Lemma isReady_deps (steps : list PlanStep) (s : PlanStep) :
  isReady (stepIndex steps0) steps s = true <->
  isPendingStatus (step_status s) = true /\
  forall d, d ∈ depsOf s -> depDone (stepIndex steps0) steps d = true.
Proof.
  unfold isReady, depsOf. rewrite andb_true_iff.
  destruct (step_dependsOn s) as [ds|]; simpl.
  - now rewrite forallb_elem.
  - split; intros [H _]; (split; [exact H|]); [intros d Hd; inversion Hd | reflexivity].
Qed.

Lemma readySteps_elem (steps : list PlanStep) (i : nat) :
  i ∈ readySteps (stepIndex steps0) steps <->
  exists s, steps !! i = Some s /\ isReady (stepIndex steps0) steps s = true.
Proof.
  unfold readySteps. rewrite list_elem_of_In, filter_In. split.
  - intros [_ H]. destruct (steps !! i) as [s|]; [|discriminate]. now exists s.
  - intros (s & Hs & Hr). split.
    + apply in_seq. apply lookup_lt_Some in Hs. lia.
    + now rewrite Hs.
Qed.

Lemma Clean_wave (steps steps' : list PlanStep) :
  Clean steps ->
  map shape steps' = map shape steps ->
  (forall i, i ∈ readySteps (stepIndex steps0) steps ->
     step_status <$> steps' !! i = Some (Some done)) ->
  (forall j, j ∉ readySteps (stepIndex steps0) steps ->
     step_status <$> steps' !! j = step_status <$> steps !! j) ->
  Clean steps'.
Proof.
  intros (Hshape & Hpd & Hdone) Hshape' Hready Hframe. split; [|split].
  - now rewrite Hshape'.
  - intros i s' Hs'.
    destruct (decide (i ∈ readySteps (stepIndex steps0) steps)) as [Hi|Hi].
    + right. specialize (Hready i Hi). rewrite Hs' in Hready. simpl in Hready.
      now inversion Hready.
    + specialize (Hframe i Hi). rewrite Hs' in Hframe. simpl in Hframe.
      destruct (steps !! i) as [s|] eqn:Hs; [|discriminate].
      simpl in Hframe. inversion Hframe as [Heq]. rewrite Heq. now apply (Hpd i).
  - intros i Hi.
    destruct (decide (i ∈ readySteps (stepIndex steps0) steps)) as [Hr|Hr].
    + apply readySteps_elem in Hr as (s & Hs & Hrdy).
      apply isReady_deps in Hrdy as [_ Hdeps].
      destruct (shape_lookup steps i s Hshape Hs) as (s0 & Hs0 & Hd0).
      apply (Executable_intro steps0 i s0 Hs0). intros d Hd. rewrite Hd0 in Hd.
      destruct (depDone_done steps d (Hdeps d Hd)) as (j & Hj & Hjdone).
      exists j. split; [exact Hj | now apply Hdone].
    + apply Hdone. now rewrite <- (Hframe i Hr).
Qed.

(** While an executable step is not done, some step is ready. *)
Lemma Clean_not_stuck (steps : list PlanStep) (n : nat) :
  Clean steps ->
  forall i, executableWithin n steps0 i = true ->
            step_status <$> steps !! i <> Some (Some done) ->
            readySteps (stepIndex steps0) steps <> [].
Proof.
  intros (Hshape & Hpd & Hdone).
  induction n as [|n IH]; intros i Hn Hnot; [discriminate|].
  simpl in Hn. destruct (steps0 !! i) as [s0|] eqn:Hs0; [|discriminate].
  rewrite forallb_elem in Hn.
  assert (Hlen : length steps = length steps0).
  { rewrite <- (length_map shape steps), Hshape. apply length_map. }
  destruct (lookup_lt_is_Some_2 steps i) as [s Hs].
  { rewrite Hlen. now apply lookup_lt_Some in Hs0. }
  destruct (shape_lookup steps i s Hshape Hs) as (s0' & Hs0' & Hd0).
  rewrite Hs0 in Hs0'. inversion Hs0'; subst s0'.
  destruct (forallb (depDone (stepIndex steps0) steps) (depsOf s)) eqn:Hall.
  - assert (Hin : i ∈ readySteps (stepIndex steps0) steps).
    { apply readySteps_elem. exists s. split; [exact Hs|].
      apply isReady_deps. split.
      - destruct (Hpd i s Hs) as [Hp|Hd]; [exact Hp|].
        exfalso. apply Hnot. rewrite Hs. simpl. now rewrite Hd.
      - now apply forallb_elem. }
    intros Hemp. rewrite Hemp in Hin. inversion Hin.
  - assert (Hex : exists d, d ∈ depsOf s /\ depDone (stepIndex steps0) steps d = false).
    { clear -Hall. induction (depsOf s) as [|d ds IHd]; [discriminate|].
      simpl in Hall. destruct (depDone (stepIndex steps0) steps d) eqn:Ed.
      - destruct (IHd Hall) as (d' & Hd' & Hf). exists d'. split; [now right | exact Hf].
      - exists d. split; [left | exact Ed]. }
    destruct Hex as (d & Hd & Hfalse).
    rewrite <- Hd0 in Hd. specialize (Hn d Hd).
    destruct (stepIndex steps0 !! d) as [j|] eqn:Hj; [|discriminate].
    apply (IH j Hn). intros Hjdone.
    unfold depDone in Hfalse. rewrite Hj in Hfalse.
    destruct (steps !! j) as [sj|]; [|discriminate].
    simpl in Hjdone. inversion Hjdone as [Hst].
    rewrite Hst in Hfalse. now rewrite bool_decide_eq_true_2 in Hfalse.
Qed.

(** What the run leaves: executable steps done, every other step in error
    with the deadlock message. *)
Definition Settled_plan (final : list PlanStep) : Prop :=
  map shape final = map shape steps0 /\
  forall i s', final !! i = Some s' ->
    (Executable steps0 i -> step_status s' = Some done) /\
    (~ Executable steps0 i ->
     step_status s' = Some error /\ step_errorMessage s' = Some deadlockMessage).

Lemma Clean_exit (steps : list PlanStep) :
  Clean steps -> readySteps (stepIndex steps0) steps = [] ->
  Settled_plan (markDeadlocked steps).
Proof.
  intros HC Hempty. pose proof HC as (Hshape & Hpd & Hdone). split.
  - now rewrite markDeadlocked_shape.
  - intros i s' Hs'. unfold markDeadlocked in Hs'.
    rewrite list_lookup_fmap in Hs'.
    destruct (steps !! i) as [s|] eqn:Hs; [|discriminate].
    simpl in Hs'. inversion Hs' as [Heq]. clear Hs'.
    destruct (Hpd i s Hs) as [Hp|Hd].
    + assert (Hterm : isTerminal (step_status s) = false).
      { destruct (step_status s) as [[]|]; simpl in *; congruence. }
      rewrite Hterm. simpl. split; [|intros _; split; reflexivity].
      intros [n Hn]. exfalso.
      apply (Clean_not_stuck steps n HC i Hn); [|exact Hempty].
      rewrite Hs. simpl. intros H. inversion H as [Hst]. rewrite Hst in Hp. discriminate.
    + rewrite Hd. simpl. split; [intros _; exact Hd|].
      intros Hnot. exfalso. apply Hnot, Hdone. rewrite Hs. simpl. now rewrite Hd.
Qed.

Lemma waveLoop_delivered (w : W) (fuel : nat) :
  forall (waveIndex : nat) (steps : list PlanStep) (executed : nat),
    Clean steps -> length steps0 <= maxConcurrent exec ->
    pendingCount steps < fuel ->
    exists final executed' waves,
      waveLoop plainDag buildWork fuel (stepIndex steps0) waveIndex (steps, executed) w
      = Some (Fulfilled (final, executed', waves), w) /\
      Settled_plan final.
Proof.
  induction fuel as [|fuel IH]; intros waveIndex steps executed HC Hfit Hfuel; [lia|].
  change (waveLoop plainDag buildWork (S fuel) (stepIndex steps0) waveIndex (steps, executed))
    with (bind (wave plainDag buildWork (stepIndex steps0) waveIndex (steps, executed))
            (fun r => match r with
                      | inl final => ret (final, waveIndex)
                      | inr state' =>
                          waveLoop plainDag buildWork fuel (stepIndex steps0)
                            (S waveIndex) state'
                      end)).
  unfold bind.
  destruct (readySteps (stepIndex steps0) steps) as [|i0 ready0] eqn:Er.
  - rewrite (wave_exit _ _ _ _ _ Er).
    exists (markDeadlocked steps), executed, waveIndex.
    split; [reflexivity | now apply Clean_exit].
  - assert (Hlen : length steps = length steps0).
    { destruct HC as (Hshape & _). rewrite <- (length_map shape steps), Hshape.
      apply length_map. }
    destruct (wave_delivered (stepIndex steps0) waveIndex steps executed w)
      as (steps' & executed' & Hwave & Hshape' & Hready & Hframe);
      [lia | now rewrite Er|].
    pose proof (wave_progress plainDag buildWork plainDag_settles plainDag_hooksSettle
                  (stepIndex steps0) waveIndex steps executed w I) as Hprog.
    rewrite Hwave in Hprog |- *.
    apply (IH (S waveIndex) steps' executed'); [|exact Hfit|lia].
    now apply (Clean_wave steps steps').
Qed.

End Delivered.


(** *** Sample plans *)

Definition mkStep (id : string) (agent : option string) (deps : list string) : PlanStep :=
  {| step_id := id; step_description := "Step " +:+ id; step_agentId := agent;
     step_parallelGroup := None; step_dependsOn := Some deps;
     step_status := Some pending; step_errorMessage := None |}.

Definition planOf (steps : list PlanStep) : Plan :=
  {| plan_rationale := None; plan_steps := steps |}.

(** The factory of the repository's executor tests: the work runs under the
    step's agent id, or under the step's id when the step has none; the step
    itself is left alone. *)
Definition testFactory : AgentRunFactory :=
  fun step =>
    let agentId := optOrElse (step_agentId step) (step_id step) in
    (step_agentId step,
     {| work_agentId := agentId; work_phase := execution; work_label := None;
        work_run := Fulfilled (okResult agentId) |}).

(** A factory that first gives the step the agent id the work will report. *)
Definition assigningFactory : AgentRunFactory :=
  fun step =>
    let agentId := optOrElse (step_agentId step) (step_id step) in
    (Some agentId,
     {| work_agentId := agentId; work_phase := execution; work_label := None;
        work_run := Fulfilled (okResult agentId) |}).

Definition sampleDag (ceiling : nat) : PlanDAGExecutorOptions unit :=
  plainDag (fun _ => inOrder) (plainExecutor ceiling).

Definition statusesOf (r : option (Settled (PlanDagRunResult * Plan) * unit))
  : option (list (string * option StepStatus)) :=
  match r with
  | Some (Fulfilled (_, p), _) =>
      Some (map (fun s => (step_id s, step_status s)) (plan_steps p))
  | _ => None
  end.

(** Two steps that wait for each other, one that waits for a missing id, one
    behind it, and a free one. *)
Definition tangledPlan : Plan :=
  planOf [ mkStep "a" None ["b"]; mkStep "b" None ["a"];
           mkStep "c" None ["missing"]; mkStep "d" None ["c"];
           mkStep "e" None [] ].

Example tangledPlan_statuses :
  statusesOf (run (sampleDag 5) assigningFactory tangledPlan tt)
  = Some [("a", Some error); ("b", Some error); ("c", Some error);
          ("d", Some error); ("e", Some done)].
Proof. vm_compute. reflexivity. Qed.

Lemma sampleDag_settles (ceiling : nat) (items : list AgentWork) :
  settles (parallelExecutor (sampleDag ceiling) items).
Proof. intros w. discriminate. Qed.

Lemma sampleDag_hooksSettle (ceiling : nat) : hooksSettle (sampleDag ceiling).
Proof. intros h Hh. discriminate. Qed.

(** The tangled plan runs to its end. *)
Lemma run_terminates_witness :
  exists outcome w', run (sampleDag 5) assigningFactory tangledPlan tt = Some (outcome, w').
Proof.
  apply (proj1 (run_terminates (sampleDag 5) assigningFactory tangledPlan
                  (sampleDag_settles 5) (sampleDag_hooksSettle 5))).
Defined.

Lemma assigningFactory_wired : wired assigningFactory.
Proof.
  intros step. split; [reflexivity|]. eexists. split; reflexivity.
Qed.

Lemma plainExecutor_transparent (ceiling : nat) : tagTransparent (plainExecutor ceiling).
Proof. intros tag Htag. discriminate. Qed.


(** What the specification promises of dangling dependencies, as it stands:
    the steps gated on a missing id end in error, all others end done. *)
Definition danglingClaim (ceiling : nat) (buildWork : AgentRunFactory) (plan : Plan) : Prop :=
  exists result plan',
    run (sampleDag ceiling) buildWork plan tt = Some (Fulfilled (result, plan'), tt) /\
    forall i s', plan_steps plan' !! i = Some s' ->
      (Gated (plan_steps plan) i ->
       step_status s' = Some error /\
       exists m, step_errorMessage s' = Some m /\ occursIn "dependencies unresolved" m) /\
      (~ Gated (plan_steps plan) i -> step_status s' = Some done).

Definition selfDependentPlan : Plan := planOf [mkStep "a" (Some "w") ["a"]].


(** The plan of the repository's deadlock test, with its factory: the steps
    carry no agent id, the result of ["s1"] is matched to no step, and
    ["s1"] stays running until the deadlock branch puts it in error. *)
Example unassigned_step_is_never_matched :
  statusesOf (run (sampleDag 2) testFactory
                (planOf [mkStep "s1" None []; mkStep "s2" None ["sX"]]) tt)
  = Some [("s1", Some error); ("s2", Some error)].
Proof. vm_compute. reflexivity. Qed.

(** With the agent ids in place the same plan ends as the test expects. *)
Example assigned_steps_are_matched :
  statusesOf (run (sampleDag 2) testFactory
                (planOf [mkStep "s1" (Some "s1") []; mkStep "s2" (Some "s2") ["sX"]]) tt)
  = Some [("s1", Some done); ("s2", Some error)].
Proof. vm_compute. reflexivity. Qed.

(** A group larger than the pool: the summary is taken when the primed item
    has settled, and the second step is left running. *)
Example beyond_the_pool :
  statusesOf (run (sampleDag 1) assigningFactory
                (planOf [mkStep "a" None []; mkStep "b" None []]) tt)
  = Some [("a", Some done); ("b", Some error)].
Proof. vm_compute. reflexivity. Qed.

(** ** What every run respects: the order of dependencies and the count of waves *)

(** No step is running or done unless each of its dependencies is done. *)
Definition Ordered (index : gmap string nat) (steps : list PlanStep) : Prop :=
  forall i s, steps !! i = Some s ->
    step_status s = Some done \/ step_status s = Some running ->
    forallb (depDone index steps) (depsOf s) = true.

(** [steps'] comes from [steps] by a wave over the steps [ready]. *)
Definition Moved (ready : list nat) (steps steps' : list PlanStep) : Prop :=
  map shape steps' = map shape steps /\
  (forall j, j ∉ ready -> step_status <$> steps' !! j = step_status <$> steps !! j).

Lemma shape_same_step (steps steps' : list PlanStep) (i : nat) (s' : PlanStep) :
  map shape steps' = map shape steps -> steps' !! i = Some s' ->
  exists s, steps !! i = Some s /\ shape s = shape s'.
Proof.
  intros Hshape Hs'.
  assert (H : map shape steps !! i = Some (shape s')).
  { rewrite <- Hshape. change (map shape steps') with (shape <$> steps').
    now rewrite list_lookup_fmap, Hs'. }
  change (map shape steps) with (shape <$> steps) in H.
  rewrite list_lookup_fmap in H.
  destruct (steps !! i) as [s|]; [|discriminate].
  exists s. split; [reflexivity|]. simpl in H. congruence.
Qed.

Lemma depsOf_shape (s s' : PlanStep) : shape s = shape s' -> depsOf s = depsOf s'.
Proof. unfold shape, depsOf. intros H. inversion H as [[H1 H2 H3 H4]]. now rewrite H4. Qed.

Lemma depDone_kept (index : gmap string nat) (steps steps' : list PlanStep) (d : string) :
  (forall j, step_status <$> steps !! j = Some (Some done) ->
             step_status <$> steps' !! j = Some (Some done)) ->
  depDone index steps d = true -> depDone index steps' d = true.
Proof.
  intros Hkept. unfold depDone.
  destruct (index !! d) as [j|]; [|discriminate].
  specialize (Hkept j).
  destruct (steps !! j) as [s|]; [|discriminate]. intros H.
  apply bool_decide_eq_true in H. simpl in Hkept. rewrite H in Hkept.
  specialize (Hkept eq_refl).
  destruct (steps' !! j) as [s'|]; [|discriminate].
  simpl in Hkept. apply bool_decide_eq_true. congruence.
Qed.

Lemma forallb_depDone_kept (index : gmap string nat) (steps steps' : list PlanStep)
  (ds : list string) :
  (forall j, step_status <$> steps !! j = Some (Some done) ->
             step_status <$> steps' !! j = Some (Some done)) ->
  forallb (depDone index steps) ds = true -> forallb (depDone index steps') ds = true.
Proof.
  intros Hkept. induction ds as [|d ds IH]; [reflexivity|].
  simpl. intros H. apply andb_prop in H as [Hd Hds].
  rewrite (depDone_kept index steps steps' d Hkept Hd). now apply IH.
Qed.

Lemma ready_is_pending (index : gmap string nat) (steps : list PlanStep) (j : nat)
  (s : PlanStep) :
  j ∈ readySteps index steps -> steps !! j = Some s ->
  isPendingStatus (step_status s) = true /\
  forallb (depDone index steps) (depsOf s) = true.
Proof.
  intros Hj Hs. unfold readySteps in Hj.
  apply list_elem_of_In, filter_In in Hj as [_ Hj].
  rewrite Hs in Hj. unfold isReady in Hj. apply andb_prop in Hj as [Hp Hd].
  split; [exact Hp|]. unfold depsOf. now destruct (step_dependsOn s).
Qed.

Lemma Moved_done_kept (index : gmap string nat) (steps steps' : list PlanStep) :
  Moved (readySteps index steps) steps steps' ->
  forall j, isTerminal <$> (step_status <$> steps !! j) = Some true ->
            step_status <$> steps' !! j = step_status <$> steps !! j.
Proof.
  intros [_ Hframe] j Hj. apply Hframe. intros Hin.
  destruct (steps !! j) as [s|] eqn:Es; [|discriminate].
  destruct (ready_is_pending index steps j s Hin Es) as [Hp _].
  simpl in Hj. destruct (step_status s) as [[]|]; simpl in *; congruence.
Qed.

Lemma Moved_Ordered (index : gmap string nat) (steps steps' : list PlanStep) :
  Moved (readySteps index steps) steps steps' ->
  Ordered index steps -> Ordered index steps'.
Proof.
  intros Hmoved Hord i s' Hs' Hst.
  pose proof Hmoved as [Hshape Hframe].
  destruct (shape_same_step steps steps' i s' Hshape Hs') as (s & Hs & Hsh).
  rewrite <- (depsOf_shape s s' Hsh).
  apply (forallb_depDone_kept index steps steps').
  - intros j Hj. rewrite (Moved_done_kept index steps steps' Hmoved j); [exact Hj|].
    destruct (steps !! j) as [x|]; [|discriminate]. simpl in *.
    inversion Hj as [Hx]. now rewrite Hx.
  - destruct (decide (i ∈ readySteps index steps)) as [Hin|Hout].
    + exact (proj2 (ready_is_pending index steps i s Hin Hs)).
    + apply (Hord i s Hs). specialize (Hframe i Hout).
      rewrite Hs, Hs' in Hframe. simpl in Hframe.
      assert (Heq : step_status s' = step_status s) by congruence.
      rewrite <- Heq. exact Hst.
Qed.

(** In the plan as returned, every dependency of a done step is done. *)
Definition Closed (index : gmap string nat) (final : list PlanStep) : Prop :=
  forall i s, final !! i = Some s -> step_status s = Some done ->
    forall d, d ∈ depsOf s ->
      exists j sd, index !! d = Some j /\ final !! j = Some sd /\
                   step_status sd = Some done.

Lemma markDeadlocked_lookup (steps : list PlanStep) (i : nat) :
  markDeadlocked steps !! i
  = (fun s => if isTerminal (step_status s) then s
              else set_errorMessage deadlockMessage (set_status error s)) <$> steps !! i.
Proof. unfold markDeadlocked. apply list_lookup_fmap. Qed.

Lemma Ordered_Closed (index : gmap string nat) (steps : list PlanStep) :
  Ordered index steps -> Closed index (markDeadlocked steps).
Proof.
  intros Hord i s' Hs' Hdone d Hd.
  rewrite markDeadlocked_lookup in Hs'.
  destruct (steps !! i) as [s|] eqn:Es; [|discriminate].
  simpl in Hs'.
  assert (Hs : s' = s).
  { destruct (isTerminal (step_status s)) eqn:Et; [congruence|].
    inversion Hs' as [Heq]. subst s'. simpl in Hdone. discriminate. }
  subst s'. clear Hs'.
  pose proof (Hord i s Es (or_introl Hdone)) as Hall.
  rewrite forallb_forall in Hall. specialize (Hall d).
  assert (Hdd : depDone index steps d = true) by (apply Hall; now apply list_elem_of_In).
  unfold depDone in Hdd.
  destruct (index !! d) as [j|]; [|discriminate].
  destruct (steps !! j) as [sd|] eqn:Ej; [|discriminate].
  apply bool_decide_eq_true in Hdd.
  exists j, sd. split; [reflexivity|]. split; [|exact Hdd].
  rewrite markDeadlocked_lookup, Ej. simpl. now rewrite Hdd.
Qed.

Section Order.

Context {W : Type}.
Variable this : PlanDAGExecutorOptions W.
Variable buildWork : AgentRunFactory.
Hypothesis executor_settles : forall items, settles (parallelExecutor this items).
Hypothesis hooks_settle : hooksSettle this.

Let anywhere : nat -> W -> Prop := fun _ _ => True.

(** A turn of the loop: the deadlock branch, or a wave that moves ready
    steps only. *)
Lemma wave_moves (index : gmap string nat) (waveIndex : nat) (steps : list PlanStep)
  (executed : nat) :
  spec false (fun _ => True) (wave this buildWork index waveIndex (steps, executed))
    (fun r _ =>
       match r with
       | inl (final, _) => final = markDeadlocked steps
       | inr (steps', _) =>
           Moved (readySteps index steps) steps steps' /\
           pendingCount steps' < pendingCount steps
       end).
Proof.
  unfold wave.
  destruct (readySteps index steps) as [|i0 ready0] eqn:Er.
  - apply spec_ret. intros w _. reflexivity.
  - set (ready := i0 :: ready0) in *.
    assert (Hvalid : forall i, i ∈ ready -> is_Some (steps !! i)).
    { intros i Hi. rewrite <- Er in Hi.
      destruct (readySteps_pending index steps i Hi) as (s & Hs & _). now exists s. }
    pose proof (groupReady_members steps ready Hvalid) as Hperm.
    assert (Hnd : NoDup (members (groupReady steps ready))).
    { rewrite Hperm, <- Er. apply readySteps_NoDup. }
    assert (Hp : allPending (members (groupReady steps ready)) steps).
    { intros i Hi. rewrite Hperm, <- Er in Hi.
      exact (readySteps_pending index steps i Hi). }
    assert (Hlen : length (members (groupReady steps ready)) = S (length ready0)).
    { now rewrite Hperm. }
    assert (Hany : forall {A} (m : M W A), settles m ->
               forall k k', spec false (anywhere k) m (fun _ => anywhere k')).
    { intros A m Hm k k'. eapply spec_conseq; [apply settles_spec, Hm| |];
        intros; exact I. }
    apply spec_bind with (mid := fun _ _ => True).
    + unfold waveStart. destruct (hooks this) as [h|] eqn:Eh; [|apply spec_ret; auto].
      destruct (onWaveStart h) as [f|] eqn:Ef; [|apply spec_ret; auto].
      apply settles_spec. now apply (proj1 (proj2 (hooks_settle h Eh)) f Ef).
    + intros _.
      apply spec_bind
        with (mid := fun a _ =>
                       exists t, Dispatched 0 0 0 (members (groupReady steps ready))
                                   steps a.1 t).
      * eapply spec_conseq.
        -- apply (groups_spec anywhere ltac:(intros; exact I) false 0 0 0 this buildWork)
             with (k := 0); [| | | |exact Hnd|exact Hp].
           ++ intros k items. now apply Hany.
           ++ intros h f Hh Hf k s e.
              apply Hany. now apply (proj1 (hooks_settle h Hh) f Hf).
           ++ intros h f Hh Hf k n l.
              apply Hany. now apply (proj1 (proj2 (hooks_settle h Hh)) f Hf).
           ++ intros h f Hh Hf k n l.
              apply Hany. now apply (proj2 (proj2 (hooks_settle h Hh)) f Hf).
        -- intros w _. exact I.
        -- intros a w (t & _ & Hd). now exists t.
      * intros [steps' executed']. simpl.
        apply spec_bind
          with (mid := fun _ _ =>
                         exists t, Dispatched 0 0 0 (members (groupReady steps ready))
                                     steps steps' t).
        -- intros w Hd.
           assert (Hc : settles (waveComplete this waveIndex steps' ready)).
           { unfold waveComplete. destruct (hooks this) as [h|] eqn:Eh;
               [|intros w0; discriminate].
             destruct (onWaveComplete h) as [f|] eqn:Ef; [|intros w0; discriminate].
             now apply (proj2 (proj2 (hooks_settle h Eh)) f Ef). }
           specialize (Hc w).
           destruct (waveComplete this waveIndex steps' ready w) as [[[[]|e] w']|];
             [exact Hd | reflexivity | congruence].
        -- intros _. apply spec_ret. intros w (t & _ & Hd2 & Hd3 & Hframe).
           rewrite Hlen in Hd2. split; [|lia].
           split; [exact Hd3|].
           intros j Hj. apply Hframe. now rewrite Hperm.
Qed.

Section Invariant.

Variable index : gmap string nat.
Variable P : list PlanStep -> Prop.
Hypothesis P_moved :
  forall steps steps', Moved (readySteps index steps) steps steps' -> P steps -> P steps'.

(** The loop keeps whatever a wave keeps, and ends in the deadlock branch. *)
Lemma waveLoop_invariant (fuel : nat) :
  forall (waveIndex : nat) (steps : list PlanStep) (executed : nat),
    pendingCount steps < fuel ->
    P steps ->
    spec false (fun _ => True)
      (waveLoop this buildWork fuel index waveIndex (steps, executed))
      (fun r _ =>
         (exists last, P last /\ r.1.1 = markDeadlocked last) /\
         r.2 <= waveIndex + pendingCount steps /\
         (forall j, isTerminal <$> (step_status <$> steps !! j) = Some true ->
                    step_status <$> r.1.1 !! j = step_status <$> steps !! j)).
Proof.
  induction fuel as [|fuel IH]; intros waveIndex steps executed Hfuel HP; [lia|].
  intros w _.
  change (waveLoop this buildWork (S fuel) index waveIndex (steps, executed))
    with (bind (wave this buildWork index waveIndex (steps, executed))
            (fun r => match r with
                      | inl final => ret (final, waveIndex)
                      | inr state' => waveLoop this buildWork fuel index (S waveIndex) state'
                      end)).
  unfold bind.
  pose proof (wave_moves index waveIndex steps executed w I) as Hwave.
  destruct (wave this buildWork index waveIndex (steps, executed) w)
    as [[[[[final ex]|[steps' ex']]|e] w']|]; [| |exact Hwave|exact Hwave].
  - simpl. subst final. split; [now exists steps|]. split; [lia|].
    intros j Hj. rewrite markDeadlocked_lookup.
    destruct (steps !! j) as [s|]; [|reflexivity]. simpl in *.
    inversion Hj as [Ht]. now rewrite Ht.
  - destruct Hwave as [Hmoved Hless].
    pose proof (IH (S waveIndex) steps' ex' ltac:(lia)
                  (P_moved steps steps' Hmoved HP) w' I) as Hrest.
    destruct (waveLoop this buildWork fuel index (S waveIndex) (steps', ex') w')
      as [[[r|e] w'']|]; [|exact Hrest|exact Hrest].
    destruct Hrest as (Hlast & Hwaves & Hkept).
    split; [exact Hlast|]. split; [lia|].
    intros j Hj.
    pose proof (Moved_done_kept index steps steps' Hmoved j Hj) as Hsame.
    rewrite <- Hsame. apply Hkept. now rewrite Hsame.
Qed.

End Invariant.

Lemma run_invariant (P : list PlanStep -> Prop) (plan : Plan) :
  (forall steps steps',
     Moved (readySteps (stepIndex (plan_steps plan)) steps) steps steps' ->
     P steps -> P steps') ->
  P (plan_steps plan) ->
  spec false (fun _ => True) (run this buildWork plan)
    (fun r _ =>
       (exists last, P last /\ plan_steps r.2 = markDeadlocked last) /\
       waves r.1 <= pendingCount (plan_steps plan) /\
       (forall j, isTerminal <$> (step_status <$> plan_steps plan !! j) = Some true ->
                  step_status <$> plan_steps r.2 !! j
                  = step_status <$> plan_steps plan !! j)).
Proof.
  intros Hmoved HP. unfold run, runWithin.
  apply spec_bind
    with (mid := fun r _ =>
                   (exists last, P last /\ r.1.1 = markDeadlocked last) /\
                   r.2 <= 0 + pendingCount (plan_steps plan) /\
                   (forall j, isTerminal <$> (step_status <$> plan_steps plan !! j)
                              = Some true ->
                              step_status <$> r.1.1 !! j
                              = step_status <$> plan_steps plan !! j)).
  - apply (waveLoop_invariant _ P Hmoved); [|exact HP].
    pose proof (pendingCount_bound (plan_steps plan)). lia.
  - intros [[steps executed] n]. apply spec_ret. simpl.
    intros w (Hc & Hn & Hk). split; [exact Hc|]. split; [lia | exact Hk].
Qed.

End Order.

Lemma fresh_plan_Ordered (index : gmap string nat) (steps : list PlanStep) :
  Forall (fun s => isPendingStatus (step_status s) = true) steps -> Ordered index steps.
Proof.
  intros Hall i s Hs Hst. rewrite Forall_lookup in Hall. specialize (Hall i s Hs).
  destruct Hst as [Hst|Hst]; rewrite Hst in Hall; discriminate.
Qed.

(** X22.  The executor respects the dependencies, whatever the work
    reports and whatever the batch executor and the hooks do (as long as they
    return): in the plan as a run of pending steps leaves it, every
    dependency of a step that is done names a step (the one the executor's
    index holds for that id) that is done too.  No step is ever completed
    ahead of, or without, what it depends on. *)
Theorem run_completes_dependencies_first {W : Type} (this : PlanDAGExecutorOptions W)
  (buildWork : AgentRunFactory) (plan : Plan) (w : W)
  (result : PlanDagRunResult) (plan' : Plan) (w' : W) :
  (forall items, settles (parallelExecutor this items)) ->
  hooksSettle this ->
  Forall (fun s => isPendingStatus (step_status s) = true) (plan_steps plan) ->
  run this buildWork plan w = Some (Fulfilled (result, plan'), w') ->
  forall i s,
    plan_steps plan' !! i = Some s -> step_status s = Some done ->
    forall d, d ∈ depsOf s ->
      exists j sd,
        stepIndex (plan_steps plan) !! d = Some j /\
        plan_steps plan' !! j = Some sd /\
        step_status sd = Some done.
Proof.
  intros Hexec Hhooks Hfresh Hrun.
  pose proof (run_invariant this buildWork Hexec Hhooks
                (Ordered (stepIndex (plan_steps plan))) plan
                (Moved_Ordered _) (fresh_plan_Ordered _ _ Hfresh) w I) as H.
  rewrite Hrun in H. destruct H as ((last & Hord & Hlast) & _).
  simpl in Hlast. rewrite Hlast. now apply Ordered_Closed.
Qed.

Definition chainPlan : Plan :=
  planOf [mkStep "a" (Some "w1") []; mkStep "b" (Some "w2") ["a"];
          mkStep "c" (Some "w3") ["b"; "missing"]].

Lemma run_completes_dependencies_first_witness :
  exists result plan',
    run (sampleDag 4) assigningFactory chainPlan tt = Some (Fulfilled (result, plan'), tt) /\
    forall i s,
      plan_steps plan' !! i = Some s -> step_status s = Some done ->
      forall d, d ∈ depsOf s ->
        exists j sd,
          stepIndex (plan_steps chainPlan) !! d = Some j /\
          plan_steps plan' !! j = Some sd /\ step_status sd = Some done.
Proof.
  eexists _, _. split; [vm_compute; reflexivity|].
  eapply (run_completes_dependencies_first (sampleDag 4) assigningFactory chainPlan tt _ _ tt
            (sampleDag_settles 4) (sampleDag_hooksSettle 4)).
  - repeat constructor.
  - vm_compute. reflexivity.
Defined.

(** X23.  The bookkeeping of a run, for any plan and whatever the work
    reports: it makes at most one wave per step that was pending at the
    start, so no more waves than the plan has steps; and a step that was
    already done or in error at the start is still there with that status
    in the plan as returned. *)
Theorem run_counts_waves {W : Type} (this : PlanDAGExecutorOptions W)
  (buildWork : AgentRunFactory) (plan : Plan) (w : W)
  (result : PlanDagRunResult) (plan' : Plan) (w' : W) :
  (forall items, settles (parallelExecutor this items)) ->
  hooksSettle this ->
  run this buildWork plan w = Some (Fulfilled (result, plan'), w') ->
  waves result <= pendingCount (plan_steps plan) <= length (plan_steps plan) /\
  (forall j s, plan_steps plan !! j = Some s -> isTerminal (step_status s) = true ->
     exists s', plan_steps plan' !! j = Some s' /\ step_status s' = step_status s).
Proof.
  intros Hexec Hhooks Hrun.
  pose proof (run_invariant this buildWork Hexec Hhooks (fun _ => True) plan
                (fun _ _ _ _ => I) I w I) as H.
  rewrite Hrun in H. destruct H as (_ & Hwaves & Hkept).
  split; [split; [exact Hwaves | apply pendingCount_bound]|].
  intros j s Hs Ht. specialize (Hkept j). rewrite Hs in Hkept. simpl in Hkept.
  rewrite Ht in Hkept. specialize (Hkept eq_refl).
  destruct (plan_steps plan' !! j) as [s'|]; [|discriminate].
  exists s'. split; [reflexivity|]. simpl in Hkept. congruence.
Qed.

Definition resumedPlan : Plan :=
  planOf [set_status done (mkStep "a" (Some "w1") []); mkStep "b" (Some "w2") ["a"];
          set_status error (mkStep "c" (Some "w3") []); mkStep "d" None ["c"]].

Lemma run_counts_waves_witness :
  exists result plan',
    run (sampleDag 4) assigningFactory resumedPlan tt
    = Some (Fulfilled (result, plan'), tt) /\
    waves result <= 2 <= 4 /\
    (forall j s, plan_steps resumedPlan !! j = Some s ->
       isTerminal (step_status s) = true ->
       exists s', plan_steps plan' !! j = Some s' /\ step_status s' = step_status s).
Proof.
  eexists _, _. split; [vm_compute; reflexivity|].
  apply (run_counts_waves (sampleDag 4) assigningFactory resumedPlan tt _ _ tt
           (sampleDag_settles 4) (sampleDag_hooksSettle 4)).
  vm_compute. reflexivity.
Defined.

End PlanDAGExecutor.

(* ===================================================================== *)
(** * CrewOrchestrator.ts                                                *)
(* ===================================================================== *)

Module CrewOrchestrator.

Import Js.
Import StructuredDecision.
Import PlanTypes.
Import Llm.
Import ShortTermMemory.
Import ParallelExecutor.
Import PlanDAGExecutor.

Inductive TerminationReason : Type :=
| MAX_AGENT_LOOPS
| MAX_REFLECTION_CYCLES
| MANUAL_HUMAN_ABORT
| MODEL_SAYS_DONE
| POLICY_DENY.

(** *** The crew roster (shared/Crew.ts), on the fields the orchestrator reads *)

Record CrewAgent : Type := {
  agent_id : string;
  agent_role : string;
  agent_enabled : option bool;
  agent_allowedToolIds : option (list string);
  agent_parallelGroup : option string;
  agent_reflectionRole : option bool
}.

Record TerminationPolicy : Type := {
  maxAgentLoops : option Z;
  maxReflectionCycles : option Z
}.

Record ParallelPolicy : Type := {
  maxConcurrentAgents : option Z
}.

Record CrewExecutionPolicies : Type := {
  termination : option TerminationPolicy;
  parallel : option ParallelPolicy
}.

Record Crew : Type := {
  crew_id : string;
  crew_name : string;
  crew_agents : list CrewAgent;
  crew_default : option bool;
  crew_executionPolicies : option CrewExecutionPolicies
}.

(** *** Configuration and result *)

Inductive GeneratedVia : Type := via_planner | via_skeleton.

(** The configuration.  The client answers a call from the calls made so far
    and the messages of this one; [globalCrews] and [globalSelectedCrewId]
    are what [getGlobalState] returns for the keys ["crews"] and
    ["selectedCrewId"]. *)
Record CrewOrchestratorConfig : Type := {
  llm : list (list LlmChatMessage) -> list LlmChatMessage -> Settled string;
  globalCrews : option (list Crew);
  globalSelectedCrewId : option string;
  checkpointTracker : option CheckpointTagging.CheckpointTrackerLike;
  routeDecisionMaxAttempts : option Z;
  onRouteDecisionAttempt : option (string -> option string -> nat -> Settled unit);
  onParallelBatchComplete : option (ParallelBatchSummary -> Settled unit);
  onPlanAttempt : option (string -> option string -> nat -> Settled unit);
  onPlanGenerated : option (Plan -> GeneratedVia -> Settled unit);
  onPlanStepUpdate : option (PlanStep -> PlanStepEvent -> Settled unit);
  onPlanWaveComplete : option (nat -> list PlanStep -> Settled unit)
}.

Record OrchestratorRunOptions : Type := {
  goal : string;
  recentNotes : option string
}.

Record OrchestratorRunResult : Type := {
  result_strategy : RouteStrategy;
  result_routeDecision : RouteDecision;
  planGenerated : bool;
  plan : option Plan;
  parallelBatchesExecuted : nat;
  terminationEarly : bool;
  terminationReason : option TerminationReason;
  terminationDetail : option string;
  notes : string
}.

(** *** Runtime state *)

Record TerminationState : Type := {
  agentLoopCounts : gmap string nat;
  reflectionCycles : nat;
  terminated : bool;
  reason : option TerminationReason;
  detail : option string
}.

Definition initialTermination : TerminationState :=
  {| agentLoopCounts := ∅; reflectionCycles := 0; terminated := false;
     reason := None; detail := None |}.

(** What a run mutates: the termination state and the memory ledger of the
    orchestrator, and the calls the model client has received. *)
Record World : Type := {
  w_termination : TerminationState;
  w_memory : ShortTermMemory;
  w_llmCalls : list (list LlmChatMessage)
}.

Definition initialWorld : World :=
  {| w_termination := initialTermination;
     w_memory := new_ShortTermMemory;
     w_llmCalls := [] |}.

Definition remember (f : ShortTermMemory -> ShortTermMemory) : M World unit :=
  modify (fun w => {| w_termination := w_termination w;
                      w_memory := f (w_memory w);
                      w_llmCalls := w_llmCalls w |}).

(** The orchestrator object after construction. *)
Record Orchestrator : Type := {
  cfg : CrewOrchestratorConfig;
  crew : option Crew;
  executionPolicies : option CrewExecutionPolicies;
  allowlist : option ToolAllowlist.ToolAllowlistEnforcer;
  parallelExecutor : option ParallelExecutorOptions
}.

(** [this.cfg.llm.chat(messages, { temperature: 0 })]. *)
Definition chat (c : CrewOrchestratorConfig) : LlmClient World :=
  fun messages w =>
    Some (llm c (w_llmCalls w) messages,
          {| w_termination := w_termination w;
             w_memory := w_memory w;
             w_llmCalls := w_llmCalls w ++ [messages] |}).

(** [initializeCrewContext]. *)
Definition selectCrew (c : CrewOrchestratorConfig) : option Crew :=
  let crews := default [] (globalCrews c) in
  match List.find (fun k => match globalSelectedCrewId c with
                            | Some sel => String.eqb (crew_id k) sel
                            | None => false
                            end) crews with
  | Some k => Some k
  | None =>
      match List.find (fun k => default false (crew_default k)) crews with
      | Some k => Some k
      | None => head crews
      end
  end.

Definition configuredConcurrency (p : option CrewExecutionPolicies) : nat :=
  match p with
  | Some pol =>
      match parallel pol with
      | Some par =>
          match maxConcurrentAgents par with
          | Some n => if Z.ltb 0 n then Z.to_nat n else 1
          | None => 1
          end
      | None => 1
      end
  | None => 1
  end.

Definition createCrewOrchestrator (c : CrewOrchestratorConfig) : Settled Orchestrator :=
  match selectCrew c with
  | None =>
      Fulfilled {| cfg := c; crew := None; executionPolicies := None;
                   allowlist := None; parallelExecutor := None |}
  | Some k =>
      let pols := crew_executionPolicies k in
      match new_ParallelExecutor
              {| maxConcurrent := configuredConcurrency pols;
                 onResult := None;
                 onStartBatch := None;
                 onFinishBatch := onParallelBatchComplete c;
                 withCheckpointTag :=
                   Some (CheckpointTagging.createCheckpointTagWrapper (checkpointTracker c)) |}
      with
      | Rejected e => Rejected e
      | Fulfilled px =>
          Fulfilled
            {| cfg := c;
               crew := Some k;
               executionPolicies := pols;
               allowlist :=
                 Some (ToolAllowlist.new_ToolAllowlistEnforcer
                         (ToolAllowlist.buildPoliciesFromAgents
                            (map (fun a => (agent_id a, agent_allowedToolIds a))
                                 (crew_agents k))));
               parallelExecutor := Some px |}
      end
  end.

(** *** Termination enforcement *)

Definition setTerminated (r : TerminationReason) (d : option string)
  (t : TerminationState) : TerminationState :=
  if terminated t then t
  else {| agentLoopCounts := agentLoopCounts t;
          reflectionCycles := reflectionCycles t;
          terminated := true;
          reason := Some r;
          detail := match d with
                    | Some text => if truthy text then Some text else detail t
                    | None => detail t
                    end |}.

(** [maxLoops && count > maxLoops]: a ceiling that is absent or zero never
    trips. *)
Definition exceeds (ceiling : option Z) (count : nat) : bool :=
  match ceiling with
  | Some m => negb (Z.eqb m 0) && Z.ltb m (Z.of_nat count)
  | None => false
  end.

(** [this.executionPolicies?.termination?.maxAgentLoops]. *)
Definition agentLoopCeiling (p : option CrewExecutionPolicies) : option Z :=
  match p with
  | Some pol => match termination pol with
                | Some tp => maxAgentLoops tp
                | None => None
                end
  | None => None
  end.

(** [this.executionPolicies?.termination?.maxReflectionCycles]. *)
Definition reflectionCeiling (p : option CrewExecutionPolicies) : option Z :=
  match p with
  | Some pol => match termination pol with
                | Some tp => maxReflectionCycles tp
                | None => None
                end
  | None => None
  end.

Definition incrementAgentLoop (p : option CrewExecutionPolicies) (agentId : string)
  (t : TerminationState) : bool * TerminationState :=
  let maxLoops := agentLoopCeiling p in
  if terminated t then (false, t)
  else
    let count := default 0 (agentLoopCounts t !! agentId) + 1 in
    let t1 := {| agentLoopCounts := <[agentId := count]> (agentLoopCounts t);
                 reflectionCycles := reflectionCycles t;
                 terminated := terminated t;
                 reason := reason t;
                 detail := detail t |} in
    if exceeds maxLoops count
    then (false,
          setTerminated MAX_AGENT_LOOPS
            (Some ("agent " +:+ agentId +:+ " exceeded maxAgentLoops ("
                   +:+ pretty (default 0%Z maxLoops) +:+ ")")) t1)
    else (true, t1).

Definition incrementReflectionCycle (p : option CrewExecutionPolicies)
  (t : TerminationState) : bool * TerminationState :=
  let maxReflections := reflectionCeiling p in
  if terminated t then (false, t)
  else
    let t1 := {| agentLoopCounts := agentLoopCounts t;
                 reflectionCycles := reflectionCycles t + 1;
                 terminated := terminated t;
                 reason := reason t;
                 detail := detail t |} in
    if exceeds maxReflections (reflectionCycles t1)
    then (false,
          setTerminated MAX_REFLECTION_CYCLES
            (Some ("exceeded maxReflectionCycles ("
                   +:+ pretty (default 0%Z maxReflections) +:+ ")")) t1)
    else (true, t1).

(** [runReflectionPassPlaceholder], on the termination state. *)
Definition runReflectionPassPlaceholder (p : option CrewExecutionPolicies)
  (t : TerminationState) : TerminationState :=
  if terminated t then t else (incrementReflectionCycle p t).2.

(** A call of one of the two counting methods, and a sequence of such calls
    on one orchestrator: the answers in order and the state they leave. *)
Inductive Call : Type :=
| CallAgentLoop (agentId : string)
| CallReflectionCycle.

Definition perform (p : option CrewExecutionPolicies) (c : Call) (t : TerminationState)
  : bool * TerminationState :=
  match c with
  | CallAgentLoop agentId => incrementAgentLoop p agentId t
  | CallReflectionCycle => incrementReflectionCycle p t
  end.

Fixpoint performAll (p : option CrewExecutionPolicies) (calls : list Call)
  (t : TerminationState) : list bool * TerminationState :=
  match calls with
  | [] => ([], t)
  | c :: rest =>
      let '(answer, t1) := perform p c t in
      let '(answers, t2) := performAll p rest t1 in
      (answer :: answers, t2)
  end.

Definition checkTermination : M World bool :=
  (let* w := get in ret (terminated (w_termination w)))%monad.

(** *** Plan generation (skeleton) *)

(** [a.enabled !== false && !a.reflectionRole]. *)
Definition isWorker (a : CrewAgent) : bool :=
  default true (agent_enabled a) && negb (default false (agent_reflectionRole a)).

Definition skeletonRationale : string :=
  "Skeleton auto-generated plan (no real planner yet).".

Definition skeletonStep (goalText : string) (idx : nat) (a : CrewAgent) : PlanStep :=
  {| step_id := "step_" +:+ pretty (idx + 1) +:+ "_" +:+ agent_id a;
     step_description :=
       "Have agent '" +:+ orElse (agent_role a) (agent_id a)
       +:+ "' contribute toward goal: " +:+ goalText;
     step_agentId := Some (agent_id a);
     step_parallelGroup := agent_parallelGroup a;
     step_dependsOn := Some [];
     step_status := Some pending;
     step_errorMessage := None |}.

Definition generateSkeletonPlan (this : Orchestrator) (goalText : string) : Plan :=
  match crew this with
  | None => {| plan_rationale := Some "No crew"; plan_steps := [] |}
  | Some k =>
      {| plan_rationale := Some skeletonRationale;
         plan_steps := imap (skeletonStep goalText) (List.filter isWorker (crew_agents k)) |}
  end.

Section Run.

(** How the pool's actions settle is decided by the environment. *)
Variable timing : list AgentWork -> Timing.

Variable JSON_parse : string -> Settled JsonValue.

Variable this : Orchestrator.

Definition effectiveMaxAttempts : Z :=
  match routeDecisionMaxAttempts (cfg this) with
  | Some n => if Z.eqb n 0 then 3%Z else n
  | None => 3%Z
  end.

Definition routeAttemptHook (raw : string) (error : option string) (attempt : nat)
  : M World unit :=
  callHook (option_map (fun h => h raw error attempt) (onRouteDecisionAttempt (cfg this))).

(** The attempt loop of [acquireRouteDecision]: the decision, or the messages
    and [lastError] with which the loop is left. *)
Fixpoint routeLoop (remaining attempt : nat) (messages : list LlmChatMessage)
  (lastError : option string)
  : M World (RouteDecision + list LlmChatMessage * option string) :=
  match remaining with
  | 0 => ret (inr (messages, lastError))
  | S remaining' =>
      (let* raw := chat (cfg this) messages in
       tryCatch
         (let* decision := await (parseRouteDecision JSON_parse raw) in
          let* _ := routeAttemptHook raw None attempt in
          ret (inl decision))
         (fun err =>
            let* _ := routeAttemptHook raw (Some err) attempt in
            let messages' :=
              if Z.ltb (Z.of_nat attempt) effectiveMaxAttempts
              then messages ++ repairTurn raw err
              else messages in
            routeLoop remaining' (S attempt) messages' (Some err)))%monad
  end.

Definition routeMessages (options : OrchestratorRunOptions) : list LlmChatMessage :=
  let agentsSummary :=
    match crew this with
    | Some k => map (fun a => (agent_id a, agent_role a)) (crew_agents k)
    | None => []
    end in
  let basePrompt :=
    buildRouteDecisionPrompt
      {| rdc_goal := goal options;
         rdc_crewName := option_map crew_name (crew this);
         rdc_agentSummaries := Some agentsSummary;
         rdc_recentNotes := recentNotes options |} in
  [ {| role := system;
       content := "You are an orchestration assistant optimizing multi-agent strategies." |};
    {| role := user; content := basePrompt |} ].

Definition routeFailure (lastError : option string) : string :=
  "CrewOrchestrator: Failed to parse route decision after " +:+ pretty effectiveMaxAttempts
  +:+ " attempts. Last error: " +:+ default "undefined" lastError.

Definition acquireRouteDecision (options : OrchestratorRunOptions) : M World RouteDecision :=
  (let* r := routeLoop (Z.to_nat effectiveMaxAttempts) 1 (routeMessages options) None in
   match r with
   | inl decision => ret decision
   | inr (_, lastError) => throw (routeFailure lastError)
   end)%monad.

(** The placeholder result of a unit of work. *)
Definition placeholderResult (agentId : string) (output : JsonValue) : AgentWorkResult :=
  {| res_agentId := agentId; res_phase := execution; res_success := true;
     res_output := Some output; res_errorMessage := None |}.

Definition runBatchOf (px : ParallelExecutorOptions) (workItems : list AgentWork)
  : M World ParallelBatchSummary :=
  await (runBatch (timing workItems) px workItems).

Definition executeDirectExecution : M World nat :=
  (let* stop := checkTermination in
   if stop then ret 0 else
   match crew this, parallelExecutor this with
   | Some k, Some px =>
       let workAgents := List.filter isWorker (crew_agents k) in
       match workAgents with
       | [] => ret 0
       | _ =>
           let fakeWork :=
             map (fun agent =>
                    {| work_agentId := agent_id agent;
                       work_phase := execution;
                       work_label := Some "skeleton-step";
                       work_run :=
                         Fulfilled (placeholderResult (agent_id agent)
                                      (JObj [("placeholder", JBool true)])) |})
                 workAgents in
           let* _ := runBatchOf px fakeWork in
           let* _ := remember (appendObservation
                                 ("Executed direct batch with " +:+ pretty (length fakeWork)
                                  +:+ " placeholder steps") (Some true)) in
           let* _ := checkTermination in
           ret 1
       end
   | _, _ => ret 0
   end)%monad.

(** The hooks that [executePlanThenParallel] hands to the DAG executor. *)
Definition stepUpdateHook (step : PlanStep) (event : PlanStepEvent) : M World unit :=
  (let* _ :=
     match event with
     | EvStart => remember (appendThought ("Step " +:+ step_id step +:+ " started"))
     | EvSuccess =>
         remember (appendObservation
                     ("Step " +:+ step_id step +:+ " completed: " +:+ step_description step)
                     (Some true))
     | EvError =>
         remember (appendObservation
                     ("Step " +:+ step_id step +:+ " failed: "
                      +:+ default "undefined" (step_errorMessage step))
                     (Some false))
     end in
   callHook (option_map (fun h => h step event) (onPlanStepUpdate (cfg this))))%monad.

Definition waveCompleteHook (waveIndex : nat) (steps : list PlanStep) : M World unit :=
  (let* _ := callHook (option_map (fun h => h waveIndex steps) (onPlanWaveComplete (cfg this))) in
   remember (appendThought ("Wave " +:+ pretty waveIndex +:+ " complete ("
                            +:+ pretty (length steps) +:+ " steps).")))%monad.

(** The work factory of [executePlanThenParallel]: a step without an agent is
    given the first enabled non-reflection agent, if there is one. *)
Definition plannedWork (defaultAgent : option CrewAgent) : AgentRunFactory :=
  fun step =>
    let assigned :=
      match step_agentId step, defaultAgent with
      | Some a, Some d => if truthy a then Some a else Some (agent_id d)
      | None, Some d => Some (agent_id d)
      | a, None => a
      end in
    let agentId := optOrElse assigned "unassigned" in
    (assigned,
     {| work_agentId := agentId;
        work_phase := execution;
        work_label := Some (step_description step);
        work_run :=
          Fulfilled (placeholderResult agentId
                       (JObj [("placeholder", JStr "planned-exec");
                              ("stepId", JStr (step_id step))])) |}).

Definition countStatus (st : StepStatus) (steps : list PlanStep) : nat :=
  length (List.filter (fun s => bool_decide (step_status s = Some st)) steps).

(** [executePlanThenParallel]: the wave count and the plan as mutated. *)
Definition executePlanThenParallel (p : Plan) : M World (nat * Plan) :=
  (let* stop := checkTermination in
   if stop then ret (0, p) else
   match crew this, parallelExecutor this with
   | Some k, Some px =>
       match plan_steps p with
       | [] => ret (0, p)
       | _ =>
           let dag :=
             {| PlanDAGExecutor.parallelExecutor := runBatchOf px;
                hooks := Some {| onStepUpdate := Some stepUpdateHook;
                                 onWaveStart := None;
                                 onWaveComplete := Some waveCompleteHook |} |} in
           let defaultAgent := List.find isWorker (crew_agents k) in
           let* r := PlanDAGExecutor.run dag (plannedWork defaultAgent) p in
           let '(result, p') := r in
           let doneCount := countStatus done (plan_steps p') in
           let errorCount := countStatus error (plan_steps p') in
           let* _ := remember (appendThought
                                 ("Plan execution summary: " +:+ pretty doneCount
                                  +:+ " done, " +:+ pretty errorCount +:+ " error, "
                                  +:+ pretty (waves result) +:+ " waves.")) in
           ret (waves result, p')
       end
   | _, _ => ret (0, p)
   end)%monad.

Definition plannerFailureNote : string := "Planner failed, using skeleton plan fallback".

Definition rememberRationale (label : string) (p : Plan) : M World unit :=
  match plan_rationale p with
  | Some r =>
      if truthy r then remember (appendThought (label +:+ substring0 200 r)) else ret tt
  | None => ret tt
  end.

(** The options with which [run] invokes the planner. *)
Definition plannerOptions (options : OrchestratorRunOptions) (k : Crew)
  : Planner.PlannerInvokeOptions World :=
  {| Planner.pio_goal := goal options;
     Planner.pio_recentNotes := recentNotes options;
     Planner.pio_crewName := Some (crew_name k);
     Planner.pio_agentSummaries :=
       map (fun a => {| Planner.sum_id := agent_id a;
                        Planner.sum_role := orElse (agent_role a) (agent_id a);
                        Planner.sum_parallelGroup := agent_parallelGroup a |})
           (crew_agents k);
     Planner.pio_llm := chat (cfg this);
     Planner.pio_maxAttempts := None;
     Planner.pio_maxSteps := None;
     Planner.pio_onAttempt := onPlanAttempt (cfg this) |}.

(** The [catch] of the [plan_then_parallel] case: the skeleton plan. *)
Definition fallBack (options : OrchestratorRunOptions) : M World Plan :=
  let p := generateSkeletonPlan this (goal options) in
  (let* _ := callHook (option_map (fun h => h p via_skeleton) (onPlanGenerated (cfg this))) in
   let* _ := rememberRationale "Fallback plan rationale: " p in
   let* _ := remember (appendObservation plannerFailureNote (Some false)) in
   ret p)%monad.

(** The [plan_then_parallel] case up to the hand-over to the DAG executor. *)
Definition obtainPlan (options : OrchestratorRunOptions) (k : Crew) : M World Plan :=
  tryCatch
    (let* p := Planner.invokePlanner JSON_parse (plannerOptions options k) in
     let* _ := callHook (option_map (fun h => h p via_planner) (onPlanGenerated (cfg this))) in
     let* _ := remember (appendThought ("Planner produced "
                                        +:+ pretty (length (plan_steps p)) +:+ " steps.")) in
     let* _ := rememberRationale "Plan rationale: " p in
     ret p)%monad
    (fun _ => fallBack options).

(** The [switch] on the strategy: [planGenerated], [plan] and
    [parallelBatchesExecuted] as the chosen case leaves them.  The [default]
    case is out of reach: [parseRouteDecision] admits the two strategies
    only. *)
Definition dispatch (options : OrchestratorRunOptions) (k : Crew) (s : RouteStrategy)
  : M World (bool * option Plan * nat) :=
  match s with
  | plan_then_parallel =>
      (let* p := obtainPlan options k in
       let* r := executePlanThenParallel p in
       ret (true, Some r.2, r.1))%monad
  | direct_execution =>
      (let* n := executeDirectExecution in
       ret (false, None, n))%monad
  end.

(** The result object, from the decision, what the chosen case left and the
    termination state at the end. *)
Definition resultOf (routeDecision : RouteDecision) (branch : bool * option Plan * nat)
  (t : TerminationState) : OrchestratorRunResult :=
  let '(generated, finalPlan, batches) := branch in
  {| result_strategy := strategy routeDecision;
     result_routeDecision := routeDecision;
     planGenerated := generated;
     plan := finalPlan;
     parallelBatchesExecuted := batches;
     terminationEarly := terminated t;
     terminationReason := if terminated t then reason t else None;
     terminationDetail := if terminated t then detail t else None;
     notes := "Skeleton execution path complete (no actual agent steps yet)." |}.

Definition run (options : OrchestratorRunOptions) : M World OrchestratorRunResult :=
  match crew this with
  | None => throw "CrewOrchestrator: No crew available in global state."
  | Some k =>
      (let* routeDecision := acquireRouteDecision options in
       let* branch := dispatch options k (strategy routeDecision) in
       let* w := get in
       ret (resultOf routeDecision branch (w_termination w)))%monad
  end.

End Run.

(** ** Construction, and the orchestrators used as examples *)

Definition orchestratorFor (c : CrewOrchestratorConfig) : Orchestrator :=
  match createCrewOrchestrator c with
  | Fulfilled o => o
  | Rejected _ =>
      {| cfg := c; crew := None; executionPolicies := None; allowlist := None;
         parallelExecutor := None |}
  end.

Lemma configuredConcurrency_positive (p : option CrewExecutionPolicies) :
  1 <= configuredConcurrency p.
Proof.
  unfold configuredConcurrency.
  destruct p as [pol|]; [|lia].
  destruct (parallel pol) as [par|]; [|lia].
  destruct (maxConcurrentAgents par) as [n|]; [|lia].
  destruct (Z.ltb_spec 0 n); lia.
Qed.

(** The constructor does not throw: the ceiling it hands to the batch
    executor is at least one. *)
Lemma createCrewOrchestrator_constructs (c : CrewOrchestratorConfig) :
  createCrewOrchestrator c = Fulfilled (orchestratorFor c).
Proof.
  unfold orchestratorFor, createCrewOrchestrator.
  destruct (selectCrew c) as [k|]; [|reflexivity].
  unfold new_ParallelExecutor. simpl.
  pose proof (configuredConcurrency_positive (crew_executionPolicies k)) as H.
  destruct (Nat.ltb_spec (configuredConcurrency (crew_executionPolicies k)) 1);
    [lia | reflexivity].
Qed.

Lemma orchestratorFor_cfg (c : CrewOrchestratorConfig) : cfg (orchestratorFor c) = c.
Proof.
  unfold orchestratorFor, createCrewOrchestrator.
  destruct (selectCrew c) as [k|]; [|reflexivity].
  unfold new_ParallelExecutor. simpl.
  destruct (Nat.ltb _ 1); reflexivity.
Qed.

Lemma orchestratorFor_crew (c : CrewOrchestratorConfig) :
  crew (orchestratorFor c) = selectCrew c.
Proof.
  unfold orchestratorFor, createCrewOrchestrator.
  destruct (selectCrew c) as [k|] eqn:E; [|reflexivity].
  unfold new_ParallelExecutor. simpl.
  pose proof (configuredConcurrency_positive (crew_executionPolicies k)) as H.
  destruct (Nat.ltb_spec (configuredConcurrency (crew_executionPolicies k)) 1);
    [lia | reflexivity].
Qed.

Definition worker (id : string) : CrewAgent :=
  {| agent_id := id; agent_role := "General worker"; agent_enabled := Some true;
     agent_allowedToolIds := None; agent_parallelGroup := Some "workers";
     agent_reflectionRole := None |}.

(** The crew of the repository's orchestrator test: two enabled workers in one
    parallel group, no execution policies. *)
Definition testCrew : Crew :=
  {| crew_id := "crew1"; crew_name := "Test Crew";
     crew_agents := [worker "workerA"; worker "workerB"];
     crew_default := None; crew_executionPolicies := None |}.

Definition routeJson (strategyText : string) : JsonValue :=
  JObj [("strategy", JStr strategyText); ("rationale", JStr "Need planning")].

(** A stand-in for [JSON.parse] that knows two texts. *)
Definition sampleParse (text : string) : Settled JsonValue :=
  if String.eqb text "ROUTE:plan" then Fulfilled (routeJson "plan_then_parallel")
  else if String.eqb text "ROUTE:direct" then Fulfilled (routeJson "direct_execution")
  else Rejected "Unexpected token".

Definition configFor (crews : list Crew)
  (client : list (list LlmChatMessage) -> list LlmChatMessage -> Settled string)
  (attempts : option Z) : CrewOrchestratorConfig :=
  {| llm := client;
     globalCrews := Some crews;
     globalSelectedCrewId := Some "crew1";
     checkpointTracker := None;
     routeDecisionMaxAttempts := attempts;
     onRouteDecisionAttempt := None;
     onParallelBatchComplete := None;
     onPlanAttempt := None;
     onPlanGenerated := None;
     onPlanStepUpdate := None;
     onPlanWaveComplete := None |}.

(** The client of the test: a valid route decision first, garbled text from
    then on. *)
Definition routeThenGarbled (route : string)
  : list (list LlmChatMessage) -> list LlmChatMessage -> Settled string :=
  fun history _ =>
    match history with
    | [] => Fulfilled route
    | _ => Fulfilled "garbled planner output"
    end.

Definition alwaysGarbled
  : list (list LlmChatMessage) -> list LlmChatMessage -> Settled string :=
  fun _ _ => Fulfilled "Not JSON -- attempt".

Definition buildFeatureX : OrchestratorRunOptions :=
  {| goal := "Build feature X"; recentNotes := None |}.

Definition settleInOrder : list AgentWork -> Timing := fun _ => inOrder.

(** ** Properties of the route decision acquisition *)

(** A telemetry hook of three arguments that is absent or returns normally. *)
Definition quietAttemptHook (hook : option (string -> option string -> nat -> Settled unit))
  : Prop :=
  forall h, hook = Some h -> forall raw error attempt, h raw error attempt = Fulfilled tt.

(** A run of attempts that all fail to parse, seen from outside: [calls] are
    the message sequences sent to the model, starting with [messages]; after
    each failed attempt but the last the raw output and the repair
    instruction are appended; [final] is the sequence the loop is left with
    and [lastError] the error of the last attempt. *)
Inductive FailedAttempts (JSON_parse : string -> Settled JsonValue)
  (client : list (list LlmChatMessage) -> list LlmChatMessage -> Settled string)
  : list (list LlmChatMessage) -> list LlmChatMessage ->
    list (list LlmChatMessage) -> list LlmChatMessage -> string -> Prop :=
| failed_last history messages raw err :
    client history messages = Fulfilled raw ->
    parseRouteDecision JSON_parse raw = Rejected err ->
    FailedAttempts JSON_parse client history messages [messages] messages err
| failed_more history messages raw err calls final lastError :
    client history messages = Fulfilled raw ->
    parseRouteDecision JSON_parse raw = Rejected err ->
    FailedAttempts JSON_parse client (history ++ [messages])
      (messages ++ repairTurn raw err) calls final lastError ->
    FailedAttempts JSON_parse client history messages (messages :: calls) final lastError.

Section RouteDecision.

Variable JSON_parse : string -> Settled JsonValue.
Variable this : Orchestrator.
Hypothesis hook_quiet : quietAttemptHook (onRouteDecisionAttempt (cfg this)).

Lemma routeAttemptHook_quiet (raw : string) (error : option string) (attempt : nat)
  (w : World) :
  routeAttemptHook this raw error attempt w = Some (Fulfilled tt, w).
Proof.
  unfold routeAttemptHook. pose proof hook_quiet as Hq.
  destruct (onRouteDecisionAttempt (cfg this)) as [h|]; simpl; [|reflexivity].
  unfold await. now rewrite (Hq h eq_refl).
Qed.

Lemma routeLoop_first_parses (remaining attempt : nat) (messages : list LlmChatMessage)
  (lastError : option string) (w : World) (raw : string) (decision : RouteDecision) :
  llm (cfg this) (w_llmCalls w) messages = Fulfilled raw ->
  parseRouteDecision JSON_parse raw = Fulfilled decision ->
  routeLoop JSON_parse this (S remaining) attempt messages lastError w =
  Some (Fulfilled (inl decision),
        {| w_termination := w_termination w; w_memory := w_memory w;
           w_llmCalls := w_llmCalls w ++ [messages] |}).
Proof.
  intros Hllm Hparse. simpl. unfold bind at 1. unfold chat. rewrite Hllm.
  unfold tryCatch, bind, await. rewrite Hparse.
  rewrite routeAttemptHook_quiet. reflexivity.
Qed.

Hypothesis always_fails :
  forall history messages, exists raw err,
    llm (cfg this) history messages = Fulfilled raw /\
    parseRouteDecision JSON_parse raw = Rejected err.

Lemma routeLoop_all_fail (remaining : nat) :
  forall (attempt : nat) (messages : list LlmChatMessage) (lastError : option string)
         (w : World),
    Z.of_nat (attempt + remaining) = effectiveMaxAttempts this ->
    exists calls final err,
      routeLoop JSON_parse this (S remaining) attempt messages lastError w =
      Some (Fulfilled (inr (final, Some err)),
            {| w_termination := w_termination w; w_memory := w_memory w;
               w_llmCalls := w_llmCalls w ++ calls |}) /\
      length calls = S remaining /\
      FailedAttempts JSON_parse (llm (cfg this)) (w_llmCalls w) messages calls final err.
Proof.
  induction remaining as [|remaining IH]; intros attempt messages lastError w Hmax.
  - destruct (always_fails (w_llmCalls w) messages) as (raw & err & Hllm & Hparse).
    exists [messages], messages, err. split; [|split; [reflexivity|]].
    + simpl. unfold bind at 1. unfold chat. rewrite Hllm.
      unfold tryCatch, bind at 1, await. rewrite Hparse.
      unfold bind. rewrite routeAttemptHook_quiet.
      assert (Hlt : (Z.of_nat attempt <? effectiveMaxAttempts this)%Z = false) by lia.
      rewrite Hlt. reflexivity.
    + eapply failed_last; eassumption.
  - destruct (always_fails (w_llmCalls w) messages) as (raw & err & Hllm & Hparse).
    set (w1 := {| w_termination := w_termination w; w_memory := w_memory w;
                  w_llmCalls := w_llmCalls w ++ [messages] |}).
    destruct (IH (S attempt) (messages ++ repairTurn raw err) (Some err) w1)
      as (calls & final & lastErr & Hloop & Hlen & Hchain); [lia|].
    exists (messages :: calls), final, lastErr. split; [|split].
    + change (routeLoop JSON_parse this (S (S remaining)) attempt messages lastError w)
        with (bind (chat (cfg this) messages)
                (fun raw =>
                   tryCatch
                     (bind (await (parseRouteDecision JSON_parse raw))
                        (fun decision =>
                           bind (routeAttemptHook this raw None attempt)
                             (fun _ => ret (inl decision))))
                     (fun err =>
                        bind (routeAttemptHook this raw (Some err) attempt)
                          (fun _ =>
                             routeLoop JSON_parse this (S remaining) (S attempt)
                               (if (Z.of_nat attempt <? effectiveMaxAttempts this)%Z
                                then messages ++ repairTurn raw err else messages)
                               (Some err)))) w).
      unfold bind at 1. unfold chat. rewrite Hllm. fold w1.
      unfold tryCatch, bind at 1, await. rewrite Hparse.
      unfold bind at 1. rewrite routeAttemptHook_quiet.
      assert (Hlt : (Z.of_nat attempt <? effectiveMaxAttempts this)%Z = true) by lia.
      rewrite Hlt, Hloop. simpl. now rewrite <- app_assoc.
    + simpl. now rewrite Hlen.
    + eapply failed_more; [exact Hllm | exact Hparse | exact Hchain].
Qed.

End RouteDecision.

Lemma routeFailure_names_error (this : Orchestrator) (err : string) :
  occursIn err (routeFailure this (Some err)).
Proof.
  unfold routeFailure. simpl.
  rewrite <- !append_assoc. apply occursIn_suffix.
Qed.


Lemma quietAttemptHook_None : quietAttemptHook None.
Proof. intros h Hh. discriminate. Qed.


(** ** Properties of the termination state *)

Lemma setTerminated_latched (r : TerminationReason) (d : option string)
  (t : TerminationState) :
  terminated t = true -> setTerminated r d t = t.
Proof. intros H. unfold setTerminated. now rewrite H. Qed.

Lemma perform_latched (p : option CrewExecutionPolicies) (c : Call)
  (t : TerminationState) :
  terminated t = true -> perform p c t = (false, t).
Proof.
  intros H. destruct c; simpl;
    unfold incrementAgentLoop, incrementReflectionCycle; now rewrite H.
Qed.

(** C9.  Once the termination state is set it stays as it is: every later
    call of [incrementAgentLoop] or [incrementReflectionCycle] answers
    [false] and leaves the state, in particular [terminated], the reason and
    the detail, unchanged, and a further [setTerminated] does not replace the
    recorded reason. *)
Theorem termination_latched (p : option CrewExecutionPolicies) (t : TerminationState)
  (calls : list Call) :
  terminated t = true ->
  (performAll p calls t).1 = map (fun _ => false) calls /\
  (performAll p calls t).2 = t /\
  terminated (performAll p calls t).2 = true /\
  reason (performAll p calls t).2 = reason t /\
  detail (performAll p calls t).2 = detail t /\
  (forall r d, setTerminated r d t = t).
Proof.
  intros H.
  assert (Hall : performAll p calls t = (map (fun _ => false) calls, t)).
  { induction calls as [|c calls IH]; [reflexivity|].
    simpl. rewrite (perform_latched p c t H), IH. reflexivity. }
  rewrite Hall. simpl. repeat split; try assumption.
  intros r d. now apply setTerminated_latched.
Qed.

Definition abortedState : TerminationState :=
  {| agentLoopCounts := ∅; reflectionCycles := 2; terminated := true;
     reason := Some MANUAL_HUMAN_ABORT; detail := Some "stopped by the user" |}.

Definition loopsCappedAt (n : Z) : option CrewExecutionPolicies :=
  Some {| termination := Some {| maxAgentLoops := Some n; maxReflectionCycles := Some n |};
          parallel := None |}.

Lemma termination_latched_witness :
  (performAll (loopsCappedAt 5) [CallAgentLoop "a"; CallReflectionCycle] abortedState).1
  = [false; false] /\
  reason (performAll (loopsCappedAt 5) [CallAgentLoop "a"; CallReflectionCycle]
            abortedState).2 = Some MANUAL_HUMAN_ABORT.
Proof.
  destruct (termination_latched (loopsCappedAt 5) abortedState
              [CallAgentLoop "a"; CallReflectionCycle] eq_refl)
    as (Hans & _ & _ & Hreason & _).
  split; [exact Hans | exact Hreason].
Defined.

(** The state does get set when a positive ceiling is exceeded. *)
Example ceiling_of_one_trips :
  (performAll (loopsCappedAt 1) [CallAgentLoop "a"; CallAgentLoop "a"; CallAgentLoop "b"]
     initialTermination).1 = [true; false; false].
Proof. vm_compute. reflexivity. Qed.

Definition unlimited (ceiling : option Z) : Prop :=
  ceiling = None \/ ceiling = Some 0%Z.

Lemma exceeds_unlimited (ceiling : option Z) (count : nat) :
  unlimited ceiling -> exceeds ceiling count = false.
Proof. intros [-> | ->]; reflexivity. Qed.

Lemma incrementAgentLoop_unlimited (p : option CrewExecutionPolicies) (agentId : string)
  (t : TerminationState) :
  unlimited (agentLoopCeiling p) -> terminated t = false ->
  (incrementAgentLoop p agentId t).1 = true /\
  terminated (incrementAgentLoop p agentId t).2 = false.
Proof.
  intros Hu Ht. unfold incrementAgentLoop. rewrite Ht.
  rewrite (exceeds_unlimited _ _ Hu). simpl. split; first [reflexivity | exact Ht].
Qed.

Lemma incrementReflectionCycle_unlimited (p : option CrewExecutionPolicies)
  (t : TerminationState) :
  unlimited (reflectionCeiling p) -> terminated t = false ->
  (incrementReflectionCycle p t).1 = true /\
  terminated (incrementReflectionCycle p t).2 = false.
Proof.
  intros Hu Ht. unfold incrementReflectionCycle. rewrite Ht.
  rewrite (exceeds_unlimited _ _ Hu). simpl. split; first [reflexivity | exact Ht].
Qed.

(** C10.  A ceiling that is absent or zero is no ceiling: on an orchestrator
    that has not terminated, any number of [incrementAgentLoop] calls (for any
    agents) all answer [true] and leave the state unterminated when
    [maxAgentLoops] is absent or 0, and likewise any number of
    [incrementReflectionCycle] calls when [maxReflectionCycles] is absent or
    0. *)
Theorem zero_ceiling_is_unlimited (p : option CrewExecutionPolicies)
  (t : TerminationState) :
  terminated t = false ->
  (unlimited (agentLoopCeiling p) ->
   forall agentIds : list string,
     (performAll p (map CallAgentLoop agentIds) t).1 = map (fun _ => true) agentIds /\
     terminated (performAll p (map CallAgentLoop agentIds) t).2 = false) /\
  (unlimited (reflectionCeiling p) ->
   forall n : nat,
     (performAll p (replicate n CallReflectionCycle) t).1 = replicate n true /\
     terminated (performAll p (replicate n CallReflectionCycle) t).2 = false).
Proof.
  intros Ht. split.
  - intros Hu agentIds. revert t Ht.
    induction agentIds as [|a ids IH]; intros t Ht; [split; [reflexivity | exact Ht]|].
    destruct (incrementAgentLoop_unlimited p a t Hu Ht) as [H1 H2].
    simpl. destruct (incrementAgentLoop p a t) as [answer t1]. simpl in H1, H2.
    destruct (IH t1 H2) as [H3 H4].
    destruct (performAll p (map CallAgentLoop ids) t1) as [answers t2].
    simpl in *. subst. split; [reflexivity | exact H4].
  - intros Hu n. revert t Ht.
    induction n as [|n IH]; intros t Ht; [split; [reflexivity | exact Ht]|].
    destruct (incrementReflectionCycle_unlimited p t Hu Ht) as [H1 H2].
    simpl. destruct (incrementReflectionCycle p t) as [answer t1]. simpl in H1, H2.
    destruct (IH t1 H2) as [H3 H4].
    destruct (performAll p (replicate n CallReflectionCycle) t1) as [answers t2].
    simpl in *. subst. split; [reflexivity | exact H4].
Qed.

Lemma zero_ceiling_is_unlimited_witness :
  (performAll (loopsCappedAt 0) (map CallAgentLoop ["a"; "a"; "b"]) initialTermination).1
  = [true; true; true] /\
  terminated (performAll None (replicate 4 CallReflectionCycle) initialTermination).2
  = false.
Proof.
  split.
  - apply (proj1 (zero_ceiling_is_unlimited (loopsCappedAt 0) initialTermination eq_refl)).
    right. reflexivity.
  - apply (proj2 (zero_ceiling_is_unlimited None initialTermination eq_refl)).
    left. reflexivity.
Defined.

(** ** Properties of a run *)

(** A telemetry hook of two arguments that is absent or returns normally. *)
Definition quietHook2 {A B} (hook : option (A -> B -> Settled unit)) : Prop :=
  forall h, hook = Some h -> forall a b, h a b = Fulfilled tt.

Lemma quietHook2_None {A B} : @quietHook2 A B None.
Proof. intros h Hh. discriminate. Qed.

Lemma callHook_quiet2 {A B} (hook : option (A -> B -> Settled unit)) (a : A) (b : B)
  (strict : bool) (pre : World -> Prop) :
  quietHook2 hook ->
  spec strict pre (callHook (option_map (fun h => h a b) hook)) (fun _ => pre).
Proof.
  intros Hq. apply spec_callHook. intros e He.
  destruct hook as [h|]; simpl in He; [|discriminate].
  rewrite (Hq h eq_refl) in He. discriminate.
Qed.

(** [Reach w0 n w]: [w] comes from [w0] by at most [n] entries pushed on the
    ledger (and any number of model calls); the termination state is that of
    [w0]. *)
Definition Reach (w0 : World) (n : nat) (w : World) : Prop :=
  w_termination w = w_termination w0 /\
  exists es, length es <= n /\ w_memory w = pushAll es (w_memory w0).

Lemma Reach_refl (w : World) : Reach w 0 w.
Proof. split; [reflexivity|]. exists []. split; [simpl; lia | reflexivity]. Qed.

Lemma Reach_mono (w0 : World) (k k' : nat) (w : World) :
  k <= k' -> Reach w0 k w -> Reach w0 k' w.
Proof.
  intros Hle (Ht & es & Hlen & Hm). split; [exact Ht|].
  exists es. split; [lia | exact Hm].
Qed.

Lemma remember_spec (strict : bool) (w0 : World) (k : nat) (e : MemoryEntry) :
  spec strict (Reach w0 k) (remember (pushEntry e)) (fun _ => Reach w0 (k + 1)).
Proof.
  apply spec_modify. intros w (Ht & es & Hlen & Hm). split; [exact Ht|].
  exists (es ++ [e]). split; [rewrite length_app; simpl; lia|].
  simpl. rewrite Hm, pushAll_app. reflexivity.
Qed.

Lemma rememberRationale_spec (strict : bool) (w0 : World) (k : nat) (label : string)
  (p : Plan) :
  spec strict (Reach w0 k) (rememberRationale label p) (fun _ => Reach w0 (k + 1)).
Proof.
  unfold rememberRationale.
  destruct (plan_rationale p) as [r|]; [destruct (truthy r)|].
  - apply remember_spec.
  - apply spec_ret. intros w Hw. apply (Reach_mono w0 k); [lia | exact Hw].
  - apply spec_ret. intros w Hw. apply (Reach_mono w0 k); [lia | exact Hw].
Qed.

Lemma checkTermination_spec (strict : bool) (w0 : World) (k : nat) :
  spec strict (Reach w0 k) checkTermination
    (fun stop w => stop = terminated (w_termination w0) /\ Reach w0 k w).
Proof.
  intros w Hw. simpl. split; [now rewrite (proj1 Hw) | exact Hw].
Qed.

(** A computation that returns from every world, when it does so from every
    starting point of [Reach]. *)
Lemma spec_from_start {A} (strict : bool) (m : M World A)
  (post : World -> A -> World -> Prop) :
  (forall w0, spec strict (Reach w0 0) m (post w0)) ->
  spec strict (fun _ => True) m (fun _ _ => True).
Proof.
  intros H w _. specialize (H w w (Reach_refl w)).
  destruct (m w) as [[[a|e] w']|]; [exact I | exact H | exact H].
Qed.

Section RunProperties.

Variable timing : list AgentWork -> Timing.
Variable JSON_parse : string -> Settled JsonValue.
Variable this : Orchestrator.

Hypothesis generated_quiet : quietHook2 (onPlanGenerated (cfg this)).
Hypothesis step_quiet : quietHook2 (onPlanStepUpdate (cfg this)).
Hypothesis wave_quiet : quietHook2 (onPlanWaveComplete (cfg this)).
Hypothesis batch_quiet :
  forall px, parallelExecutor this = Some px ->
    quiet (onStartBatch px) /\ quiet (onFinishBatch px).

Lemma stepUpdateHook_spec (w0 : World) (k : nat) (step : PlanStep) (ev : PlanStepEvent) :
  spec true (Reach w0 k) (stepUpdateHook this step ev) (fun _ => Reach w0 (k + 1)).
Proof.
  unfold stepUpdateHook.
  apply spec_bind with (mid := fun _ => Reach w0 (k + 1)).
  - destruct ev; apply remember_spec.
  - intros _. now apply callHook_quiet2.
Qed.

Lemma waveCompleteHook_spec (w0 : World) (k n : nat) (steps : list PlanStep) :
  spec true (Reach w0 k) (waveCompleteHook this n steps) (fun _ => Reach w0 (k + 1)).
Proof.
  unfold waveCompleteHook.
  apply spec_bind with (mid := fun _ => Reach w0 k).
  - now apply callHook_quiet2.
  - intros _. apply remember_spec.
Qed.

Lemma runBatchOf_spec (w0 : World) (k : nat) (px : ParallelExecutorOptions)
  (items : list AgentWork) :
  parallelExecutor this = Some px ->
  spec true (Reach w0 k) (runBatchOf timing px items) (fun _ => Reach w0 k).
Proof.
  intros Hpx. unfold runBatchOf.
  destruct (batch_quiet px Hpx) as [Hs Hf].
  destruct (runBatch_resolves (timing items) px items Hs Hf) as [summary Hsum].
  rewrite Hsum. intros w Hw. exact Hw.
Qed.

(** The plan case leaves at most three ledger entries per pending step and
    one more; unless the run was already terminated (or there is nothing to
    run the plan with) every step of the plan it hands back has been settled. *)
Lemma executePlanThenParallel_spec (w0 : World) (k : nat) (p : Plan) :
  spec true (Reach w0 k) (executePlanThenParallel timing this p)
    (fun r w =>
       Reach w0 (k + pot 3 1 (plan_steps p) + 1) w /\
       map shape (plan_steps r.2) = map shape (plan_steps p) /\
       plan_rationale r.2 = plan_rationale p /\
       (terminated (w_termination w0) = true -> r.2 = p) /\
       (terminated (w_termination w0) = false ->
        crew this <> None -> parallelExecutor this <> None ->
        Forall (fun s => isTerminal (step_status s) = true) (plan_steps r.2))).
Proof.
  assert (Hskip : forall n,
             (terminated (w_termination w0) = false ->
              crew this <> None -> parallelExecutor this <> None ->
              Forall (fun s => isTerminal (step_status s) = true) (plan_steps p)) ->
             spec true (Reach w0 k) (ret (n, p))
               (fun (r : nat * Plan) w =>
                  Reach w0 (k + pot 3 1 (plan_steps p) + 1) w /\
                  map shape (plan_steps r.2) = map shape (plan_steps p) /\
                  plan_rationale r.2 = plan_rationale p /\
                  (terminated (w_termination w0) = true -> r.2 = p) /\
                  (terminated (w_termination w0) = false ->
                   crew this <> None -> parallelExecutor this <> None ->
                   Forall (fun s => isTerminal (step_status s) = true) (plan_steps r.2)))).
  { intros n Hn. apply spec_ret. intros w Hw. simpl.
    split; [apply (Reach_mono w0 k); [lia | exact Hw]|].
    split; [reflexivity|]. split; [reflexivity|]. split; [reflexivity | exact Hn]. }
  assert (Hbatch : forall px, parallelExecutor this = Some px ->
             forall n items,
               spec true (Reach w0 n) (runBatchOf timing px items) (fun _ => Reach w0 n))
    by (intros px Hpx n items; now apply runBatchOf_spec).
  unfold executePlanThenParallel.
  apply spec_bind with (mid := fun stop w => stop = terminated (w_termination w0) /\
                                             Reach w0 k w);
    [apply checkTermination_spec|].
  intros stop. apply spec_assume. intros ->.
  destruct (terminated (w_termination w0)) eqn:Ht; [apply Hskip; discriminate|].
  destruct (crew this) as [kc|] eqn:Ek; [|apply Hskip; intros _ H; now destruct H].
  destruct (parallelExecutor this) as [px|] eqn:Epx;
    [|apply Hskip; intros _ _ H; now destruct H].
  destruct (plan_steps p) as [|s0 rest] eqn:Esteps.
  { apply Hskip. intros _ _ _. constructor. }
  clear Hskip. rewrite <- Esteps.
  set (dag := {| PlanDAGExecutor.parallelExecutor := runBatchOf timing px;
                 hooks := Some {| onStepUpdate := Some (stepUpdateHook this);
                                  onWaveStart := None;
                                  onWaveComplete := Some (waveCompleteHook this) |} |}).
  set (factory := plannedWork (List.find isWorker (crew_agents kc))).
  assert (Hdag : spec true (Reach w0 k) (PlanDAGExecutor.run dag factory p)
                   (fun r w =>
                      Reach w0 (k + pot 3 1 (plan_steps p)) w /\
                      Forall (fun s => isTerminal (step_status s) = true) (plan_steps r.2) /\
                      map shape (plan_steps r.2) = map shape (plan_steps p) /\
                      plan_rationale r.2 = plan_rationale p)).
  { unfold PlanDAGExecutor.run.
    apply (runWithin_spec (Reach w0) (Reach_mono w0) true 1 0 1 dag factory).
    - intros n items. now apply (Hbatch px).
    - intros h f Hh Hf n s e. inversion Hh; subst h. inversion Hf; subst f.
      apply stepUpdateHook_spec.
    - intros h f Hh Hf. inversion Hh; subst h. discriminate.
    - intros h f Hh Hf n i l. inversion Hh; subst h. inversion Hf; subst f.
      apply waveCompleteHook_spec.
    - lia. }
  intros w Hw. unfold bind. specialize (Hdag w Hw).
  destruct (PlanDAGExecutor.run dag factory p w) as [[[[result p']|e] w1]|];
    [|exact Hdag|exact Hdag].
  destruct Hdag as (Hw1 & Hterm & Hshape & Hrat). simpl.
  split; [|split; [exact Hshape|split; [exact Hrat|split; [discriminate|]]]].
  - pose proof (remember_spec true w0 (k + pot 3 1 (plan_steps p))
                  (ThoughtEntry
                     ("Plan execution summary: "
                      +:+ pretty (countStatus done (plan_steps p')) +:+ " done, "
                      +:+ pretty (countStatus error (plan_steps p')) +:+ " error, "
                      +:+ pretty (waves result) +:+ " waves.") None None) w1 Hw1) as H.
    exact H.
  - intros _ _ _. exact Hterm.
Qed.

Lemma executeDirectExecution_spec (w0 : World) (k : nat) :
  spec true (Reach w0 k) (executeDirectExecution timing this) (fun _ => Reach w0 (k + 1)).
Proof.
  assert (Hskip : forall n : nat,
             spec true (Reach w0 k) (ret n) (fun _ => Reach w0 (k + 1))).
  { intros n. apply spec_ret. intros w Hw. apply (Reach_mono w0 k); [lia | exact Hw]. }
  assert (Hbatch : forall px, parallelExecutor this = Some px ->
             forall items,
               spec true (Reach w0 k) (runBatchOf timing px items) (fun _ => Reach w0 k))
    by (intros px Hpx items; now apply runBatchOf_spec).
  unfold executeDirectExecution.
  apply spec_bind with (mid := fun stop w => stop = terminated (w_termination w0) /\
                                             Reach w0 k w);
    [apply checkTermination_spec|].
  intros stop. apply spec_assume. intros ->.
  destruct (terminated (w_termination w0)); [apply Hskip|].
  destruct (crew this) as [kc|]; [|apply Hskip].
  destruct (parallelExecutor this) as [px|] eqn:Epx; [|apply Hskip].
  destruct (List.filter isWorker (crew_agents kc)) as [|a0 rest]; [apply Hskip|].
  apply spec_bind with (mid := fun _ => Reach w0 k); [now apply (Hbatch px)|].
  intros _.
  apply spec_bind with (mid := fun _ => Reach w0 (k + 1)); [apply remember_spec|].
  intros _.
  apply spec_bind with (mid := fun _ => Reach w0 (k + 1)).
  - eapply spec_conseq;
      [apply checkTermination_spec | intros w H; exact H | intros a w H; exact (proj2 H)].
  - intros _. apply spec_ret. auto.
Qed.

(** The skeleton fallback: the plan, a thought with its rationale when it has
    one, and the observation of the planner's failure. *)
Lemma fallBack_spec (w0 : World) (k : nat) (options : OrchestratorRunOptions) :
  spec true (Reach w0 k) (fallBack this options)
    (fun p w =>
       p = generateSkeletonPlan this (goal options) /\
       Reach w0 (k + 2) w /\
       (1 <= maxEntries (w_memory w0) ->
        recent 1 (ObservationEntry plannerFailureNote None None (Some false) None None)
          (w_memory w))).
Proof.
  unfold fallBack.
  apply spec_bind with (mid := fun _ => Reach w0 k); [now apply callHook_quiet2|].
  intros _.
  apply spec_bind with (mid := fun _ => Reach w0 (k + 1)); [apply rememberRationale_spec|].
  intros _ w Hw. simpl. split; [reflexivity|].
  pose proof (remember_spec true w0 (k + 1)
                (ObservationEntry plannerFailureNote None None (Some false) None None)
                w Hw) as H.
  simpl in H. split.
  - replace (k + 2) with (k + 1 + 1) by lia. exact H.
  - intros Hmax. apply pushEntry_recent_new.
    destruct Hw as (_ & es & _ & ->). now rewrite pushAll_maxEntries.
Qed.

(** Whatever the planner and its attempt hook do, a plan is obtained. *)
Lemma obtainPlan_returns (options : OrchestratorRunOptions) (k : Crew) :
  spec true (fun _ => True) (obtainPlan JSON_parse this options k) (fun _ _ => True).
Proof.
  unfold obtainPlan. apply spec_tryCatch.
  - apply spec_bind with (mid := fun _ _ => True).
    + apply settles_spec, Planner.invokePlanner_settles.
      intros messages w. discriminate.
    + intros p.
      apply spec_bind with (mid := fun _ _ => True);
        [apply spec_callHook; reflexivity|].
      intros _.
      apply spec_bind with (mid := fun _ _ => True);
        [apply spec_modify; auto|].
      intros _.
      apply spec_bind with (mid := fun _ _ => True).
      * apply spec_weaken_strict.
        apply (spec_from_start true _ (fun w0 _ => Reach w0 (0 + 1))).
        intros w0. apply rememberRationale_spec.
      * intros _. apply spec_ret. auto.
  - intros e.
    apply (spec_from_start true _
             (fun w0 p w =>
                p = generateSkeletonPlan this (goal options) /\
                Reach w0 (0 + 2) w /\
                (1 <= maxEntries (w_memory w0) ->
                 recent 1 (ObservationEntry plannerFailureNote None None (Some false)
                             None None) (w_memory w)))).
    intros w0. apply fallBack_spec.
Qed.

Lemma dispatch_returns (options : OrchestratorRunOptions) (k : Crew) (s : RouteStrategy) :
  spec true (fun _ => True) (dispatch timing JSON_parse this options k s)
    (fun b _ => b.1.1 = match s with plan_then_parallel => true | _ => false end).
Proof.
  intros w _. unfold dispatch. destruct s.
  - unfold bind at 1.
    pose proof (obtainPlan_returns options k w I) as H.
    destruct (obtainPlan JSON_parse this options k w) as [[[p|e] w1]|];
      [|exact H|exact H].
    unfold bind at 1.
    pose proof (executePlanThenParallel_spec w1 0 p w1 (Reach_refl w1)) as H1.
    destruct (executePlanThenParallel timing this p w1) as [[[r|e] w2]|];
      [reflexivity | exact H1 | exact H1].
  - unfold bind at 1.
    pose proof (executeDirectExecution_spec w 0 w (Reach_refl w)) as H.
    destruct (executeDirectExecution timing this w) as [[[n|e] w1]|];
      [reflexivity | exact H | exact H].
Qed.

(** With the plan, batch and wave hooks quiet, a run is decided by the route
    decision: it returns a result carrying the decision when one is acquired,
    and it throws what the acquisition throws. *)
Lemma run_follows_route (options : OrchestratorRunOptions) (k : Crew) (w : World) :
  crew this = Some k ->
  match acquireRouteDecision JSON_parse this options w with
  | Some (Fulfilled d, _) =>
      exists r w', run timing JSON_parse this options w = Some (Fulfilled r, w') /\
                   result_routeDecision r = d /\
                   result_strategy r = strategy d /\
                   planGenerated r = match strategy d with
                                     | plan_then_parallel => true
                                     | _ => false
                                     end
  | Some (Rejected e, w1) => run timing JSON_parse this options w = Some (Rejected e, w1)
  | None => run timing JSON_parse this options w = None
  end.
Proof.
  intros Hcrew.
  assert (Hrun : run timing JSON_parse this options w =
                 match acquireRouteDecision JSON_parse this options w with
                 | Some (Fulfilled d, w1) =>
                     bind (dispatch timing JSON_parse this options k (strategy d))
                       (fun branch =>
                          bind get (fun w => ret (resultOf d branch (w_termination w))))
                       w1
                 | Some (Rejected e, w1) => Some (Rejected e, w1)
                 | None => None
                 end).
  { unfold run. rewrite Hcrew. reflexivity. }
  rewrite Hrun. clear Hrun.
  destruct (acquireRouteDecision JSON_parse this options w) as [[[d|e] w1]|];
    [|reflexivity|reflexivity].
  unfold bind at 1.
  pose proof (dispatch_returns options k (strategy d) w1 I) as H.
  destruct (dispatch timing JSON_parse this options k (strategy d) w1)
    as [[[[[generated finalPlan] batches]|e] w2]|]; [|discriminate|contradiction].
  simpl in H. simpl. eexists _, _. split; [reflexivity|]. simpl. auto.
Qed.

End RunProperties.


(** *** What construction gives a run to work with *)

Lemma orchestratorFor_parallelExecutor (c : CrewOrchestratorConfig) (k : Crew) :
  selectCrew c = Some k ->
  exists px, parallelExecutor (orchestratorFor c) = Some px /\
             onStartBatch px = None /\
             onFinishBatch px = onParallelBatchComplete c.
Proof.
  intros Hk. unfold orchestratorFor, createCrewOrchestrator. rewrite Hk.
  unfold new_ParallelExecutor. simpl.
  destruct (Nat.ltb (configuredConcurrency (crew_executionPolicies k)) 1) eqn:E.
  - pose proof (configuredConcurrency_positive (crew_executionPolicies k)).
    apply Nat.ltb_lt in E. lia.
  - eexists. split; [reflexivity|]. split; reflexivity.
Qed.

Lemma orchestratorFor_batch_quiet (c : CrewOrchestratorConfig) :
  quiet (onParallelBatchComplete c) ->
  forall px, parallelExecutor (orchestratorFor c) = Some px ->
    quiet (onStartBatch px) /\ quiet (onFinishBatch px).
Proof.
  intros Hq px Hpx.
  destruct (selectCrew c) as [k|] eqn:Hk.
  - destruct (orchestratorFor_parallelExecutor c k Hk) as (px' & Hpx' & Hs & Hf).
    rewrite Hpx in Hpx'. inversion Hpx'; subst px'.
    rewrite Hs, Hf. split; [apply quiet_None | exact Hq].
  - unfold orchestratorFor, createCrewOrchestrator in Hpx. rewrite Hk in Hpx.
    discriminate.
Qed.

(** *** The route loop returns, and leaves ledger and termination state alone *)

Section RouteLoop.

Variable JSON_parse : string -> Settled JsonValue.
Variable this : Orchestrator.

Lemma routeLoop_unfold (remaining attempt : nat) (messages : list LlmChatMessage)
  (lastError : option string) :
  routeLoop JSON_parse this (S remaining) attempt messages lastError =
  bind (chat (cfg this) messages)
    (fun raw =>
       tryCatch
         (bind (await (parseRouteDecision JSON_parse raw))
            (fun decision =>
               bind (routeAttemptHook this raw None attempt)
                 (fun _ => ret (inl decision))))
         (fun err =>
            bind (routeAttemptHook this raw (Some err) attempt)
              (fun _ =>
                 routeLoop JSON_parse this remaining (S attempt)
                   (if (Z.of_nat attempt <? effectiveMaxAttempts this)%Z
                    then messages ++ repairTurn raw err else messages)
                   (Some err)))).
Proof. reflexivity. Qed.

Section Frame.

Variable I : World -> Prop.
Hypothesis I_calls :
  forall w calls,
    I w -> I {| w_termination := w_termination w; w_memory := w_memory w;
                w_llmCalls := calls |}.

Lemma chat_preserves (c : CrewOrchestratorConfig) (messages : list LlmChatMessage) :
  preserves I (chat c messages).
Proof.
  intros w r w' Hw H. unfold chat in H. inversion H; subst. now apply I_calls.
Qed.

Lemma routeLoop_preserves (remaining : nat) :
  forall attempt messages lastError,
    preserves I (routeLoop JSON_parse this remaining attempt messages lastError).
Proof.
  induction remaining as [|remaining IH]; intros attempt messages lastError.
  - apply preserves_ret.
  - rewrite routeLoop_unfold.
    apply preserves_bind; [apply chat_preserves|]. intros raw.
    apply preserves_tryCatch.
    + apply preserves_bind; [apply preserves_await|]. intros decision.
      apply preserves_bind; [apply preserves_callHook|]. intros _. apply preserves_ret.
    + intros err. apply preserves_bind; [apply preserves_callHook|]. intros _. apply IH.
Qed.

Lemma acquireRouteDecision_preserves (options : OrchestratorRunOptions) :
  preserves I (acquireRouteDecision JSON_parse this options).
Proof.
  unfold acquireRouteDecision.
  apply preserves_bind; [apply routeLoop_preserves|].
  intros [decision|[messages lastError]]; [apply preserves_ret | apply preserves_throw].
Qed.

Lemma planner_preserves (options : OrchestratorRunOptions) (k : Crew) :
  preserves I (Planner.invokePlanner JSON_parse (plannerOptions this options k)).
Proof.
  apply Planner.invokePlanner_preserves. intros messages. apply chat_preserves.
Qed.

End Frame.

Hypothesis attempt_quiet : quietAttemptHook (onRouteDecisionAttempt (cfg this)).
Hypothesis llm_answers :
  forall history messages, exists raw, llm (cfg this) history messages = Fulfilled raw.

Lemma routeLoop_returns (remaining : nat) :
  forall attempt messages lastError,
    spec true (fun _ => True)
      (routeLoop JSON_parse this remaining attempt messages lastError)
      (fun _ _ => True).
Proof.
  induction remaining as [|remaining IH]; intros attempt messages lastError.
  - apply spec_ret. auto.
  - rewrite routeLoop_unfold.
    apply spec_bind with (mid := fun _ _ => True).
    + intros w _. unfold chat.
      destruct (llm_answers (w_llmCalls w) messages) as [raw ->]. exact I.
    + intros raw. apply spec_tryCatch.
      * apply spec_bind with (mid := fun _ _ => True);
          [apply spec_await; [auto | reflexivity]|].
        intros decision.
        apply spec_bind with (mid := fun _ _ => True);
          [apply spec_callHook; reflexivity|].
        intros _. apply spec_ret. auto.
      * intros err.
        apply spec_bind with (mid := fun _ _ => True).
        -- intros w _. now rewrite (routeAttemptHook_quiet this attempt_quiet).
        -- intros _. apply IH.
Qed.

(** The acquisition either returns a decision or throws the route failure. *)
Lemma acquireRouteDecision_outcome (options : OrchestratorRunOptions) (w : World) :
  (exists d w1,
     acquireRouteDecision JSON_parse this options w = Some (Fulfilled d, w1)) \/
  (exists lastError w1,
     acquireRouteDecision JSON_parse this options w =
     Some (Rejected (routeFailure this lastError), w1)).
Proof.
  unfold acquireRouteDecision, bind.
  destruct (spec_run _ _ _ w
              (routeLoop_returns (Z.to_nat (effectiveMaxAttempts this)) 1
                 (routeMessages this options) None) I)
    as (r & w1 & Hr & _).
  rewrite Hr. destruct r as [d|[messages lastError]].
  - left. now exists d, w1.
  - right. now exists lastError, w1.
Qed.

End RouteLoop.

Definition noCrewMessage : string := "CrewOrchestrator: No crew available in global state.".

(** C3 (as the code has it).  Let the telemetry hooks of the configuration
    ([onRouteDecisionAttempt], [onParallelBatchComplete], [onPlanGenerated],
    [onPlanStepUpdate], [onPlanWaveComplete]) be absent or return normally,
    and let the model client answer every call.  Then for every run options
    value [run] throws in exactly two cases and returns a result otherwise:
    when no crew roster resolves from global state it throws the no-crew
    error; when a roster resolves, either the route decision is acquired and
    [run] returns a result carrying it, or the acquisition throws the
    route-decision failure of the exhausted attempt ceiling and [run] throws
    that same error. *)
Theorem run_throws_in_two_cases (timing : list AgentWork -> Timing)
  (JSON_parse : string -> Settled JsonValue) (c : CrewOrchestratorConfig)
  (options : OrchestratorRunOptions) (w : World) :
  quietAttemptHook (onRouteDecisionAttempt c) ->
  quiet (onParallelBatchComplete c) ->
  quietHook2 (onPlanGenerated c) ->
  quietHook2 (onPlanStepUpdate c) ->
  quietHook2 (onPlanWaveComplete c) ->
  (forall history messages, exists raw, llm c history messages = Fulfilled raw) ->
  match selectCrew c with
  | None =>
      run timing JSON_parse (orchestratorFor c) options w = Some (Rejected noCrewMessage, w)
  | Some _ =>
      (exists d w1 r w',
         acquireRouteDecision JSON_parse (orchestratorFor c) options w
         = Some (Fulfilled d, w1) /\
         run timing JSON_parse (orchestratorFor c) options w = Some (Fulfilled r, w') /\
         result_routeDecision r = d /\
         result_strategy r = strategy d) \/
      (exists lastError w1,
         acquireRouteDecision JSON_parse (orchestratorFor c) options w
         = Some (Rejected (routeFailure (orchestratorFor c) lastError), w1) /\
         run timing JSON_parse (orchestratorFor c) options w
         = Some (Rejected (routeFailure (orchestratorFor c) lastError), w1))
  end.
Proof.
  intros Hattempt Hbatch Hgen Hstep Hwave Hllm.
  pose proof (orchestratorFor_crew c) as Hcrew.
  pose proof (orchestratorFor_cfg c) as Hcfg.
  destruct (selectCrew c) as [k|] eqn:Hk.
  - assert (Hrun := run_follows_route timing JSON_parse (orchestratorFor c)).
    rewrite Hcfg in Hrun.
    specialize (Hrun Hgen Hstep Hwave (orchestratorFor_batch_quiet c Hbatch) options k w
                  Hcrew).
    destruct (acquireRouteDecision_outcome JSON_parse (orchestratorFor c)) with
      (options := options) (w := w) as [(d & w1 & Hd)|(lastError & w1 & He)].
    + now rewrite Hcfg.
    + now rewrite Hcfg.
    + left. rewrite Hd in Hrun. destruct Hrun as (r & w' & Hr & Hd' & Hs & _).
      now exists d, w1, r, w'.
    + right. rewrite He in Hrun. now exists lastError, w1.
  - unfold run. rewrite Hcrew. reflexivity.
Qed.

(** The run of the repository's test: two workers, a valid route decision,
    then garbled planner output. *)
Lemma run_throws_in_two_cases_witness :
  (exists d w1 r w',
     acquireRouteDecision sampleParse
       (orchestratorFor (configFor [testCrew] (routeThenGarbled "ROUTE:plan") None))
       buildFeatureX initialWorld = Some (Fulfilled d, w1) /\
     run settleInOrder sampleParse
       (orchestratorFor (configFor [testCrew] (routeThenGarbled "ROUTE:plan") None))
       buildFeatureX initialWorld = Some (Fulfilled r, w') /\
     result_routeDecision r = d /\
     result_strategy r = strategy d) \/
  (exists lastError w1,
     acquireRouteDecision sampleParse
       (orchestratorFor (configFor [testCrew] (routeThenGarbled "ROUTE:plan") None))
       buildFeatureX initialWorld
     = Some (Rejected
               (routeFailure
                  (orchestratorFor (configFor [testCrew] (routeThenGarbled "ROUTE:plan") None))
                  lastError), w1) /\
     run settleInOrder sampleParse
       (orchestratorFor (configFor [testCrew] (routeThenGarbled "ROUTE:plan") None))
       buildFeatureX initialWorld
     = Some (Rejected
               (routeFailure
                  (orchestratorFor (configFor [testCrew] (routeThenGarbled "ROUTE:plan") None))
                  lastError), w1)).
Proof.
  apply (run_throws_in_two_cases settleInOrder sampleParse
           (configFor [testCrew] (routeThenGarbled "ROUTE:plan") None)
           buildFeatureX initialWorld
           quietAttemptHook_None quiet_None quietHook2_None quietHook2_None
           quietHook2_None).
  intros [|call history] messages; eexists; reflexivity.
Defined.

(** What the specification says of one run: it throws only without a roster or
    without a route decision. *)
Definition throwsOnlyAsSpecified (timing : list AgentWork -> Timing)
  (JSON_parse : string -> Settled JsonValue) (c : CrewOrchestratorConfig)
  (options : OrchestratorRunOptions) (w : World) : Prop :=
  match run timing JSON_parse (orchestratorFor c) options w with
  | Some (Fulfilled _, _) => True
  | Some (Rejected _, _) =>
      selectCrew c = None \/
      forall d w1,
        acquireRouteDecision JSON_parse (orchestratorFor c) options w
        <> Some (Fulfilled d, w1)
  | None => False
  end.

(** The configuration of the test with a step-update hook that throws. *)
Definition failingStepHook : CrewOrchestratorConfig :=
  {| llm := routeThenGarbled "ROUTE:plan";
     globalCrews := Some [testCrew];
     globalSelectedCrewId := Some "crew1";
     checkpointTracker := None;
     routeDecisionMaxAttempts := None;
     onRouteDecisionAttempt := None;
     onParallelBatchComplete := None;
     onPlanAttempt := None;
     onPlanGenerated := None;
     onPlanStepUpdate := Some (fun _ _ => Rejected "telemetry sink closed");
     onPlanWaveComplete := None |}.

(** The roster resolves and the route decision parses at the first attempt,
    and yet the run throws: the error of the hook comes out of [run]. *)
Lemma run_hook_failure_escapes :
  ~ throwsOnlyAsSpecified settleInOrder sampleParse failingStepHook buildFeatureX
      initialWorld.
Proof.
  unfold throwsOnlyAsSpecified.
  assert (Hrun : exists w',
             run settleInOrder sampleParse (orchestratorFor failingStepHook)
               buildFeatureX initialWorld
             = Some (Rejected "telemetry sink closed", w')).
  { eexists. vm_compute. reflexivity. }
  destruct Hrun as [w' ->].
  intros [Hcrew|Hroute]; [discriminate|].
  eapply Hroute. vm_compute. reflexivity.
Qed.


(** *** The skeleton fallback *)

Lemma pot_pending_imap {A} (f : nat -> A -> PlanStep) (l : list A) :
  (forall i a, step_status (f i a) = Some pending) ->
  pot 3 1 (imap f l) = 3 * length l.
Proof.
  revert f. induction l as [|a l IH]; intros f Hf; [reflexivity|].
  change (pot 3 1 (imap f (a :: l)))
    with (weight 3 1 (step_status (f 0 a)) + pot 3 1 (imap (f ∘ S) l)).
  rewrite Hf, IH; [simpl; lia|]. intros i x. apply Hf.
Qed.

Lemma shape_imap_lookup {A} (f : nat -> A -> PlanStep) (l : list A)
  (steps : list PlanStep) (i : nat) (a : A) :
  map shape steps = map shape (imap f l) ->
  l !! i = Some a ->
  exists s, steps !! i = Some s /\ shape s = shape (f i a).
Proof.
  intros Hshape Ha.
  assert (H : map shape steps !! i = Some (shape (f i a))).
  { rewrite Hshape. change (map shape (imap f l)) with (shape <$> imap f l).
    rewrite list_lookup_fmap, list_lookup_imap, Ha. reflexivity. }
  change (map shape steps) with (shape <$> steps) in H.
  rewrite list_lookup_fmap in H.
  destruct (steps !! i) as [s|]; [|discriminate].
  exists s. split; [reflexivity|]. simpl in H. congruence.
Qed.

(** The observation that notes the planner's failure. *)
Definition plannerFailureObservation : MemoryEntry :=
  ObservationEntry plannerFailureNote None None (Some false) None None.

(** C8 (as the code has it).  Let the plan, step, wave and batch hooks be
    absent or return normally, let the route decision be
    [plan_then_parallel] and the planner invocation throw, and let the
    ledger have room for three entries per enabled non-reflection agent and
    two more.  Then [run] returns a result with [planGenerated = true] and
    the skeleton plan: the rationale is the skeleton marker text; there is
    exactly one step per enabled, non-reflection agent, in roster order, with
    the description made of the agent's role (or id) and the goal and with an
    empty dependency list; the ledger contains the observation noting the
    planner failure.  The plan has been executed by the time it is returned:
    its steps are [done] or [error], not [pending] -- unless the orchestrator
    had terminated before, in which case they are the pending steps as
    generated. *)
Theorem run_falls_back_to_skeleton (timing : list AgentWork -> Timing)
  (JSON_parse : string -> Settled JsonValue) (c : CrewOrchestratorConfig)
  (options : OrchestratorRunOptions) (k : Crew) (w : World)
  (d : RouteDecision) (w1 : World) (e : string) (w2 : World) :
  quiet (onParallelBatchComplete c) ->
  quietHook2 (onPlanGenerated c) ->
  quietHook2 (onPlanStepUpdate c) ->
  quietHook2 (onPlanWaveComplete c) ->
  selectCrew c = Some k ->
  acquireRouteDecision JSON_parse (orchestratorFor c) options w = Some (Fulfilled d, w1) ->
  strategy d = plan_then_parallel ->
  Planner.invokePlanner JSON_parse (plannerOptions (orchestratorFor c) options k) w1
  = Some (Rejected e, w2) ->
  3 * length (List.filter isWorker (crew_agents k)) + 2 <= maxEntries (w_memory w) ->
  exists r p w',
    run timing JSON_parse (orchestratorFor c) options w = Some (Fulfilled r, w') /\
    planGenerated r = true /\
    plan r = Some p /\
    plan_rationale p = Some skeletonRationale /\
    length (plan_steps p) = length (List.filter isWorker (crew_agents k)) /\
    (forall i a,
       List.filter isWorker (crew_agents k) !! i = Some a ->
       exists s,
         plan_steps p !! i = Some s /\
         step_description s =
           "Have agent '" +:+ orElse (agent_role a) (agent_id a)
           +:+ "' contribute toward goal: " +:+ goal options /\
         step_dependsOn s = Some []) /\
    (if terminated (w_termination w)
     then plan_steps p
          = imap (skeletonStep (goal options)) (List.filter isWorker (crew_agents k))
     else Forall (fun s => isTerminal (step_status s) = true) (plan_steps p)) /\
    plannerFailureObservation ∈ entries (w_memory w').
Proof.
  intros Hbatch Hgen Hstep Hwave Hk Hroute Hstrategy Hplanner Hroom.
  set (this := orchestratorFor c) in *.
  set (workers := List.filter isWorker (crew_agents k)) in *.
  assert (Hcrew : crew this = Some k) by (unfold this; now rewrite orchestratorFor_crew).
  assert (Hcfg : cfg this = c) by apply orchestratorFor_cfg.
  destruct (orchestratorFor_parallelExecutor c k Hk) as (px & Hpx & _).
  fold this in Hpx.
  assert (Hquiet : forall px, parallelExecutor this = Some px ->
                     quiet (onStartBatch px) /\ quiet (onFinishBatch px))
    by now apply orchestratorFor_batch_quiet.
  rewrite <- Hcfg in Hgen, Hstep, Hwave.
  (* ledger and termination state when the planner has thrown *)
  set (I := fun x => w_termination x = w_termination w /\ w_memory x = w_memory w).
  assert (HI : forall x calls,
             I x -> I {| w_termination := w_termination x; w_memory := w_memory x;
                         w_llmCalls := calls |}) by (intros x calls Hx; exact Hx).
  assert (H1 : I w1).
  { exact (acquireRouteDecision_preserves JSON_parse this I HI options w _ w1
             (conj eq_refl eq_refl) Hroute). }
  assert (H2 : I w2).
  { exact (planner_preserves JSON_parse this I HI options k w1 _ w2 H1 Hplanner). }
  destruct H2 as [Hterm2 Hmem2].
  (* the fallback *)
  pose proof (fallBack_spec this Hgen w2 0 options w2 (Reach_refl w2)) as Hfall.
  destruct (fallBack this options w2) as [[[p|?] w3]|] eqn:Efall;
    [|discriminate|contradiction].
  destruct Hfall as (Hp & Hreach3 & Hrecent).
  assert (Hsteps : plan_steps p = imap (skeletonStep (goal options)) workers).
  { rewrite Hp. unfold generateSkeletonPlan. now rewrite Hcrew. }
  assert (Hrationale : plan_rationale p = Some skeletonRationale).
  { rewrite Hp. unfold generateSkeletonPlan. now rewrite Hcrew. }
  (* the execution of the plan *)
  pose proof (executePlanThenParallel_spec timing this Hstep Hwave Hquiet w3 0 p w3
                (Reach_refl w3)) as Hexec.
  destruct (executePlanThenParallel timing this p w3) as [[[[n p']|?] w4]|] eqn:Eexec;
    [|discriminate|contradiction].
  simpl in Hexec. destruct Hexec as (Hreach4 & Hshape & Hrat & Hstopped & Hsettled).
  assert (Hterm3 : w_termination w3 = w_termination w).
  { rewrite (proj1 Hreach3). exact Hterm2. }
  exists (resultOf d (true, Some p', n) (w_termination w4)), p', w4.
  split; [|split; [reflexivity|split; [reflexivity|split; [|split; [|split; [|split]]]]]].
  - unfold run. fold this. rewrite Hcrew. unfold bind at 1. rewrite Hroute.
    unfold bind at 1. rewrite Hstrategy. unfold dispatch, bind at 1.
    unfold obtainPlan, tryCatch, bind at 1. rewrite Hplanner. rewrite Efall.
    unfold bind at 1. rewrite Eexec. reflexivity.
  - now rewrite Hrat.
  - rewrite <- (length_map shape), Hshape, length_map, Hsteps, length_imap. reflexivity.
  - intros i a Ha. rewrite Hsteps in Hshape.
    destruct (shape_imap_lookup _ _ _ i a Hshape Ha) as (s & Hs & Hsa).
    exists s. split; [exact Hs|]. unfold shape in Hsa. simpl in Hsa.
    inversion Hsa. split; reflexivity.
  - rewrite <- Hterm3. destruct (terminated (w_termination w3)) eqn:Ht.
    + rewrite (Hstopped eq_refl). exact Hsteps.
    + apply Hsettled; [reflexivity | now rewrite Hcrew | now rewrite Hpx].
  - destruct Hreach4 as (_ & es & Hlen & Hmem4).
    assert (Hmax3 : maxEntries (w_memory w3) = maxEntries (w_memory w)).
    { destruct Hreach3 as (_ & es3 & _ & ->). now rewrite pushAll_maxEntries, Hmem2. }
    assert (Hpot : pot 3 1 (plan_steps p) = 3 * length workers).
    { rewrite Hsteps. now apply pot_pending_imap. }
    rewrite Hmem4.
    apply (recent_elem (1 + length es)).
    apply pushAll_recent.
    + apply Hrecent. rewrite Hmem2. lia.
    + rewrite Hmax3. lia.
Qed.


Lemma run_falls_back_to_skeleton_witness :
  exists r p w',
    run settleInOrder sampleParse
      (orchestratorFor (configFor [testCrew] (routeThenGarbled "ROUTE:plan") None))
      buildFeatureX initialWorld = Some (Fulfilled r, w') /\
    planGenerated r = true /\
    plan r = Some p /\
    plan_rationale p = Some skeletonRationale /\
    length (plan_steps p) = 2 /\
    Forall (fun s => isTerminal (step_status s) = true) (plan_steps p) /\
    plannerFailureObservation ∈ entries (w_memory w').
Proof.
  edestruct (run_falls_back_to_skeleton settleInOrder sampleParse
               (configFor [testCrew] (routeThenGarbled "ROUTE:plan") None)
               buildFeatureX testCrew initialWorld)
    as (r & p & w' & Hrun & Hgen & Hplan & Hrat & Hlen & _ & Hstatus & Hnote).
  - apply quiet_None.
  - apply quietHook2_None.
  - apply quietHook2_None.
  - apply quietHook2_None.
  - reflexivity.
  - vm_compute. reflexivity.
  - reflexivity.
  - vm_compute. reflexivity.
  - vm_compute. lia.
  - exists r, p, w'.
    exact (conj Hrun (conj Hgen (conj Hplan (conj Hrat (conj Hlen (conj Hstatus Hnote)))))).
Defined.

(** What the specification says of such a run: the skeleton plan comes back
    with its steps pending and the ledger holds the observation. *)
Definition returnsPendingSkeleton (timing : list AgentWork -> Timing)
  (JSON_parse : string -> Settled JsonValue) (c : CrewOrchestratorConfig)
  (options : OrchestratorRunOptions) (w : World) : Prop :=
  forall k d w1 e w2,
    selectCrew c = Some k ->
    acquireRouteDecision JSON_parse (orchestratorFor c) options w = Some (Fulfilled d, w1) ->
    strategy d = plan_then_parallel ->
    Planner.invokePlanner JSON_parse (plannerOptions (orchestratorFor c) options k) w1
    = Some (Rejected e, w2) ->
    exists r p w',
      run timing JSON_parse (orchestratorFor c) options w = Some (Fulfilled r, w') /\
      planGenerated r = true /\
      plan r = Some p /\
      plan_rationale p = Some skeletonRationale /\
      map shape (plan_steps p)
      = map shape (imap (skeletonStep (goal options))
                     (List.filter isWorker (crew_agents k))) /\
      Forall (fun s => step_status s = Some pending) (plan_steps p) /\
      plannerFailureObservation ∈ entries (w_memory w').

Definition soloCrew : Crew :=
  {| crew_id := "crew1"; crew_name := "Solo Crew";
     crew_agents := [worker "workerA"];
     crew_default := None; crew_executionPolicies := None |}.

(** With a single worker the planner is asked, throws on garbled output, and
    the skeleton plan comes back with its one step [done]. *)
Lemma skeleton_step_is_not_pending :
  ~ returnsPendingSkeleton settleInOrder sampleParse
      (configFor [soloCrew] (routeThenGarbled "ROUTE:plan") None)
      buildFeatureX initialWorld.
Proof.
  intros H.
  edestruct (H soloCrew) as (r & p & w' & Hrun & _ & Hplan & _ & _ & Hstatus & _).
  - reflexivity.
  - vm_compute. reflexivity.
  - reflexivity.
  - vm_compute. reflexivity.
  - vm_compute in Hrun. inversion Hrun; subst r. simpl in Hplan.
    inversion Hplan; subst p.
    inversion Hstatus as [|s l Hs _]. discriminate.
Qed.

Example solo_run_statuses :
  option_map (fun r => option_map (fun p => map step_status (plan_steps p)) (plan r.1))
    (match run settleInOrder sampleParse
             (orchestratorFor (configFor [soloCrew] (routeThenGarbled "ROUTE:plan") None))
             buildFeatureX initialWorld with
     | Some (Fulfilled r, w') => Some (r, w')
     | _ => None
     end)
  = Some (Some [Some done]).
Proof. vm_compute. reflexivity. Qed.


(** The ledger is a ring of 200 entries: with a roster of a hundred workers
    run a hundred at a time, every step is done and the observation of the
    planner's failure has been pushed out by the time [run] returns. *)
Definition loner (i : nat) : CrewAgent :=
  {| agent_id := "w" +:+ pretty i; agent_role := "General worker"; agent_enabled := None;
     agent_allowedToolIds := None; agent_parallelGroup := None;
     agent_reflectionRole := None |}.

Definition largeCrew (n : nat) : Crew :=
  {| crew_id := "crew1"; crew_name := "Large Crew";
     crew_agents := map loner (seq 0 n);
     crew_default := None;
     crew_executionPolicies :=
       Some {| termination := None;
               parallel := Some {| maxConcurrentAgents := Some (Z.of_nat n) |} |} |}.

Example large_roster_forgets_the_planner_failure :
  match run settleInOrder sampleParse
          (orchestratorFor (configFor [largeCrew 100] (routeThenGarbled "ROUTE:plan") None))
          buildFeatureX initialWorld with
  | Some (Fulfilled r, w') =>
      Some (planGenerated r,
            option_map (fun p => countStatus done (plan_steps p)) (plan r),
            length (entries (w_memory w')),
            bool_decide (plannerFailureObservation ∈ entries (w_memory w')))
  | _ => None
  end = Some (true, Some 100, 200, false).
Proof. vm_compute. reflexivity. Qed.

(** ** More of the orchestrator: ceilings, the roster, the route calls *)

Lemma performAll_latched (p : option CrewExecutionPolicies) (calls : list Call)
  (t : TerminationState) :
  terminated t = true -> performAll p calls t = (map (fun _ => false) calls, t).
Proof.
  intros H. induction calls as [|c calls IH]; [reflexivity|].
  simpl. rewrite (perform_latched p c t H), IH. reflexivity.
Qed.

Definition reflectionDetail (m : Z) : string :=
  "exceeded maxReflectionCycles (" +:+ pretty m +:+ ")".

Lemma incrementReflectionCycle_step (p : option CrewExecutionPolicies) (m : Z)
  (t : TerminationState) :
  reflectionCeiling p = Some m -> (0 < m)%Z -> terminated t = false ->
  incrementReflectionCycle p t
  = if Z.ltb m (Z.of_nat (reflectionCycles t + 1))
    then (false, {| agentLoopCounts := agentLoopCounts t;
                    reflectionCycles := reflectionCycles t + 1;
                    terminated := true;
                    reason := Some MAX_REFLECTION_CYCLES;
                    detail := Some (reflectionDetail m) |})
    else (true, {| agentLoopCounts := agentLoopCounts t;
                   reflectionCycles := reflectionCycles t + 1;
                   terminated := false;
                   reason := reason t;
                   detail := detail t |}).
Proof.
  intros Hceil Hm Ht. unfold incrementReflectionCycle. rewrite Ht, Hceil.
  cbn [reflectionCycles exceeds].
  destruct (Z.eqb_spec m 0) as [?|_]; [lia|]. cbn [negb andb].
  destruct (Z.ltb m (Z.of_nat (reflectionCycles t + 1))); [|reflexivity].
  unfold setTerminated. cbn [terminated]. reflexivity.
Qed.

Lemma reflection_cycles_from (p : option CrewExecutionPolicies) (m : Z) (n : nat) :
  reflectionCeiling p = Some m -> (0 < m)%Z ->
  forall t, terminated t = false ->
    let room := Z.to_nat m - reflectionCycles t in
    let r := performAll p (replicate n CallReflectionCycle) t in
    r.1 = replicate (n `min` room) true ++ replicate (n - room) false /\
    reflectionCycles r.2 = reflectionCycles t + n `min` S room /\
    agentLoopCounts r.2 = agentLoopCounts t /\
    (n <= room -> terminated r.2 = false /\ reason r.2 = reason t /\ detail r.2 = detail t) /\
    (room < n ->
     terminated r.2 = true /\ reason r.2 = Some MAX_REFLECTION_CYCLES /\
     detail r.2 = Some (reflectionDetail m)).
Proof.
  intros Hceil Hm. induction n as [|n IH]; intros t Ht; cbn zeta.
  - simpl. repeat split; try lia; auto.
  - change (performAll p (replicate (S n) CallReflectionCycle) t)
      with (let '(answer, t1) := incrementReflectionCycle p t in
            let '(answers, t2) := performAll p (replicate n CallReflectionCycle) t1 in
            (answer :: answers, t2)).
    rewrite (incrementReflectionCycle_step p m t Hceil Hm Ht).
    destruct (Z.ltb_spec m (Z.of_nat (reflectionCycles t + 1))) as [Hover|Hwithin].
    + rewrite performAll_latched by reflexivity.
      assert (Hroom : Z.to_nat m - reflectionCycles t = 0) by lia.
      rewrite Hroom. cbn [fst snd reflectionCycles agentLoopCounts terminated reason detail].
      rewrite Nat.min_0_r. cbn [replicate app].
      split; [f_equal; clear; induction n as [|n IH]; [reflexivity|];
              simpl; now rewrite IH|].
      split; [lia|]. split; [reflexivity|]. split; [lia|].
      intros _. split; [reflexivity|]. split; reflexivity.
    + set (t1 := {| agentLoopCounts := agentLoopCounts t;
                    reflectionCycles := reflectionCycles t + 1;
                    terminated := false; reason := reason t;
                    detail := detail t |}).
      specialize (IH t1 eq_refl). cbn zeta in IH.
      change (reflectionCycles t1) with (reflectionCycles t + 1) in IH.
      change (agentLoopCounts t1) with (agentLoopCounts t) in IH.
      change (reason t1) with (reason t) in IH.
      change (detail t1) with (detail t) in IH.
      destruct (performAll p (replicate n CallReflectionCycle) t1) as [answers t2].
      cbn [fst snd] in *.
      destruct IH as (Hans & Hcycles & Hcounts & Hbelow & Habove).
      assert (Hroom : Z.to_nat m - reflectionCycles t
                      = S (Z.to_nat m - (reflectionCycles t + 1))) by lia.
      rewrite Hroom. cbn [Nat.min replicate app Nat.sub].
      split; [now rewrite Hans|]. split; [rewrite Hcycles; lia|].
      split; [exact Hcounts|]. split.
      * intros Hn. apply Hbelow. lia.
      * intros Hn. apply Habove. lia.
Qed.

(** X24.  A positive [maxReflectionCycles] of [m] is a ceiling that is
    reached, not passed: on a fresh orchestrator the first [m] calls of
    [incrementReflectionCycle] answer [true], the next one answers [false] and
    terminates the run with the reason [MAX_REFLECTION_CYCLES] and a detail
    that names [m], and every call after it answers [false] and counts no
    further. *)
Theorem reflection_ceiling_is_reached (p : option CrewExecutionPolicies) (m : Z) (n : nat) :
  reflectionCeiling p = Some m -> (0 < m)%Z ->
  let r := performAll p (replicate n CallReflectionCycle) initialTermination in
  r.1 = replicate (n `min` Z.to_nat m) true ++ replicate (n - Z.to_nat m) false /\
  reflectionCycles r.2 = n `min` S (Z.to_nat m) /\
  (n <= Z.to_nat m -> terminated r.2 = false /\ reason r.2 = None) /\
  (Z.to_nat m < n ->
   terminated r.2 = true /\ reason r.2 = Some MAX_REFLECTION_CYCLES /\
   detail r.2 = Some ("exceeded maxReflectionCycles (" +:+ pretty m +:+ ")")).
Proof.
  intros Hceil Hm.
  pose proof (reflection_cycles_from p m n Hceil Hm initialTermination eq_refl) as H.
  cbn zeta in *. change (reflectionCycles initialTermination) with 0 in H.
  rewrite Nat.sub_0_r in H.
  destruct H as (Hans & Hcycles & _ & Hbelow & Habove).
  split; [exact Hans|]. split; [exact Hcycles|]. split.
  - intros Hn. destruct (Hbelow Hn) as (H1 & H2 & _). split; [exact H1 | exact H2].
  - exact Habove.
Qed.

Lemma reflection_ceiling_is_reached_witness :
  (performAll (loopsCappedAt 2) (replicate 4 CallReflectionCycle) initialTermination).1
  = [true; true; false; false] /\
  reflectionCycles
    (performAll (loopsCappedAt 2) (replicate 4 CallReflectionCycle) initialTermination).2
  = 3.
Proof.
  destruct (reflection_ceiling_is_reached (loopsCappedAt 2) 2 4 eq_refl eq_refl)
    as (Hans & Hcycles & _).
  split; [exact Hans | exact Hcycles].
Defined.

(** *** The roster the constructor picks *)

Definition isSelected (c : CrewOrchestratorConfig) (k : Crew) : bool :=
  match globalSelectedCrewId c with
  | Some sel => String.eqb (crew_id k) sel
  | None => false
  end.

Definition isDefault (k : Crew) : bool := default false (crew_default k).

Lemma find_first {A} (f : A -> bool) (l : list A) :
  match List.find f l with
  | Some x => exists before after,
                l = before ++ x :: after /\ f x = true /\
                forallb (fun y => negb (f y)) before = true
  | None => forallb (fun y => negb (f y)) l = true
  end.
Proof.
  induction l as [|a l IH]; [reflexivity|].
  simpl. destruct (f a) eqn:Ea.
  - exists [], l. auto.
  - destruct (List.find f l) as [x|].
    + destruct IH as (before & after & -> & Hx & Hb).
      exists (a :: before), after. simpl. rewrite Ea. auto.
    + simpl. exact IH.
Qed.


(** *** How often the model is asked for a route *)

(** [w'] is [w] after [calls] more calls of the model, and nothing else. *)
Definition Asked (w : World) (calls : list (list LlmChatMessage)) (w' : World) : Prop :=
  w_llmCalls w' = w_llmCalls w ++ calls /\
  w_termination w' = w_termination w /\
  w_memory w' = w_memory w.

Section RouteCalls.

Variable JSON_parse : string -> Settled JsonValue.
Variable this : Orchestrator.

Lemma routeAttemptHook_world (raw : string) (error : option string) (attempt : nat)
  (w : World) :
  exists s, routeAttemptHook this raw error attempt w = Some (s, w).
Proof.
  unfold routeAttemptHook.
  destruct (onRouteDecisionAttempt (cfg this)) as [h|]; simpl; eexists; reflexivity.
Qed.

Lemma routeLoop_calls (remaining : nat) :
  forall attempt messages lastError w r w',
    routeLoop JSON_parse this remaining attempt messages lastError w = Some (r, w') ->
    exists calls,
      Asked w calls w' /\ length calls <= remaining /\
      (0 < remaining -> exists rest, calls = messages :: rest).
Proof.
  induction remaining as [|remaining IH]; intros attempt messages lastError w r w' H.
  - inversion H; subst. exists []. unfold Asked. rewrite app_nil_r.
    split; [auto|]. split; [simpl; lia | lia].
  - rewrite routeLoop_unfold in H. unfold bind at 1 in H. unfold chat at 1 in H.
    set (w1 := {| w_termination := w_termination w; w_memory := w_memory w;
                  w_llmCalls := w_llmCalls w ++ [messages] |}) in H.
    assert (Hone : Asked w [messages] w1) by (split; [reflexivity | split; reflexivity]).
    destruct (llm (cfg this) (w_llmCalls w) messages) as [raw|e].
    + unfold tryCatch, bind at 1, await in H.
      assert (Hcatch : forall err,
                 bind (routeAttemptHook this raw (Some err) attempt)
                   (fun _ =>
                      routeLoop JSON_parse this remaining (S attempt)
                        (if (Z.of_nat attempt <? effectiveMaxAttempts this)%Z
                         then messages ++ repairTurn raw err else messages)
                        (Some err)) w1 = Some (r, w') ->
                 exists calls,
                   Asked w calls w' /\ length calls <= S remaining /\
                   (0 < S remaining -> exists rest, calls = messages :: rest)).
      { intros err Herr. unfold bind in Herr.
        destruct (routeAttemptHook_world raw (Some err) attempt w1) as [s Hs].
        rewrite Hs in Herr. destruct s as [[]|e].
        - destruct (IH _ _ _ _ _ _ Herr) as (calls & (Hc & Ht & Hm) & Hlen & _).
          exists (messages :: calls). split.
          + split; [|split].
            * rewrite Hc. simpl. now rewrite <- app_assoc.
            * exact Ht.
            * exact Hm.
          + split; [simpl; lia|]. intros _. now exists calls.
        - inversion Herr; subst. exists [messages].
          split; [exact Hone|]. split; [simpl; lia|]. intros _. now exists []. }
      destruct (parseRouteDecision JSON_parse raw) as [decision|err].
      * unfold bind in H.
        destruct (routeAttemptHook_world raw None attempt w1) as [s Hs].
        rewrite Hs in H. destruct s as [[]|e].
        -- inversion H; subst. exists [messages].
           split; [exact Hone|]. split; [simpl; lia|]. intros _. now exists [].
        -- now apply (Hcatch e).
      * now apply (Hcatch err).
    + inversion H; subst. exists [messages].
      split; [exact Hone|]. split; [simpl; lia|]. intros _. now exists [].
Qed.

End RouteCalls.

(** X26.  Whatever the model answers and whatever the attempt hook
    does, acquiring the route decision asks the model at least once and at
    most as often as the attempt ceiling says (the configured
    [routeDecisionMaxAttempts], or 3 when that is absent or 0), the first
    time with the route prompt; it leaves the ledger and the termination
    state alone.  A negative ceiling means no call at all. *)
Theorem acquireRouteDecision_asks_within_ceiling (JSON_parse : string -> Settled JsonValue)
  (this : Orchestrator) (options : OrchestratorRunOptions) (w : World)
  (r : Settled RouteDecision) (w' : World) :
  acquireRouteDecision JSON_parse this options w = Some (r, w') ->
  exists calls,
    w_llmCalls w' = w_llmCalls w ++ calls /\
    w_termination w' = w_termination w /\
    w_memory w' = w_memory w /\
    (Z.of_nat (length calls) <= Z.max 0 (effectiveMaxAttempts this))%Z /\
    ((0 < effectiveMaxAttempts this)%Z ->
     exists rest, calls = routeMessages this options :: rest) /\
    effectiveMaxAttempts this
    = match routeDecisionMaxAttempts (cfg this) with
      | None | Some 0%Z => 3%Z
      | Some n => n
      end.
Proof.
  intros H. unfold acquireRouteDecision, bind in H.
  destruct (routeLoop JSON_parse this (Z.to_nat (effectiveMaxAttempts this)) 1
              (routeMessages this options) None w) as [[s w1]|] eqn:Hloop;
    [|discriminate].
  destruct (routeLoop_calls JSON_parse this _ _ _ _ _ _ _ Hloop)
    as (calls & (Hc & Ht & Hm) & Hlen & Hfirst).
  assert (Hw : w' = w1).
  { destruct s as [[d|[messages lastError]]|e]; inversion H; reflexivity. }
  subst w'. exists calls.
  split; [exact Hc|]. split; [exact Ht|]. split; [exact Hm|].
  split; [lia|]. split; [intros Hpos; apply Hfirst; lia|].
  unfold effectiveMaxAttempts.
  destruct (routeDecisionMaxAttempts (cfg this)) as [[|n|n]|]; reflexivity.
Qed.

Definition twoAttempts : Orchestrator :=
  orchestratorFor (configFor [testCrew] alwaysGarbled (Some 2%Z)).

Lemma acquireRouteDecision_asks_within_ceiling_witness :
  exists r w',
    acquireRouteDecision sampleParse twoAttempts buildFeatureX initialWorld
    = Some (r, w') /\
    exists calls,
      w_llmCalls w' = w_llmCalls initialWorld ++ calls /\
      (Z.of_nat (length calls) <= 2)%Z.
Proof.
  eexists _, _. split; [vm_compute; reflexivity|].
  edestruct (acquireRouteDecision_asks_within_ceiling sampleParse twoAttempts
               buildFeatureX initialWorld) as (calls & Hcalls & _ & _ & Hlen & _).
  - vm_compute. reflexivity.
  - exists calls. split; [exact Hcalls | exact Hlen].
Defined.

(** *** The direct-execution case *)

Definition directBatches (k : Crew) (t : TerminationState) : nat :=
  if terminated t then 0
  else match List.filter isWorker (crew_agents k) with
       | [] => 0
       | _ => 1
       end.

Definition directNote (k : Crew) : string :=
  "Executed direct batch with " +:+ pretty (length (List.filter isWorker (crew_agents k)))
  +:+ " placeholder steps".

Lemma executeDirectExecution_outcome (timing : list AgentWork -> Timing)
  (this : Orchestrator) (k : Crew) (px : ParallelExecutorOptions) (w : World) :
  crew this = Some k -> parallelExecutor this = Some px ->
  quiet (onStartBatch px) -> quiet (onFinishBatch px) ->
  executeDirectExecution timing this w
  = Some (Fulfilled (directBatches k (w_termination w)),
          if Nat.eqb (directBatches k (w_termination w)) 1
          then {| w_termination := w_termination w;
                  w_memory := appendObservation (directNote k) (Some true) (w_memory w);
                  w_llmCalls := w_llmCalls w |}
          else w).
Proof.
  intros Hcrew Hpx Hstart Hfinish.
  unfold executeDirectExecution, directBatches, directNote. rewrite Hcrew, Hpx.
  unfold bind at 1. unfold checkTermination, bind at 1, get, ret.
  destruct (terminated (w_termination w)) eqn:Ht; [reflexivity|].
  destruct (List.filter isWorker (crew_agents k)) as [|a0 rest] eqn:Ef; [reflexivity|].
  unfold bind at 1, runBatchOf, await.
  match goal with
  | |- context [runBatch ?t px ?items] =>
      destruct (runBatch_resolves t px items Hstart Hfinish) as [summary ->]
  end.
  unfold bind, remember, modify, checkTermination, get, ret. cbn [Nat.eqb].
  rewrite length_map. reflexivity.
Qed.

(** X27.  A run whose route decision is [direct_execution], on an
    orchestrator whose batch hook is absent or returns normally: it returns a
    result without a plan; it ran one batch and noted it in the ledger when
    the roster has an agent that is enabled and has no reflection role, and
    none (leaving the ledger alone) when there is no such agent or the
    orchestrator had terminated before; the model is not asked again after
    the route decision and the termination state stays as it was. *)
Theorem run_direct_execution (timing : list AgentWork -> Timing)
  (JSON_parse : string -> Settled JsonValue) (c : CrewOrchestratorConfig)
  (options : OrchestratorRunOptions) (k : Crew) (d : RouteDecision) (w w1 : World) :
  quiet (onParallelBatchComplete c) ->
  selectCrew c = Some k ->
  acquireRouteDecision JSON_parse (orchestratorFor c) options w = Some (Fulfilled d, w1) ->
  strategy d = direct_execution ->
  exists r w',
    run timing JSON_parse (orchestratorFor c) options w = Some (Fulfilled r, w') /\
    result_routeDecision r = d /\
    planGenerated r = false /\ plan r = None /\
    parallelBatchesExecuted r = directBatches k (w_termination w) /\
    terminationEarly r = terminated (w_termination w) /\
    w_llmCalls w' = w_llmCalls w1 /\
    w_termination w' = w_termination w /\
    w_memory w'
    = if Nat.eqb (directBatches k (w_termination w)) 1
      then appendObservation (directNote k) (Some true) (w_memory w)
      else w_memory w.
Proof.
  intros Hquiet Hk Hroute Hdirect.
  pose proof (orchestratorFor_crew c) as Hcrew. rewrite Hk in Hcrew.
  destruct (orchestratorFor_parallelExecutor c k Hk) as (px & Hpx & _ & _).
  destruct (orchestratorFor_batch_quiet c Hquiet px Hpx) as [Hstart Hfinish].
  assert (Hsame : w_termination w1 = w_termination w /\ w_memory w1 = w_memory w).
  { unfold acquireRouteDecision, bind in Hroute.
    destruct (routeLoop JSON_parse (orchestratorFor c)
                (Z.to_nat (effectiveMaxAttempts (orchestratorFor c))) 1
                (routeMessages (orchestratorFor c) options) None w)
      as [[s w2]|] eqn:Hloop; [|discriminate].
    destruct (routeLoop_calls JSON_parse (orchestratorFor c) _ _ _ _ _ _ _ Hloop)
      as (calls & (_ & Ht & Hm) & _).
    assert (Hw : w1 = w2).
    { destruct s as [[d'|[messages lastError]]|e]; inversion Hroute; reflexivity. }
    subst w2. split; [exact Ht | exact Hm]. }
  destruct Hsame as [Ht Hm].
  unfold run. rewrite Hcrew. unfold bind at 1. rewrite Hroute, Hdirect.
  unfold dispatch. unfold bind at 1. unfold bind at 1.
  rewrite (executeDirectExecution_outcome timing (orchestratorFor c) k px w1
             Hcrew Hpx Hstart Hfinish).
  rewrite Ht, Hm.
  unfold bind, get, ret.
  eexists _, _. split; [reflexivity|].
  cbn [result_routeDecision planGenerated plan parallelBatchesExecuted terminationEarly
       resultOf].
  destruct (Nat.eqb (directBatches k (w_termination w)) 1);
    cbn [w_termination w_memory w_llmCalls]; rewrite ?Ht, ?Hm; auto 10.
Qed.

Definition directClient
  : list (list LlmChatMessage) -> list LlmChatMessage -> Settled string :=
  fun _ _ => Fulfilled "ROUTE:direct".

Lemma run_direct_execution_witness :
  exists d w1 r w',
    acquireRouteDecision sampleParse (orchestratorFor (configFor [testCrew] directClient None))
      buildFeatureX initialWorld = Some (Fulfilled d, w1) /\
    run settleInOrder sampleParse (orchestratorFor (configFor [testCrew] directClient None))
      buildFeatureX initialWorld = Some (Fulfilled r, w') /\
    parallelBatchesExecuted r = 1 /\ plan r = None /\
    length (w_llmCalls w') = 1.
Proof.
  eexists _, _.
  edestruct (run_direct_execution settleInOrder sampleParse
               (configFor [testCrew] directClient None) buildFeatureX testCrew)
    as (r & w' & Hrun & _ & _ & Hplan & Hbatches & _ & Hcalls & _).
  - apply quiet_None.
  - reflexivity.
  - vm_compute. reflexivity.
  - reflexivity.
  - exists r, w'. split; [reflexivity|]. split; [exact Hrun|].
    split; [exact Hbatches|]. split; [exact Hplan|]. now rewrite Hcalls.
Defined.

(** *** The ids of the skeleton plan *)

Definition isDigit (c : ascii) : bool :=
  Nat.leb 48 (nat_of_ascii c) && Nat.leb (nat_of_ascii c) 57.

Fixpoint allDigits (s : string) : bool :=
  match s with
  | EmptyString => true
  | String c rest => isDigit c && allDigits rest
  end.

Lemma pretty_N_char_digit (x : N) : isDigit (pretty_N_char x) = true.
Proof.
  unfold pretty_N_char.
  repeat match goal with
         | |- context [match ?y with _ => _ end] => destruct y
         end; reflexivity.
Qed.

Lemma pretty_N_go_digits (x : N) :
  forall s, allDigits s = true -> allDigits (pretty_N_go x s) = true.
Proof.
  induction (N.lt_wf_0 x) as [x _ IH]. intros s Hs.
  destruct (decide (0 < x)%N) as [Hx|Hx].
  - rewrite pretty_N_go_step by exact Hx.
    apply IH; [now apply N.div_lt|].
    simpl. now rewrite pretty_N_char_digit.
  - assert (x = 0%N) as -> by lia. now rewrite pretty_N_go_0.
Qed.

Lemma pretty_nat_digits (n : nat) : allDigits (pretty n) = true.
Proof.
  unfold pretty, pretty_nat, pretty, pretty_N.
  destruct (decide (N.of_nat n = 0%N)); [reflexivity|].
  now apply pretty_N_go_digits.
Qed.

Lemma digits_before_underscore (p q a b : string) :
  allDigits p = true -> allDigits q = true ->
  p +:+ String "_" a = q +:+ String "_" b -> p = q.
Proof.
  revert q. induction p as [|c p IH]; intros [|c' q] Hp Hq H.
  - reflexivity.
  - change (String "_" a = String c' (q +:+ String "_" b)) in H.
    inversion H; subst c'. discriminate.
  - change (String c (p +:+ String "_" a) = String "_" b) in H.
    inversion H; subst c. discriminate.
  - change (String c (p +:+ String "_" a) = String c' (q +:+ String "_" b)) in H.
    inversion H; subst c'. simpl in Hp, Hq.
    apply andb_prop in Hp as [_ Hp]. apply andb_prop in Hq as [_ Hq].
    f_equal. now apply IH.
Qed.

Lemma skeletonStep_id_inj (goalText : string) (i j : nat) (a b : CrewAgent) :
  step_id (skeletonStep goalText i a) = step_id (skeletonStep goalText j b) -> i = j.
Proof.
  unfold skeletonStep. cbn [step_id]. intros H.
  change ("step_" +:+ pretty (i + 1) +:+ String "_" (agent_id a)
          = "step_" +:+ pretty (j + 1) +:+ String "_" (agent_id b)) in H.
  apply (inj (String.append "step_")) in H.
  apply digits_before_underscore in H; try apply pretty_nat_digits.
  apply (inj pretty) in H. lia.
Qed.

(** X28.  The skeleton plan never repeats a step id, also when two
    agents of the roster share an id: the position is part of the id.  Its
    steps are the enabled agents without a reflection role, each with the
    agent's id and parallel group, pending and without dependencies, so that
    all of them are ready for the first wave. *)
Theorem skeleton_plan_ids_are_distinct (this : Orchestrator) (goalText : string) :
  let steps := plan_steps (generateSkeletonPlan this goalText) in
  let workers := match crew this with
                 | Some k => List.filter isWorker (crew_agents k)
                 | None => []
                 end in
  NoDup (map step_id steps) /\
  map (fun s => (step_agentId s, step_parallelGroup s, step_status s, step_dependsOn s))
      steps
  = map (fun a => (Some (agent_id a), agent_parallelGroup a, Some pending, Some []))
        workers /\
  readySteps (stepIndex steps) steps = seq 0 (length workers).
Proof.
  cbn zeta. unfold generateSkeletonPlan.
  destruct (crew this) as [k|]; cbn [plan_steps];
    [|split; [constructor | split; reflexivity]].
  set (workers := List.filter isWorker (crew_agents k)).
  split; [|split].
  - change (map step_id (imap (skeletonStep goalText) workers))
      with (step_id <$> imap (skeletonStep goalText) workers).
    apply NoDup_alt. intros i j x Hi Hj.
    rewrite list_lookup_fmap, list_lookup_imap in Hi, Hj.
    destruct (workers !! i) as [a|]; [|discriminate].
    destruct (workers !! j) as [b|]; [|discriminate].
    apply (skeletonStep_id_inj goalText i j a b).
    cbn [fmap option_fmap option_map] in Hi, Hj. congruence.
  - generalize workers. intros l.
    assert (H : forall (f : nat -> CrewAgent -> PlanStep),
               (forall i a, (step_agentId (f i a), step_parallelGroup (f i a),
                             step_status (f i a), step_dependsOn (f i a))
                            = (Some (agent_id a), agent_parallelGroup a, Some pending,
                               Some [])) ->
               map (fun s => (step_agentId s, step_parallelGroup s, step_status s,
                              step_dependsOn s)) (imap f l)
               = map (fun a => (Some (agent_id a), agent_parallelGroup a, Some pending,
                                Some [])) l).
    { induction l as [|a l IH]; intros f Hf; [reflexivity|].
      simpl. rewrite Hf. f_equal. apply IH. intros i b. apply Hf. }
    apply H. reflexivity.
  - unfold readySteps. rewrite length_imap.
    set (steps := imap (skeletonStep goalText) workers).
    assert (Hall : forall i, i ∈ seq 0 (length workers) ->
               match steps !! i with
               | Some s => isReady (stepIndex steps) steps s
               | None => false
               end = true).
    { intros i Hi. apply elem_of_seq in Hi. unfold steps.
      rewrite list_lookup_imap.
      destruct (workers !! i) as [a|] eqn:Ea.
      - reflexivity.
      - apply lookup_ge_None in Ea. lia. }
    revert Hall. generalize (seq 0 (length workers)). intros l Hall.
    induction l as [|i l IH]; [reflexivity|].
    simpl. rewrite (Hall i) by (apply elem_of_cons; now left).
    f_equal. apply IH. intros j Hj. apply Hall. apply elem_of_cons. now right.
Qed.

End CrewOrchestrator.
